(** * gta3sc code generator (src/codegen.hpp): a shallow embedding

    The code generator turns the compiler's intermediate representation
    (a vector of [CompiledData]) into SCM bytecode.  This development
    embeds the byte emplacers of [CodeGeneratorBase], the size functions
    [compiled_size], the emitters [generate_code], the label resolver
    [CodeGenerator::compute_labels] and the header emitter for
    [CompiledScmHeader], and proves properties of them.

    Conventions.
    - [size_t] quantities (cursor, buffer size, container sizes) are [nat]:
      they count bytes of objects that are in memory, on an LP64 target.
    - fixed-width integers are [Z] with the wrap-around written out
      ([cast_u8], [cast_u32], [cast_i32], ...).
    - a byte is a [Z] in [0, 256); the buffer is a [list Z].
    - [assert] (taken as compiled in), [Expects], [optional::value()] on
      an empty optional and an out-of-range float conversion stop the run:
      an [Outcome] is either [Done] or [Abort] with the state reached at
      that point.
    - [compiler.hpp], [symtable.hpp] and [program.hpp] are not part of the
      sources at hand: the records below carry the members codegen.hpp
      reads, and what is taken from the specification instead of the code
      is marked as such. *)

From Stdlib Require Import ZArith String Lia.
From Stdlib Require Import Floats.SpecFloat.
From stdpp Require Import base decidable numbers list functions.

Local Open Scope nat_scope.

(** ** Fixed-width integers *)

Definition cast_u8 (v : Z) : Z := (v mod 2 ^ 8)%Z.
Definition cast_u16 (v : Z) : Z := (v mod 2 ^ 16)%Z.
Definition cast_u32 (v : Z) : Z := (v mod 2 ^ 32)%Z.
Definition cast_i8 (v : Z) : Z := ((v + 2 ^ 7) mod 2 ^ 8 - 2 ^ 7)%Z.
Definition cast_i16 (v : Z) : Z := ((v + 2 ^ 15) mod 2 ^ 16 - 2 ^ 15)%Z.
Definition cast_i32 (v : Z) : Z := ((v + 2 ^ 31) mod 2 ^ 32 - 2 ^ 31)%Z.

(** ** Program context: options and the diagnostic channel *)

(** Modelled from the spec: [ProgramContext] and its options are declared
    in program.hpp, outside the sources at hand.  The record has the four
    options codegen.hpp reads through [codegen.program.opt]. *)
Record Options := {
  optimize_zero_floats : bool;
  use_half_float : bool;
  use_local_offsets : bool;
  has_text_label_prefix : bool
}.

(** Modelled from the spec: of [ProgramContext], the options and the
    diagnostics reported through [error] ("Reported via program.error"). *)
Record ProgramContext := {
  opt : Options;
  diagnostics : list string   (* what [program.error] has reported so far *)
}.

(** [program.error(nocontext, msg)] *)
Definition ProgramContext_error (msg : string) (p : ProgramContext) : ProgramContext :=
  {| opt := opt p; diagnostics := diagnostics p ++ [msg] |}.

(** ** CodeGeneratorBase: the byte buffer and its cursor

    [bytecode] is an array of [max_offset] bytes ("size == max_offset" in the
    source); the list carries its own length, so [max_offset] is read off
    the list. *)

Record CodeGeneratorBase := {
  program : ProgramContext;
  bytecode : list Z;
  offset : nat
}.

Definition max_offset (cg : CodeGeneratorBase) : nat := length (bytecode cg).
Definition buffer_size (cg : CodeGeneratorBase) : nat := max_offset cg.
Definition current_offset (cg : CodeGeneratorBase) : nat := offset cg.

(** [setup_buffer(max_offset)]: [new uint8_t[max_offset]] leaves the bytes
    indeterminate; [junk] is what the allocator happens to hand out. *)
Definition setup_buffer (junk : nat -> Z) (n : nat) (cg : CodeGeneratorBase) : CodeGeneratorBase :=
  {| program := program cg; bytecode := map junk (seq 0 n); offset := 0 |}.

(** ** Outcomes and the emitter monad *)

Inductive Failure :=
| AssertionFailure      (* assert(...) *)
| ContractViolation     (* Expects(...) *)
| BadOptionalAccess     (* optional::value() on nullopt *)
| UndefinedConversion.  (* float to integer conversion out of range *)

Inductive Outcome (A : Type) :=
| Done (a : A) (cg : CodeGeneratorBase)
| Abort (why : Failure) (cg : CodeGeneratorBase).
Arguments Done {A} a cg.
Arguments Abort {A} why cg.

Definition M (A : Type) : Type := CodeGeneratorBase -> Outcome A.

Definition ret {A} (a : A) : M A := fun cg => Done a cg.
Definition bind {A B} (f : A -> M B) (m : M A) : M B :=
  fun cg => match m cg with
            | Done a cg' => f a cg'
            | Abort why cg' => Abort why cg'
            end.
Definition throw {A} (why : Failure) : M A := fun cg => Abort why cg.

#[global] Instance M_ret : MRet M := @ret.
#[global] Instance M_bind : MBind M := @bind.

(** [optional::value()] *)
Definition value {A} (o : option A) : M A :=
  match o with
  | Some a => mret a
  | None => throw BadOptionalAccess
  end.

Definition assert (b : bool) : M unit :=
  if b then mret tt else throw AssertionFailure.

Definition Expects (b : bool) : M unit :=
  if b then mret tt else throw ContractViolation.

(** iteration of a [for(auto& x : xs)] loop whose body is an emitter *)
Fixpoint for_each {A} (body : A -> M unit) (xs : list A) : M unit :=
  match xs with
  | [] => mret tt
  | x :: rest => body x ;; for_each body rest
  end.

(** ** The emplacers *)

Definition emplace_u8 (value : Z) : M unit := fun cg =>
  if decide (offset cg + 1 <= max_offset cg)
  then Done tt {| program := program cg;
                  bytecode := <[offset cg := cast_u8 value]> (bytecode cg);
                  offset := offset cg + 1 |}
  else Abort AssertionFailure cg.

Definition emplace_u16 (value : Z) : M unit :=
  let value := cast_u16 value in
  emplace_u8 (Z.shiftr (Z.land value 0x00FF) 0) ;;
  emplace_u8 (Z.shiftr (Z.land value 0xFF00) 8).

Definition emplace_u32 (value : Z) : M unit :=
  let value := cast_u32 value in
  emplace_u8 (Z.shiftr (Z.land value 0x000000FF) 0) ;;
  emplace_u8 (Z.shiftr (Z.land value 0x0000FF00) 8) ;;
  emplace_u8 (Z.shiftr (Z.land value 0x00FF0000) 16) ;;
  emplace_u8 (Z.shiftr (Z.land value 0xFF000000) 24).

Definition emplace_i8 (value : Z) : M unit := emplace_u8 (cast_u8 (cast_i8 value)).
Definition emplace_i16 (value : Z) : M unit := emplace_u16 (cast_u16 (cast_i16 value)).
Definition emplace_i32 (value : Z) : M unit := emplace_u32 (cast_u32 (cast_i32 value)).

(** [std::strncpy(dest, src, count)]: copies the characters of the C string
    [src] up to its terminating NUL, at most [count] of them, and fills what
    is left of the [count] bytes with NUL.  [src] lists the bytes in front of
    the terminator that [c_str()] appends. *)
Fixpoint strncpy (count : nat) (src : list Z) : list Z :=
  match count with
  | 0 => []
  | S c =>
      match src with
      | [] => replicate (S c) 0%Z
      | ch :: rest =>
          if decide (ch = 0%Z) then replicate (S c) 0%Z
          else ch :: strncpy c rest
      end
  end.

(** [std::strlen] *)
Fixpoint strlen (src : list Z) : nat :=
  match src with
  | [] => 0
  | ch :: rest => if decide (ch = 0%Z) then 0 else S (strlen rest)
  end.

Definition emplace_chars (count : nat) (data : list Z) : M unit := fun cg =>
  if decide (offset cg + count <= max_offset cg)
  then Done tt {| program := program cg;
                  bytecode := list_inserts (offset cg) (strncpy count data) (bytecode cg);
                  offset := offset cg + count |}
  else Abort AssertionFailure cg.

(** [std::memcpy] of [count] bytes out of [bytes] *)
Definition emplace_bytes (count : nat) (bytes : list Z) : M unit := fun cg =>
  if decide (offset cg + count <= max_offset cg)
  then Done tt {| program := program cg;
                  bytecode := list_inserts (offset cg) (take count bytes) (bytecode cg);
                  offset := offset cg + count |}
  else Abort AssertionFailure cg.

(** [std::memset] *)
Definition emplace_fill (count : nat) (val : Z) : M unit := fun cg =>
  if decide (offset cg + count <= max_offset cg)
  then Done tt {| program := program cg;
                  bytecode := list_inserts (offset cg) (replicate count (cast_u8 val)) (bytecode cg);
                  offset := offset cg + count |}
  else Abort AssertionFailure cg.

(** reading the cursor and the options: [codegen.current_offset()],
    [codegen.program.opt]; reporting: [codegen.program.error(nocontext, msg)] *)
Definition get_offset : M nat := fun cg => Done (current_offset cg) cg.
Definition get_opt : M Options := fun cg => Done (opt (program cg)) cg.
Definition program_error (msg : string) : M unit := fun cg =>
  Done tt {| program := ProgramContext_error msg (program cg);
             bytecode := bytecode cg;
             offset := offset cg |}.

(** ** IEEE-754 single precision

    A [float] is kept as its 32-bit pattern, which is what the raw encoding
    writes; comparison and multiplication go through the Standard Library's
    specification of binary floating point at precision 24, [emax] 128. *)

Definition float := Z.

Definition float_of_bits (bits : float) : spec_float :=
  let s := Z.testbit bits 31 in
  let e := Z.land (Z.shiftr bits 23) 0xFF in
  let m := Z.land bits 0x7FFFFF in
  if decide (e = 0)%Z then
    match m with Zpos p => S754_finite s p (-149) | _ => S754_zero s end
  else if decide (e = 255)%Z then
    match m with Z0 => S754_infinity s | _ => S754_nan end
  else
    match (m + 2 ^ 23)%Z with Zpos p => S754_finite s p (e - 150) | _ => S754_nan end.

(** [f == 0.0f] *)
Definition float_is_zero (f : float) : bool :=
  SFeqb (float_of_bits f) (S754_zero false).

(** [value * 16.0f]; 16.0f has the bit pattern 0x41800000 *)
Definition float_times_16 (f : float) : spec_float :=
  SFmul 24 128 (float_of_bits f) (float_of_bits 0x41800000%Z).

(** [static_cast<int16_t>(x)] on a float: truncation toward zero; the
    conversion is undefined when the truncated value is not an [int16_t]. *)
Definition float_to_int16 (x : spec_float) : option Z :=
  match x with
  | S754_zero _ => Some 0%Z
  | S754_finite s m e =>
      let mag := Z.shiftl (Zpos m) e in
      let v := if s then (- mag)%Z else mag in
      if decide (- 2 ^ 15 <= v < 2 ^ 15)%Z then Some v else None
  | _ => None
  end.

(** ** Scripts, labels, variables *)

(** Modelled from the spec: [ScriptType] is declared outside codegen.hpp;
    the enumerators are the five the spec lists. *)
Inductive ScriptType := Main | MainExtension | Subscript | Mission | StreamedScript.

#[global] Instance ScriptType_eq_dec : EqDecision ScriptType.
Proof. solve_decision. Defined.

(** Modelled from the spec: [Script] is declared outside codegen.hpp ("path,
    type, an optional absolute offset in the final image, an optional
    size").  A [Script] is reached through [shared_ptr<const Script>]:
    [script_addr] stands for the address of the object (pointer comparison),
    the other fields are what the code generator reads.  [path_stem] is
    [path.stem().u8string()]; offset and size are [optional<uint32_t>]. *)
Record Script := {
  script_addr : nat;
  path_stem : list Z;
  script_type : ScriptType;
  script_offset : option Z;
  script_size : option Z
}.

(** [label_ptr->script == codegen.script] on shared pointers *)
Definition same_script (a b : Script) : bool :=
  bool_decide (script_addr a = script_addr b).

(** Modelled from the spec: [Label] is declared outside codegen.hpp ("owned
    by one Script; has a local_offset"); [script] and [local_offset] are
    the members codegen.hpp reads and writes. *)
Record Label := {
  label_script : Script;
  local_offset : option Z
}.

(** Labels are shared ([shared_ptr<Label>]) and written by
    [compute_labels]: a label pointer is an address into a store. *)
Definition LabelPtr := nat.
Definition LabelStore := LabelPtr -> Label.

(** Modelled from the spec: [Label::offset()] is declared outside
    codegen.hpp.  The spec gives a label "a derived absolute_offset
    (Script's image offset + local_offset)"; both parts are optionals read
    with [value()]. *)
Definition Label_offset (l : Label) : option Z :=
  match script_offset (label_script l), local_offset l with
  | Some so, Some lo => Some (cast_u32 (so + lo))
  | _, _ => None
  end.

(** Modelled from the spec: [VarType], declared outside codegen.hpp, with
    the four element types that the switches of [generate_code(CompiledVar)]
    handle. *)
Inductive VarType := Int | Float | TextLabel | TextLabel16.

(** Modelled from the spec: the enumerators of [VarType] are declared
    outside codegen.hpp; they are numbered in the order the spec lists
    them, for [static_cast<uint8_t>(v.var->type)]. *)
Definition VarType_value (t : VarType) : Z :=
  match t with Int => 0 | Float => 1 | TextLabel => 2 | TextLabel16 => 3 end%Z.

(** Modelled from the spec: [Var] is declared outside codegen.hpp ("global?
    flag, element type, index, offset(), optional count").  [Var::offset()],
    the "global byte offset", is carried as the field [var_offset]. *)
Record Var := {
  global : bool;
  var_type : VarType;
  var_index : Z;
  var_count : option Z;
  var_offset : Z
}.

(** ** The intermediate representation

    Modelled from the spec: the node types are declared in compiler.hpp,
    outside the sources at hand.  They follow the spec's list of IR node
    variants and carry the members codegen.hpp reads: [v.var], [v.index] (an
    optional variant of [int32_t] and [shared_ptr<Var>]), [s.type],
    [s.storage], [cmd.id], [cmd.args], [label], [hex.data], [op.data]. *)

(** Modelled from the spec: the index of a variable reference, "a
    compile-time int32 or another Var". *)
Inductive VarIndex :=
| Index_int32 (i : Z)
| Index_Var (v : Var).

(** Modelled from the spec: "Var(var, index?)". *)
Record CompiledVar := {
  var : Var;
  index : option VarIndex
}.

(** Modelled from the spec: [CompiledString::Type], the four kinds of the
    switch in [compiled_size(CompiledString)]. *)
Inductive StringType := StrTextLabel8 | StrTextLabel16 | StrStringVar | StrString128.

(** Modelled from the spec: "String(kind, bytes)". *)
Record CompiledString := {
  string_type : StringType;
  storage : list Z
}.

(** Modelled from the spec: "an Arg is any of the atomic payload variants
    (EOAL, int, float, LabelRef, Var, String)". *)
Inductive ArgVariant :=
| Arg_EOAL
| Arg_int8 (value : Z)
| Arg_int16 (value : Z)
| Arg_int32 (value : Z)
| Arg_float (value : float)
| Arg_Label (label_ptr : LabelPtr)
| Arg_Var (v : CompiledVar)
| Arg_String (s : CompiledString).

(** Modelled from the spec: "Command(id:u16, args:[Arg])". *)
Record CompiledCommand := {
  id : Z;
  args : list ArgVariant
}.

(** Modelled from the spec: "LabelDef(Label)", a pure marker. *)
Record CompiledLabelDef := { label : LabelPtr }.

(** Modelled from the spec: "Hex(bytes)", raw passthrough bytes. *)
Record CompiledHex := { hex_data : list Z }.

(** Modelled from the spec: the variants of [CompiledData::data]. *)
Inductive CompiledDataVariant :=
| Data_EOAL
| Data_Command (cmd : CompiledCommand)
| Data_int8 (value : Z)
| Data_int16 (value : Z)
| Data_int32 (value : Z)
| Data_float (value : float)
| Data_Label (label_ptr : LabelPtr)
| Data_Var (v : CompiledVar)
| Data_String (s : CompiledString)
| Data_LabelDef (d : CompiledLabelDef)
| Data_Hex (h : CompiledHex).

(** Modelled from the spec: a node of the IR, the struct around the variant
    that [visit_one(data.data, ...)] dispatches on. *)
Record CompiledData := { data : CompiledDataVariant }.

(** ** compiled_size

    The overloads read [codegen.program.opt] only, so they take the
    options.  [sizeof(int8_t)] = 1, [sizeof(int16_t)] = [sizeof(uint16_t)]
    = 2, [sizeof(int32_t)] = [sizeof(float)] = 4. *)

Definition compiled_size_EOAL : nat := 1.
Definition compiled_size_int8 : nat := 1 + 1.
Definition compiled_size_int16 : nat := 1 + 2.
Definition compiled_size_int32 : nat := 1 + 4.

Definition compiled_size_float (f : float) (o : Options) : nat :=
  if optimize_zero_floats o && float_is_zero f then 1 + 1
  else if use_half_float o then 1 + 2
  else 1 + 4.

Definition compiled_size_Label : nat := 1 + 4.

Definition compiled_size_CompiledVar (v : CompiledVar) : nat :=
  match index v with
  | None => 1 + 2
  | Some (Index_int32 _) => 1 + 2
  | Some (Index_Var _) => 1 + 2 * 2 + 1 * 2
  end.

Definition compiled_size_CompiledString (s : CompiledString) (o : Options) : nat :=
  match string_type s with
  | StrTextLabel8 => (if has_text_label_prefix o then 1 else 0) + 8
  | StrTextLabel16 => 1 + 16
  | StrStringVar => 1 + 1 + length (storage s)
  | StrString128 => 128
  end.

Definition compiled_size_ArgVariant (varg : ArgVariant) (o : Options) : nat :=
  match varg with
  | Arg_EOAL => compiled_size_EOAL
  | Arg_int8 _ => compiled_size_int8
  | Arg_int16 _ => compiled_size_int16
  | Arg_int32 _ => compiled_size_int32
  | Arg_float f => compiled_size_float f o
  | Arg_Label _ => compiled_size_Label
  | Arg_Var v => compiled_size_CompiledVar v
  | Arg_String s => compiled_size_CompiledString s o
  end.

Definition compiled_size_CompiledCommand (cmd : CompiledCommand) (o : Options) : nat :=
  fold_left (fun size a => size + compiled_size_ArgVariant a o) (args cmd) 2.

(** Modelled from the spec: [CompiledLabelDef::compiled_size()] and
    [CompiledHex::compiled_size()], reached through the generic
    [compiled_size] template, are declared outside codegen.hpp.  The spec's
    size table gives LabelDef 0 and Hex len(bytes). *)
Definition CompiledLabelDef_compiled_size (d : CompiledLabelDef) : nat := 0.
Definition CompiledHex_compiled_size (h : CompiledHex) : nat := length (hex_data h).

Definition compiled_size (d : CompiledData) (o : Options) : nat :=
  match data d with
  | Data_EOAL => compiled_size_EOAL
  | Data_Command cmd => compiled_size_CompiledCommand cmd o
  | Data_int8 _ => compiled_size_int8
  | Data_int16 _ => compiled_size_int16
  | Data_int32 _ => compiled_size_int32
  | Data_float f => compiled_size_float f o
  | Data_Label _ => compiled_size_Label
  | Data_Var v => compiled_size_CompiledVar v
  | Data_String s => compiled_size_CompiledString s o
  | Data_LabelDef d => CompiledLabelDef_compiled_size d
  | Data_Hex h => CompiledHex_compiled_size h
  end.

(** ** generate_code for the nodes of a script *)

Definition generate_code_EOAL : M unit := emplace_u8 0.

Definition generate_code_int8 (value : Z) : M unit :=
  emplace_u8 4 ;; emplace_i8 value.

Definition generate_code_int16 (value : Z) : M unit :=
  emplace_u8 5 ;; emplace_i16 value.

Definition generate_code_int32 (value : Z) : M unit :=
  emplace_u8 1 ;; emplace_i32 value.

Definition generate_code_float (value : float) : M unit :=
  o ← get_opt;
  if optimize_zero_floats o && float_is_zero value then
    generate_code_int8 0
  else if use_half_float o then
    emplace_u8 6 ;;
    match float_to_int16 (float_times_16 value) with
    | Some half => emplace_i16 half
    | None => throw UndefinedConversion
    end
  else
    emplace_u8 6 ;; emplace_u32 value.

Definition zero_offset_message : string := "XXX reference to zero offset".

(** the lambda [emplace_local_offset] of [generate_code(shared_ptr<Label>)] *)
Definition emplace_local_offset (offset : Z) : M unit :=
  (if decide (offset = 0%Z) then program_error zero_offset_message else mret tt) ;;
  emplace_i32 (- offset).

Definition generate_code_Label (labels : LabelStore) (script : Script)
    (label_ptr : LabelPtr) : M unit :=
  emplace_u8 1 ;;
  o ← get_opt;
  if use_local_offsets o then
    off ← value (Label_offset (labels label_ptr));
    let absolute_offset := cast_i32 off in
    emplace_local_offset absolute_offset
  else if bool_decide (script_type (label_script (labels label_ptr)) = Mission
                       ∨ script_type (label_script (labels label_ptr)) = StreamedScript) then
    assert (same_script (label_script (labels label_ptr)) script) ;;
    lo ← value (local_offset (labels label_ptr));
    let local_offset := cast_i32 lo in
    emplace_local_offset local_offset
  else
    off ← value (Label_offset (labels label_ptr));
    emplace_i32 off.

Definition generate_code_CompiledString (str : CompiledString) : M unit :=
  match string_type str with
  | StrTextLabel8 =>
      Expects (bool_decide (length (storage str) <= 8)) ;;
      o ← get_opt;
      (if has_text_label_prefix o then emplace_u8 9 else mret tt) ;;
      emplace_chars 8 (storage str)
  | StrTextLabel16 =>
      Expects (bool_decide (length (storage str) <= 16)) ;;
      emplace_u8 0xF ;;
      emplace_chars 16 (storage str)
  | StrStringVar =>
      Expects (bool_decide (length (storage str) <= 127)) ;;
      emplace_u8 0xE ;;
      emplace_u8 (Z.of_nat (length (storage str))) ;;
      emplace_chars (length (storage str)) (storage str)
  | StrString128 =>
      emplace_chars 128 (storage str)
  end.

(** the three [switch(v.var->type)] blocks of [generate_code(CompiledVar)] *)
Definition var_tag (t : VarType) (global : bool) (for_int for_text8 for_text16 : Z * Z) : Z :=
  match t with
  | Int | Float => if global then fst for_int else snd for_int
  | TextLabel => if global then fst for_text8 else snd for_text8
  | TextLabel16 => if global then fst for_text16 else snd for_text16
  end.

Definition generate_code_CompiledVar (v : CompiledVar) : M unit :=
  let is_global := global (var v) in
  match index v with
  | None =>
      emplace_u8 (var_tag (var_type (var v)) is_global (0x2, 0x3) (0xA, 0xB) (0x10, 0x11))%Z ;;
      emplace_u16 (if is_global then var_offset (var v) else var_index (var v))
  | Some (Index_int32 i) =>
      emplace_u8 (var_tag (var_type (var v)) is_global (0x2, 0x3) (0xA, 0xB) (0x10, 0x11))%Z ;;
      emplace_u16 (if is_global then var_offset (var v) + i * 4 else var_index (var v) + i)%Z
  | Some (Index_Var indexVar) =>
      emplace_u8 (var_tag (var_type (var v)) is_global (0x7, 0x8) (0xC, 0xD) (0x12, 0x13))%Z ;;
      emplace_u16 (if is_global then var_offset (var v) else var_index (var v)) ;;
      emplace_u16 (if global indexVar then var_offset indexVar else var_index indexVar) ;;
      count ← value (var_count (var v));
      emplace_u8 count ;;
      emplace_u8 (Z.lor (Z.land (cast_u8 (VarType_value (var_type (var v)))) 0x7F)
                        (Z.shiftl (Z.b2z (global indexVar)) 7))
  end.

Definition generate_code_ArgVariant (labels : LabelStore) (script : Script)
    (varg : ArgVariant) : M unit :=
  match varg with
  | Arg_EOAL => generate_code_EOAL
  | Arg_int8 value => generate_code_int8 value
  | Arg_int16 value => generate_code_int16 value
  | Arg_int32 value => generate_code_int32 value
  | Arg_float value => generate_code_float value
  | Arg_Label label_ptr => generate_code_Label labels script label_ptr
  | Arg_Var v => generate_code_CompiledVar v
  | Arg_String s => generate_code_CompiledString s
  end.

Definition generate_code_CompiledCommand (labels : LabelStore) (script : Script)
    (ccmd : CompiledCommand) : M unit :=
  emplace_u16 (id ccmd) ;;
  for_each (generate_code_ArgVariant labels script) (args ccmd).

(** label definitions do not have a physical representation *)
Definition generate_code_CompiledLabelDef (d : CompiledLabelDef) : M unit := mret tt.

Definition generate_code_CompiledHex (hex : CompiledHex) : M unit :=
  emplace_bytes (length (hex_data hex)) (hex_data hex).

Definition generate_code (labels : LabelStore) (script : Script)
    (d : CompiledData) : M unit :=
  match data d with
  | Data_EOAL => generate_code_EOAL
  | Data_Command cmd => generate_code_CompiledCommand labels script cmd
  | Data_int8 value => generate_code_int8 value
  | Data_int16 value => generate_code_int16 value
  | Data_int32 value => generate_code_int32 value
  | Data_float value => generate_code_float value
  | Data_Label label_ptr => generate_code_Label labels script label_ptr
  | Data_Var v => generate_code_CompiledVar v
  | Data_String s => generate_code_CompiledString s
  | Data_LabelDef d => generate_code_CompiledLabelDef d
  | Data_Hex h => generate_code_CompiledHex h
  end.

(** ** CodeGenerator: one script

    [script], [compiled] and the label store are what the generator works
    on; the buffer part is the [CodeGeneratorBase] it derives from. *)

Record CodeGenerator := {
  base : CodeGeneratorBase;
  script : Script;
  compiled : list CompiledData
}.

(** [label->local_offset = offset] through the shared pointer *)
Definition set_local_offset (p : LabelPtr) (offset : Z) (labels : LabelStore) : LabelStore :=
  <[p := {| label_script := label_script (labels p); local_offset := Some offset |}]> labels.

(** the loop of [compute_labels]; [offset] is a [uint32_t] *)
Fixpoint compute_labels_from (o : Options) (ops : list CompiledData)
    (offset : Z) (labels : LabelStore) : Z * LabelStore :=
  match ops with
  | [] => (offset, labels)
  | op :: rest =>
      match data op with
      | Data_LabelDef d =>
          compute_labels_from o rest offset (set_local_offset (label d) offset labels)
      | _ =>
          compute_labels_from o rest
            (cast_u32 (offset + Z.of_nat (compiled_size op o))) labels
      end
  end.

Definition compute_labels (cg : CodeGenerator) (labels : LabelStore) : Z * LabelStore :=
  compute_labels_from (opt (program (base cg))) (compiled cg) 0%Z labels.

(** [CodeGenerator::generate] *)
Definition CodeGenerator_generate (junk : nat -> Z) (labels : LabelStore)
    (cg : CodeGenerator) : Outcome unit :=
  (sz ← value (script_size (script cg));
   (fun b => Done tt (setup_buffer junk (Z.to_nat sz) b)) ;;
   for_each (generate_code labels (script cg)) (compiled cg)) (base cg).

(** ** The SCM header *)

(** Modelled from the spec: [CompiledScmHeader::Version], the three
    dialects. *)
Inductive Version := Liberty | Miami | SanAndreas.

#[global] Instance Version_eq_dec : EqDecision Version.
Proof. solve_decision. Defined.

(** Modelled from the spec: [CompiledScmHeader] is declared outside
    codegen.hpp ("dialect, size_global_vars_space, model-name list, mission
    and streamed script counts, and the script list"); the fields are the
    ones codegen.hpp reads.  [size_global_vars_space] is a 32-bit unsigned
    quantity (it is written with [emplace_u32]); the counts are [nat]. *)
Record CompiledScmHeader := {
  version : Version;
  size_global_vars_space : Z;
  models : list (list Z);
  scripts : list Script;
  num_missions : nat;
  num_streamed : nat
}.

(** 32-bit unsigned arithmetic *)
Definition u32_add (a b : Z) : Z := cast_u32 (a + b).
Definition u32_sub (a b : Z) : Z := cast_u32 (a - b).

(** [CompiledScmHeader::compiled_size()]; the leading terms are evaluated
    in the type of [size_globals], the rest in [size_t]. *)
Definition CompiledScmHeader_compiled_size (h : CompiledScmHeader) : nat :=
  match version h with
  | Liberty | Miami =>
      let size_globals := size_global_vars_space h in
      Z.to_nat (u32_add (u32_add (u32_add 8 (u32_sub size_globals 8)) 8) 4)
        + (24 * (1 + length (models h)))
        + 8 + 4 + 4 + 2 + 2 + (4 * num_missions h)
  | SanAndreas =>
      let size_globals := size_global_vars_space h in
      Z.to_nat (u32_add (u32_add (u32_add 8 (u32_sub size_globals 8)) 8) 4)
        + (24 * (1 + length (models h)))
        + 8 + 4 + 4 + 2 + 2 + (4 * num_missions h) + 4
        + 8 + 4 + 4 + (28 * (1 + num_streamed h))
        + 8 + 4 + 8 + 4 + 1 + 1 + 2
  end.

(** the lambda [nextseg_id]: the value it returns and its counter afterwards *)
Definition nextseg_id (v : Version) (current_segid : Z) : Z * Z :=
  match v with
  | SanAndreas => (current_segid, u32_add current_segid 1)
  | _ => (0%Z, current_segid)
  end.

(** the lambda [goto_rel] *)
Definition goto_rel (skip_bytes : Z) : M unit :=
  let skip_bytes := cast_i32 skip_bytes in
  here ← get_offset;
  let target := cast_i32 (8 + skip_bytes + Z.of_nat here) in
  emplace_u16 0x0002 ;;
  emplace_u8 1 ;;
  emplace_i32 target.

(** [target_id]: '\0', 'm', 's' *)
Definition target_id (v : Version) : Z :=
  match v with Liberty => 0 | Miami => 109 | SanAndreas => 115 end%Z.

(** what the loop over [header.scripts] accumulates *)
Record ScriptTotals := {
  main_size : Z;
  multifile_size : Z;
  largest_mission_size : Z;
  largest_streamed_size : Z;
  missions : list Script;
  streameds : list Script
}.

Definition scan_script (t : ScriptTotals) (sc : Script) : M ScriptTotals :=
  if decide (script_type sc = Mission) then
    sz ← value (script_size sc);
    mret {| main_size := main_size t;
            multifile_size := u32_add (multifile_size t) sz;
            largest_mission_size :=
              if decide (largest_mission_size t < sz)%Z then sz else largest_mission_size t;
            largest_streamed_size := largest_streamed_size t;
            missions := missions t ++ [sc];
            streameds := streameds t |}
  else if decide (script_type sc = StreamedScript) then
    sz ← value (script_size sc);
    mret {| main_size := main_size t;
            multifile_size := multifile_size t;
            largest_mission_size := largest_mission_size t;
            largest_streamed_size :=
              if decide (largest_streamed_size t < sz)%Z then sz else largest_streamed_size t;
            missions := missions t;
            streameds := streameds t ++ [sc] |}
  else
    sz ← value (script_size sc);
    mret {| main_size := u32_add (main_size t) sz;
            multifile_size := u32_add (multifile_size t) sz;
            largest_mission_size := largest_mission_size t;
            largest_streamed_size := largest_streamed_size t;
            missions := missions t;
            streameds := streameds t |}.

Fixpoint scan_scripts (t : ScriptTotals) (scs : list Script) : M ScriptTotals :=
  match scs with
  | [] => mret t
  | sc :: rest => t' ← scan_script t sc; scan_scripts t' rest
  end.

Definition initial_totals (head_size : Z) : ScriptTotals :=
  {| main_size := head_size; multifile_size := head_size;
     largest_mission_size := 0; largest_streamed_size := 0;
     missions := []; streameds := [] |}.

(** [::toupper] in the C locale, applied to every byte of the name *)
Definition toupper (c : Z) : Z :=
  if decide (97 <= c <= 122)%Z then (c - 32)%Z else c.

(** Variables segment *)
Definition variables_segment (header : CompiledScmHeader) : M unit :=
  let size_globals := size_global_vars_space header in
  goto_rel (u32_sub size_globals 8) ;;
  emplace_i8 (target_id (version header)) ;;
  emplace_fill (Z.to_nat (u32_sub size_globals 8)) 0.

(** Models segment; returns the segment counter of [nextseg_id] *)
Definition models_segment (header : CompiledScmHeader) (segid : Z) : M Z :=
  goto_rel (Z.of_nat (4 + (24 * (1 + length (models header))))) ;;
  let '(sid, segid) := nextseg_id (version header) segid in
  emplace_u8 sid ;;
  emplace_u32 (Z.of_nat (1 + length (models header))) ;;
  emplace_chars 24 [] ;;
  for_each (fun model => emplace_chars 24 model) (models header) ;;
  mret segid.

(** SCM info segment *)
Definition scm_info_segment (header : CompiledScmHeader) (t : ScriptTotals)
    (segid : Z) : M Z :=
  let rel_offset :=
    Z.of_nat (4 + 4 + 2 + 2 + (4 * length (missions t))
              + (if decide (version header = SanAndreas) then 4 else 0)) in
  goto_rel rel_offset ;;
  let '(sid, segid) := nextseg_id (version header) segid in
  emplace_u8 sid ;;
  emplace_u32 (main_size t) ;;
  emplace_u32 (largest_mission_size t) ;;
  emplace_u16 (Z.of_nat (length (missions t))) ;;
  emplace_u16 0 ;;
  (if decide (version header = SanAndreas) then emplace_u32 0 else mret tt) ;;
  for_each (fun script_ptr => off ← value (script_offset script_ptr); emplace_i32 off)
           (missions t) ;;
  mret segid.

(** the loop over [streameds], which carries [virtual_offset] *)
Fixpoint streamed_entries (scs : list Script) (virtual_offset : Z) : M unit :=
  match scs with
  | [] => mret tt
  | script_ptr :: rest =>
      let name := map toupper (path_stem script_ptr) in
      emplace_chars 20 name ;;
      emplace_u32 virtual_offset ;;
      sz ← value (script_size script_ptr);
      emplace_u32 sz ;;
      streamed_entries rest (u32_add virtual_offset sz)
  end.

(** Streamed scripts segment (SanAndreas) *)
Definition streamed_segment (header : CompiledScmHeader) (t : ScriptTotals)
    (segid : Z) : M Z :=
  let virtual_offset := multifile_size t in
  goto_rel (Z.of_nat (4 + 4 + (28 * (1 + length (streameds t))))) ;;
  let '(sid, segid) := nextseg_id (version header) segid in
  emplace_u8 sid ;;
  emplace_u32 (largest_streamed_size t) ;;
  emplace_u32 (Z.of_nat (1 + length (streameds t))) ;;
  streamed_entries (streameds t) virtual_offset ;;
  emplace_chars 20 [65; 65; 65]%Z ;;
  emplace_u32 0 ;;
  emplace_u32 8 ;;
  mret segid.

(** Unknown segment (SanAndreas) *)
Definition unknown_segment (header : CompiledScmHeader) (segid : Z) : M Z :=
  goto_rel 4 ;;
  let '(sid, segid) := nextseg_id (version header) segid in
  emplace_u8 sid ;;
  emplace_u32 0 ;;
  mret segid.

(** Unknown segment 2 (SanAndreas) *)
Definition unknown_segment_2 (header : CompiledScmHeader) (segid : Z) : M Z :=
  let size_globals := size_global_vars_space header in
  goto_rel (4 + 1 + 1 + 2) ;;
  let '(sid, segid) := nextseg_id (version header) segid in
  emplace_u8 sid ;;
  emplace_u32 (u32_sub size_globals 8) ;;
  emplace_u8 62 ;;
  emplace_u8 2 ;;
  emplace_u16 0 ;;
  mret segid.

(** the segments, in the order [generate_code(CompiledScmHeader)] emits
    them, once the loop over the scripts has produced [t] *)
Definition header_segments (header : CompiledScmHeader) (t : ScriptTotals) : M unit :=
  variables_segment header ;;
  segid ← models_segment header 0;
  segid ← scm_info_segment header t segid;
  segid ← (if decide (version header = SanAndreas)
           then streamed_segment header t segid else mret segid);
  segid ← (if decide (version header = SanAndreas)
           then unknown_segment header segid else mret segid);
  if decide (version header = SanAndreas)
  then unknown_segment_2 header segid ;; mret tt
  else mret tt.

(** [generate_code(const CompiledScmHeader&, CodeGeneratorData&)].  The
    opening [assert] on [header.version] holds for each of the three
    dialects and the [Unreachable()] of [target_id] is never reached. *)
Definition generate_code_CompiledScmHeader (header : CompiledScmHeader) : M unit :=
  let head_size := cast_u32 (Z.of_nat (CompiledScmHeader_compiled_size header)) in
  t ← scan_scripts (initial_totals head_size) (scripts header);
  header_segments header t.

(** [CodeGeneratorData]: the header and the buffer it is generated into *)
Record CodeGeneratorData := {
  data_base : CodeGeneratorBase;
  data_compiled : CompiledScmHeader
}.

(** [CodeGeneratorData::generate] *)
Definition CodeGeneratorData_generate (junk : nat -> Z) (cg : CodeGeneratorData) : Outcome unit :=
  generate_code_CompiledScmHeader (data_compiled cg)
    (setup_buffer junk (CompiledScmHeader_compiled_size (data_compiled cg)) (data_base cg)).

(** ** Vocabulary of the statements *)

(** little-endian bytes of the low [8 * n] bits of [v] *)
Fixpoint le_bytes (n : nat) (v : Z) : list Z :=
  match n with
  | 0 => []
  | S n' => (v mod 256)%Z :: le_bytes n' (v / 256)%Z
  end.

(** the state after [bs] has been stored at the cursor and [errs] reported *)
Definition after (cg : CodeGeneratorBase) (bs : list Z) (errs : list string) : CodeGeneratorBase :=
  {| program := {| opt := opt (program cg);
                   diagnostics := diagnostics (program cg) ++ errs |};
     bytecode := take (offset cg) (bytecode cg) ++ bs
                   ++ drop (offset cg + length bs) (bytecode cg);
     offset := offset cg + length bs |}.

(** the bytes between the cursor of [cg] and the cursor of [cg'] *)
Definition emitted (cg cg' : CodeGeneratorBase) : list Z :=
  take (offset cg' - offset cg) (drop (offset cg) (bytecode cg')).

(** [m], run in [cg], completes with [a], having stored exactly [bs] at
    the cursor and reported [errs] *)
Definition emits {A} (m : M A) (cg : CodeGeneratorBase) (a : A)
    (bs : list Z) (errs : list string) : Prop :=
  offset cg + length bs <= max_offset cg /\ m cg = Done a (after cg bs errs).

(** [m], run in [cg], completes with [a] and stores [k] bytes *)
Definition writes {A} (m : M A) (cg : CodeGeneratorBase) (a : A) (k : nat) : Prop :=
  exists bs errs, length bs = k /\ emits m cg a bs errs.

(** whenever [m] completes under options [o], the cursor has moved by [k],
    within the buffer, and nothing in front of the old cursor has changed *)
Definition grows {A} (o : Options) (m : M A) (k : nat) : Prop :=
  forall cg a cg',
    opt (program cg) = o -> m cg = Done a cg' ->
    offset cg' = offset cg + k /\
    max_offset cg' = max_offset cg /\
    opt (program cg') = o /\
    take (offset cg) (bytecode cg') = take (offset cg) (bytecode cg) /\
    (0 < k -> offset cg + k <= max_offset cg).

(** the characters of a C string: what is in front of the first NUL *)
Definition c_string (s : list Z) : list Z := take (strlen s) s.

(** the jump that opens a header segment: GOTO, tag 1, [target] *)
Definition trampoline (target : Z) : list Z :=
  le_bytes 2 0x0002 ++ [1%Z] ++ le_bytes 4 target.

(** *** Well-formed nodes: what the emitters rely on from the earlier passes *)

(** with [use_half_float], a float that is not emitted as a zero must fit
    an [int16_t] once multiplied by 16 *)
Definition wf_float (o : Options) (f : float) : Prop :=
  optimize_zero_floats o && float_is_zero f = false ->
  use_half_float o = true ->
  is_Some (float_to_int16 (float_times_16 f)).

(** the offsets a label reference reads are set, and a mission or streamed
    script refers to its own labels only *)
Definition wf_Label (o : Options) (labels : LabelStore) (script : Script)
    (p : LabelPtr) : Prop :=
  if use_local_offsets o then is_Some (Label_offset (labels p))
  else if bool_decide (script_type (label_script (labels p)) = Mission
                       ∨ script_type (label_script (labels p)) = StreamedScript)
  then same_script (label_script (labels p)) script = true
       /\ is_Some (local_offset (labels p))
  else is_Some (Label_offset (labels p)).

(** an array indexed by a variable has its element count *)
Definition wf_CompiledVar (v : CompiledVar) : Prop :=
  match index v with
  | Some (Index_Var _) => is_Some (var_count (var v))
  | _ => True
  end.

(** the bounds the annotation pass enforces on strings *)
Definition wf_CompiledString (s : CompiledString) : Prop :=
  match string_type s with
  | StrTextLabel8 => length (storage s) <= 8
  | StrTextLabel16 => length (storage s) <= 16
  | StrStringVar => length (storage s) <= 127
  | StrString128 => True
  end.

Definition wf_ArgVariant (o : Options) (labels : LabelStore) (script : Script)
    (a : ArgVariant) : Prop :=
  match a with
  | Arg_float f => wf_float o f
  | Arg_Label p => wf_Label o labels script p
  | Arg_Var v => wf_CompiledVar v
  | Arg_String s => wf_CompiledString s
  | _ => True
  end.

Definition wf_CompiledData (o : Options) (labels : LabelStore) (script : Script)
    (d : CompiledData) : Prop :=
  match data d with
  | Data_Command cmd => Forall (wf_ArgVariant o labels script) (args cmd)
  | Data_float f => wf_float o f
  | Data_Label p => wf_Label o labels script p
  | Data_Var v => wf_CompiledVar v
  | Data_String s => wf_CompiledString s
  | _ => True
  end.

(** *** Script sizes and label definitions *)

(** the bytes a node occupies in its script: a label definition occupies
    none, whatever [compiled_size] says of it *)
Definition emitted_size (o : Options) (op : CompiledData) : nat :=
  match data op with
  | Data_LabelDef _ => 0
  | _ => compiled_size op o
  end.

(** sum of [compiled_size] over the nodes that are not label definitions *)
Definition script_bytes (o : Options) (ops : list CompiledData) : nat :=
  sum_list_with (emitted_size o) ops.

(** the labels defined by a sequence of nodes, in order *)
Fixpoint defined_labels (ops : list CompiledData) : list LabelPtr :=
  match ops with
  | [] => []
  | op :: rest =>
      match data op with
      | Data_LabelDef d => label d :: defined_labels rest
      | _ => defined_labels rest
      end
  end.

(** *** Label references *)

(** the [int32_t] that [generate_code(shared_ptr<Label>)] hands to
    [emplace_local_offset], when the reference is emitted negated and the
    optionals it reads are set *)
Definition negated_offset (o : Options) (labels : LabelStore) (p : LabelPtr) : option Z :=
  if use_local_offsets o then cast_i32 <$> Label_offset (labels p)
  else if bool_decide (script_type (label_script (labels p)) = Mission
                       ∨ script_type (label_script (labels p)) = StreamedScript)
  then cast_i32 <$> local_offset (labels p)
  else None.

(** *** The header *)

(** the bytes between the two cursors open with the jump to the second *)
Definition opens_with_trampoline (cg cg' : CodeGeneratorBase) : Prop :=
  take 7 (emitted cg cg') = trampoline (Z.of_nat (offset cg')).

Definition mission_scripts (h : CompiledScmHeader) : list Script :=
  filter (fun sc => script_type sc = Mission) (scripts h).

Definition streamed_scripts (h : CompiledScmHeader) : list Script :=
  filter (fun sc => script_type sc = StreamedScript) (scripts h).

(** the bytes of each segment: the 7 bytes of the jump, the identifier byte
    and the data *)
Definition variables_segment_bytes (h : CompiledScmHeader) : nat :=
  7 + 1 + Z.to_nat (u32_sub (size_global_vars_space h) 8).
Definition models_segment_bytes (h : CompiledScmHeader) : nat :=
  7 + 1 + 4 + 24 + 24 * length (models h).
Definition scm_info_segment_bytes (h : CompiledScmHeader) (nmissions : nat) : nat :=
  7 + 1 + 4 + 4 + 2 + 2 + (if decide (version h = SanAndreas) then 4 else 0)
    + 4 * nmissions.
Definition streamed_segment_bytes (nstreamed : nat) : nat :=
  7 + 1 + 4 + 4 + 28 * nstreamed + (20 + 4 + 4).
Definition unknown_segment_bytes : nat := 7 + 1 + 4.
Definition unknown_segment_2_bytes : nat := 7 + 1 + 4 + 1 + 1 + 2.

(** the bytes the header emitter stores when it runs to its end *)
Definition header_bytes (h : CompiledScmHeader) : nat :=
  variables_segment_bytes h + models_segment_bytes h
  + scm_info_segment_bytes h (length (mission_scripts h))
  + (if decide (version h = SanAndreas)
     then streamed_segment_bytes (length (streamed_scripts h))
          + unknown_segment_bytes + unknown_segment_2_bytes
     else 0).

(** what the header emitter relies on: the globals space covers the 8
    bytes in front of it and stays clear of the top of the 32-bit range,
    every script has its size, every mission has its offset *)
Definition wf_header (h : CompiledScmHeader) : Prop :=
  (8 <= size_global_vars_space h)%Z /\
  (size_global_vars_space h + 12 < 2 ^ 32)%Z /\
  Forall (fun sc => is_Some (script_size sc)) (scripts h) /\
  Forall (fun sc => is_Some (script_offset sc)) (mission_scripts h).

(** the counts the header carries that [compiled_size] depends on agree
    with the script list *)
Definition counts_agree (h : CompiledScmHeader) : Prop :=
  num_missions h = length (mission_scripts h) /\
  (version h = SanAndreas -> num_streamed h = length (streamed_scripts h)).

(** [seg] is a jump over [n - 7] bytes followed by an emitter of that many
    bytes *)
Definition segment_shape {A} (seg : M A) (n : nat) : Prop :=
  exists skip (rest : M A) k,
    seg = (goto_rel skip ≫= λ _, rest) /\
    (forall o, grows o rest k) /\
    ((8 + skip) mod 2 ^ 32 = (7 + Z.of_nat k) mod 2 ^ 32)%Z /\
    n = 7 + k.


(** the bytes of the mission table and of the streamed table, as the
    header's counters declare them and as the script list has them *)
Definition declared_entries_bytes (h : CompiledScmHeader) : nat :=
  4 * num_missions h
  + (if decide (version h = SanAndreas) then 28 * num_streamed h else 0).
Definition listed_entries_bytes (h : CompiledScmHeader) : nat :=
  4 * length (mission_scripts h)
  + (if decide (version h = SanAndreas) then 28 * length (streamed_scripts h) else 0).

(** *** Sample inputs *)

Definition options_none : Options :=
  {| optimize_zero_floats := false; use_half_float := false;
     use_local_offsets := false; has_text_label_prefix := false |}.

Definition options_compact : Options :=
  {| optimize_zero_floats := true; use_half_float := true;
     use_local_offsets := false; has_text_label_prefix := true |}.

Definition options_local : Options :=
  {| optimize_zero_floats := false; use_half_float := false;
     use_local_offsets := true; has_text_label_prefix := false |}.

(** a buffer of [n] bytes as the allocator left them, cursor at 0 *)
Definition fresh_buffer (o : Options) (n : nat) : CodeGeneratorBase :=
  {| program := {| opt := o; diagnostics := [] |};
     bytecode := replicate n 0xAA%Z;
     offset := 0 |}.

Definition main_script : Script :=
  {| script_addr := 1; path_stem := [109; 97; 105; 110]%Z; script_type := Main;
     script_offset := Some 0x100%Z; script_size := Some 0x40%Z |}.

Definition mission_script : Script :=
  {| script_addr := 2; path_stem := [105; 110; 116; 114; 111]%Z; script_type := Mission;
     script_offset := Some 0x140%Z; script_size := Some 0x20%Z |}.

Definition streamed_script : Script :=
  {| script_addr := 3; path_stem := [98; 97; 114]%Z; script_type := StreamedScript;
     script_offset := None; script_size := Some 0x10%Z |}.

(** a mission the earlier passes have not given an offset *)
Definition unplaced_mission : Script :=
  {| script_addr := 4; path_stem := [120]%Z; script_type := Mission;
     script_offset := None; script_size := Some 0x20%Z |}.

(** label 0 sits at byte 0x10 of the main script, label 1 at the very
    start of the mission, every other label at byte 8 of the mission *)
Definition sample_labels : LabelStore := fun p =>
  match p with
  | 0 => {| label_script := main_script; local_offset := Some 0x10%Z |}
  | 1 => {| label_script := mission_script; local_offset := Some 0%Z |}
  | _ => {| label_script := mission_script; local_offset := Some 8%Z |}
  end.

Definition hello : list Z := [72; 69; 76; 76; 79]%Z.

Definition sample_command : CompiledData :=
  {| data := Data_Command
       {| id := 0x0002;
          args := [Arg_float 0x3F800000%Z; Arg_Label 0;
                   Arg_String {| string_type := StrTextLabel8; storage := hello |};
                   Arg_EOAL] |} |}.

Definition sample_script : CodeGenerator :=
  {| base := fresh_buffer options_none 0;
     script := main_script;
     compiled := [sample_command;
                  {| data := Data_LabelDef {| label := 5 |} |};
                  {| data := Data_LabelDef {| label := 6 |} |};
                  {| data := Data_int8 5 |};
                  {| data := Data_LabelDef {| label := 7 |} |}] |}.

Definition sample_header (v : Version) (scs : list Script)
    (declared_missions declared_streamed : nat) : CompiledScmHeader :=
  {| version := v; size_global_vars_space := 16; models := [hello];
     scripts := scs;
     num_missions := declared_missions; num_streamed := declared_streamed |}.

Definition sample_totals : ScriptTotals :=
  {| main_size := 0x100; multifile_size := 0x120;
     largest_mission_size := 0x20; largest_streamed_size := 0x10;
     missions := [mission_script]; streameds := [streamed_script] |}.

(** *** Runs, whether they complete or stop *)

(** the state a run ends in, completed or not *)
Definition final_state {A} (r : Outcome A) : CodeGeneratorBase :=
  match r with
  | Done _ cg => cg
  | Abort _ cg => cg
  end.

(** [cg'] comes from [cg] by storing between the two cursors only: the
    buffer keeps its size, the cursor has not moved back and is within the
    buffer, the bytes in front of the old cursor and the bytes from the new
    cursor on are the same, the options are the same and the diagnostics
    have only been added to *)
Definition within (cg cg' : CodeGeneratorBase) : Prop :=
  max_offset cg' = max_offset cg /\
  offset cg <= offset cg' <= max_offset cg' /\
  take (offset cg) (bytecode cg') = take (offset cg) (bytecode cg) /\
  drop (offset cg') (bytecode cg') = drop (offset cg') (bytecode cg) /\
  opt (program cg') = opt (program cg) /\
  diagnostics (program cg) `prefix_of` diagnostics (program cg').

(** every run of [m] that starts with the cursor inside the buffer ends
    [within] its starting state *)
Definition keeps_within {A} (m : M A) : Prop :=
  forall cg, offset cg <= max_offset cg -> within cg (final_state (m cg)).

(** *** Reading back what was stored *)

(** the unsigned number a little-endian reader makes of [bs] *)
Fixpoint le_value (bs : list Z) : Z :=
  match bs with
  | [] => 0%Z
  | b :: rest => (b + 256 * le_value rest)%Z
  end.

(** the signed, two's complement number a little-endian reader makes of [bs] *)
Definition le_signed (bs : list Z) : Z :=
  let v := le_value bs in
  let top := (256 ^ Z.of_nat (length bs))%Z in
  if decide (2 * v < top)%Z then v else (v - top)%Z.

(** *** The bytes of a node, as a function *)

(** the byte that packs the element type of an array and whether its
    index variable is global *)
Definition type_packed (t : VarType) (index_global : bool) : Z :=
  (VarType_value t mod 128 + (if index_global then 128 else 0))%Z.

Definition encode_float (o : Options) (f : float) : option (list Z) :=
  if optimize_zero_floats o && float_is_zero f then Some [4; 0]%Z
  else if use_half_float o
       then (fun half => 6%Z :: le_bytes 2 half) <$> float_to_int16 (float_times_16 f)
       else Some (6%Z :: le_bytes 4 f).

(** the bytes of a label reference and what it reports *)
Definition encode_Label (o : Options) (labels : LabelStore) (script : Script)
    (p : LabelPtr) : option (list Z * list string) :=
  let negated (off : Z) :=
    (1%Z :: le_bytes 4 (- off),
     if decide (cast_i32 off = 0%Z) then [zero_offset_message] else []) in
  if use_local_offsets o then negated <$> Label_offset (labels p)
  else if bool_decide (script_type (label_script (labels p)) = Mission
                       ∨ script_type (label_script (labels p)) = StreamedScript)
  then if same_script (label_script (labels p)) script
       then negated <$> local_offset (labels p)
       else None
  else (fun off => (1%Z :: le_bytes 4 off, [])) <$> Label_offset (labels p).

Definition encode_CompiledVar (v : CompiledVar) : option (list Z) :=
  let is_global := global (var v) in
  let address := if is_global then var_offset (var v) else var_index (var v) in
  match index v with
  | None =>
      Some (var_tag (var_type (var v)) is_global (0x2, 0x3)%Z (0xA, 0xB)%Z (0x10, 0x11)%Z
              :: le_bytes 2 address)
  | Some (Index_int32 i) =>
      Some (var_tag (var_type (var v)) is_global (0x2, 0x3)%Z (0xA, 0xB)%Z (0x10, 0x11)%Z
              :: le_bytes 2 (if is_global then var_offset (var v) + i * 4
                             else var_index (var v) + i)%Z)
  | Some (Index_Var indexVar) =>
      (fun count =>
         var_tag (var_type (var v)) is_global (0x7, 0x8)%Z (0xC, 0xD)%Z (0x12, 0x13)%Z
           :: le_bytes 2 address
           ++ le_bytes 2 (if global indexVar then var_offset indexVar
                          else var_index indexVar)
           ++ [(count mod 256)%Z; type_packed (var_type (var v)) (global indexVar)])
      <$> var_count (var v)
  end.

Definition encode_CompiledString (o : Options) (s : CompiledString) : option (list Z) :=
  match string_type s with
  | StrTextLabel8 =>
      if bool_decide (length (storage s) <= 8)
      then Some ((if has_text_label_prefix o then [9%Z] else []) ++ strncpy 8 (storage s))
      else None
  | StrTextLabel16 =>
      if bool_decide (length (storage s) <= 16)
      then Some (0xF%Z :: strncpy 16 (storage s))
      else None
  | StrStringVar =>
      if bool_decide (length (storage s) <= 127)
      then Some (0xE%Z :: Z.of_nat (length (storage s))
                   :: strncpy (length (storage s)) (storage s))
      else None
  | StrString128 => Some (strncpy 128 (storage s))
  end.

Definition encode_ArgVariant (o : Options) (labels : LabelStore) (script : Script)
    (a : ArgVariant) : option (list Z * list string) :=
  match a with
  | Arg_EOAL => Some ([0%Z], [])
  | Arg_int8 v => Some (4%Z :: le_bytes 1 v, [])
  | Arg_int16 v => Some (5%Z :: le_bytes 2 v, [])
  | Arg_int32 v => Some (1%Z :: le_bytes 4 v, [])
  | Arg_float f => (fun bs => (bs, [])) <$> encode_float o f
  | Arg_Label p => encode_Label o labels script p
  | Arg_Var v => (fun bs => (bs, [])) <$> encode_CompiledVar v
  | Arg_String s => (fun bs => (bs, [])) <$> encode_CompiledString o s
  end.

(** one encoding after the other *)
Fixpoint encode_all {A} (enc : A -> option (list Z * list string)) (xs : list A)
    : option (list Z * list string) :=
  match xs with
  | [] => Some ([], [])
  | x :: rest =>
      match enc x, encode_all enc rest with
      | Some (b1, e1), Some (b2, e2) => Some (b1 ++ b2, e1 ++ e2)
      | _, _ => None
      end
  end.

Definition encode (o : Options) (labels : LabelStore) (script : Script)
    (d : CompiledData) : option (list Z * list string) :=
  match data d with
  | Data_EOAL => encode_ArgVariant o labels script Arg_EOAL
  | Data_Command cmd =>
      match encode_all (encode_ArgVariant o labels script) (args cmd) with
      | Some (bs, errs) => Some (le_bytes 2 (id cmd) ++ bs, errs)
      | None => None
      end
  | Data_int8 v => encode_ArgVariant o labels script (Arg_int8 v)
  | Data_int16 v => encode_ArgVariant o labels script (Arg_int16 v)
  | Data_int32 v => encode_ArgVariant o labels script (Arg_int32 v)
  | Data_float f => encode_ArgVariant o labels script (Arg_float f)
  | Data_Label p => encode_ArgVariant o labels script (Arg_Label p)
  | Data_Var v => encode_ArgVariant o labels script (Arg_Var v)
  | Data_String s => encode_ArgVariant o labels script (Arg_String s)
  | Data_LabelDef _ => Some ([], [])
  | Data_Hex h => Some (hex_data h, [])
  end.

(** *** What the loop over the scripts adds up *)

(** the size a script declares, once it is set *)
Definition declared_size (sc : Script) : Z := default 0%Z (script_size sc).

Definition total_size (scs : list Script) : Z :=
  foldr (fun sc acc => declared_size sc + acc)%Z 0%Z scs.

Definition largest_size (scs : list Script) : Z :=
  foldr (fun sc acc => Z.max (declared_size sc) acc) 0%Z scs.

(** the scripts of the main block: neither missions nor streamed *)
Definition is_main_block (sc : Script) : Prop :=
  script_type sc ≠ Mission /\ script_type sc ≠ StreamedScript.

(** one 28-byte entry of the streamed table *)
Definition streamed_entry (sc : Script) (virtual_offset : Z) : list Z :=
  strncpy 20 (map toupper (path_stem sc))
  ++ le_bytes 4 virtual_offset ++ le_bytes 4 (declared_size sc).

(** the table of the streamed scripts, the first at [virtual_offset] *)
Fixpoint streamed_table (scs : list Script) (virtual_offset : Z) : list Z :=
  match scs with
  | [] => []
  | sc :: rest =>
      streamed_entry sc virtual_offset
      ++ streamed_table rest (virtual_offset + declared_size sc)
  end.

(** *** Following the jumps of the header *)

(** the target of the jump stored at [pos], if the seven bytes there are
    the command 0x0002, the tag 0x01 and a 32-bit number *)
Definition read_jump (bc : list Z) (pos : nat) : option nat :=
  let bs := take 7 (drop pos bc) in
  if decide (take 3 bs = [2; 0; 1]%Z /\ length bs = 7)
  then Some (Z.to_nat (le_value (drop 3 bs)))
  else None.

(** the positions a reader visits that starts at [pos] and takes every
    jump it finds, at most [fuel] of them *)
Fixpoint follow_jumps (fuel : nat) (bc : list Z) (pos : nat) : list nat :=
  match fuel with
  | 0 => [pos]
  | S fuel' =>
      match read_jump bc pos with
      | Some next => pos :: follow_jumps fuel' bc next
      | None => [pos]
      end
  end.

(** from [start], the jumps lead forward through [stops], one after the other *)
Fixpoint jump_path (bc : list Z) (start : nat) (stops : list nat) : Prop :=
  match stops with
  | [] => True
  | next :: rest =>
      read_jump bc start = Some next /\ start + 7 <= next /\ jump_path bc next rest
  end.

Definition path_end (start : nat) (stops : list nat) : nat :=
  default start (list.last stops).

(** the sizes of the segments of a header, in the order they are emitted *)
Definition segment_sizes (h : CompiledScmHeader) : list nat :=
  [variables_segment_bytes h; models_segment_bytes h;
   scm_info_segment_bytes h (length (mission_scripts h))]
  ++ (if decide (version h = SanAndreas)
      then [streamed_segment_bytes (length (streamed_scripts h));
            unknown_segment_bytes; unknown_segment_2_bytes]
      else []).

(** where segments of these sizes end when the first starts at [start] *)
Fixpoint boundaries (start : nat) (sizes : list nat) : list nat :=
  match sizes with
  | [] => []
  | n :: rest => (start + n) :: boundaries (start + n) rest
  end.

(** the byte that follows the jump of each segment: [target_id] for the
    variables, then what [nextseg_id] hands out *)
Definition segment_ids (v : Version) : list Z :=
  target_id v :: (if decide (v = SanAndreas) then [0; 1; 2; 3; 4] else [0; 0])%Z.

(** where the segments of a header start in its buffer *)
Definition segment_starts (h : CompiledScmHeader) : list nat :=
  0 :: boundaries 0 (removelast (segment_sizes h)).

(** *** Further sample inputs *)

(** the sample script once [compute_labels] has given it its size, 23 bytes *)
Definition sized_script : CodeGenerator :=
  {| base := fresh_buffer options_none 0;
     script := {| script_addr := 1; path_stem := [109; 97; 105; 110]%Z;
                  script_type := Main; script_offset := Some 0x100%Z;
                  script_size := Some 23%Z |};
     compiled := compiled sample_script |}.

(** a script the earlier passes have not given a size *)
Definition unsized_script : Script :=
  {| script_addr := 5; path_stem := [121]%Z; script_type := Main;
     script_offset := None; script_size := None |}.

(** a local array of 10 integers indexed by a global variable *)
Definition sample_array : CompiledVar :=
  {| var := {| global := false; var_type := Int; var_index := 3;
               var_count := Some 10%Z; var_offset := 0 |};
     index := Some (Index_Var {| global := true; var_type := Int; var_index := 0;
                                 var_count := None; var_offset := 8 |}) |}.

(** *** A float as a number

    The value of a binary32 pattern, read off its sign, exponent and
    fraction fields by arithmetic: value = numerator / denominator. *)

Definition float_sign (f : float) : Z := ((f / 2 ^ 31) mod 2)%Z.
Definition float_exponent (f : float) : Z := ((f / 2 ^ 23) mod 2 ^ 8)%Z.
Definition float_fraction (f : float) : Z := (f mod 2 ^ 23)%Z.

(** the pattern is a number: neither an infinity nor a NaN *)
Definition float_finite (f : float) : Prop := float_exponent f <> 255%Z.

(** value = +/- significand * 2 ^ exponent2; a pattern with exponent field
    0 is a denormal number or a zero and has no hidden bit *)
Definition float_significand (f : float) : Z :=
  if decide (float_exponent f = 0%Z) then float_fraction f
  else (2 ^ 23 + float_fraction f)%Z.

Definition float_exponent2 (f : float) : Z :=
  ((if decide (float_exponent f = 0%Z) then 1 else float_exponent f) - 150)%Z.

Definition float_numerator (f : float) : Z :=
  ((if decide (float_sign f = 1%Z) then -1 else 1)
   * float_significand f * 2 ^ Z.max (float_exponent2 f) 0)%Z.

Definition float_denominator (f : float) : Z :=
  (2 ^ Z.max (- float_exponent2 f) 0)%Z.

(** the value is 0.0, of either sign *)
Definition float_value_is_zero (f : float) : Prop :=
  float_finite f /\ float_numerator f = 0%Z.

(** the [int16_t] of [value * 16.0]: sixteen times the value, cut to an
    integer toward zero, when that integer is an [int16_t] *)
Definition half_float (f : float) : option Z :=
  if decide (float_finite f) then
    let sixteenfold := Z.quot (16 * float_numerator f) (float_denominator f) in
    if decide (- 2 ^ 15 <= sixteenfold < 2 ^ 15)%Z then Some sixteenfold else None
  else None.

(** ** Lists, bytes and the buffer *)

Lemma list_inserts_splice (k l : list Z) (i : nat) :
  i + length k <= length l ->
  list_inserts i k l = take i l ++ k ++ drop (i + length k) l.
Proof.
  intros Hlen. apply list_eq. intros j.
  destruct (decide (j < i)) as [Hlt|Hge].
  - rewrite list_lookup_inserts_lt by lia.
    rewrite lookup_app_l by (rewrite length_take; lia).
    by rewrite lookup_take_lt.
  - rewrite lookup_app_r by (rewrite length_take; lia).
    rewrite length_take, Nat.min_l by lia.
    destruct (decide (j < i + length k)) as [Hin|Hout].
    + rewrite list_lookup_inserts by lia.
      by rewrite lookup_app_l by lia.
    + rewrite list_lookup_inserts_ge by lia.
      rewrite lookup_app_r by lia. rewrite lookup_drop. f_equal. lia.
Qed.

Lemma insert_splice (l : list Z) (i : nat) (x : Z) :
  i + 1 <= length l ->
  <[i := x]> l = take i l ++ [x] ++ drop (i + 1) l.
Proof.
  intros Hlen. rewrite insert_take_drop by lia.
  by replace (i + 1) with (S i) by lia.
Qed.

Lemma length_le_bytes n v : length (le_bytes n v) = n.
Proof. revert v. induction n as [|n IH]; intros v; simpl; [done|]. by rewrite IH. Qed.

Lemma le_bytes_mod n v : le_bytes n (v mod 256 ^ Z.of_nat n) = le_bytes n v.
Proof.
  revert v. induction n as [|n IH]; intros v; [done|].
  cbn [le_bytes].
  replace (256 ^ Z.of_nat (S n))%Z with (256 * 256 ^ Z.of_nat n)%Z
    by (rewrite Nat2Z.inj_succ, Z.pow_succ_r by lia; done).
  assert (0 < 256 ^ Z.of_nat n)%Z by (apply Z.pow_pos_nonneg; lia).
  rewrite Z.rem_mul_r by lia.
  set (q := ((v / 256) mod 256 ^ Z.of_nat n)%Z).
  f_equal.
  - replace (v mod 256 + 256 * q)%Z with (v mod 256 + q * 256)%Z by lia.
    rewrite Z.mod_add by lia. apply Z.mod_mod. lia.
  - replace (v mod 256 + 256 * q)%Z with (q * 256 + v mod 256)%Z by lia.
    rewrite Z.div_add_l by lia.
    rewrite (Z.div_small (v mod 256) 256) by (apply Z.mod_pos_bound; lia).
    rewrite Z.add_0_r. apply IH.
Qed.

Lemma length_strncpy count src : length (strncpy count src) = count.
Proof.
  revert src. induction count as [|c IH]; intros src; [done|].
  destruct src as [|ch rest]; cbn [strncpy].
  - by rewrite length_replicate.
  - destruct (decide (ch = 0%Z)).
    + by rewrite length_replicate.
    + simpl. by rewrite IH.
Qed.

Lemma strlen_le s : strlen s <= length s.
Proof.
  induction s as [|ch rest IH]; simpl; [lia|].
  destruct (decide (ch = 0%Z)); lia.
Qed.

Lemma strlen_nul_free s : Forall (fun c => c <> 0%Z) s -> strlen s = length s.
Proof.
  induction 1 as [|ch rest Hch _ IH]; simpl; [done|].
  destruct (decide (ch = 0%Z)); [done|]. by rewrite IH.
Qed.

Lemma c_string_nul_free s : Forall (fun c => c <> 0%Z) s -> c_string s = s.
Proof.
  intros H. unfold c_string. rewrite strlen_nul_free by done. apply firstn_all.
Qed.

Lemma strncpy_pads count src :
  strlen src <= count ->
  strncpy count src = c_string src ++ replicate (count - strlen src) 0%Z.
Proof.
  unfold c_string. revert src. induction count as [|c IH]; intros src Hlen.
  - destruct src as [|ch rest]; [done|].
    simpl in *. destruct (decide (ch = 0%Z)); [done|lia].
  - destruct src as [|ch rest]; [done|].
    cbn [strncpy strlen] in *. destruct (decide (ch = 0%Z)); [done|].
    simpl. rewrite IH by lia. done.
Qed.

(** ** The state [after] a store *)

Lemma after_nil cg : after cg [] [] = cg.
Proof.
  destruct cg as [[o d] bc off]. unfold after; simpl.
  rewrite app_nil_r, Nat.add_0_r, take_drop. done.
Qed.

Lemma offset_after cg bs errs : offset (after cg bs errs) = offset cg + length bs.
Proof. done. Qed.

Lemma max_offset_after cg bs errs :
  offset cg + length bs <= max_offset cg ->
  max_offset (after cg bs errs) = max_offset cg.
Proof.
  unfold max_offset, after; simpl. intros H.
  rewrite !length_app, length_take, length_drop. lia.
Qed.

Lemma opt_after cg bs errs : opt (program (after cg bs errs)) = opt (program cg).
Proof. done. Qed.

Lemma diagnostics_after cg bs errs :
  diagnostics (program (after cg bs errs)) = diagnostics (program cg) ++ errs.
Proof. done. Qed.

Lemma after_after cg b1 e1 b2 e2 :
  offset cg + length b1 <= max_offset cg ->
  after (after cg b1 e1) b2 e2 = after cg (b1 ++ b2) (e1 ++ e2).
Proof.
  unfold max_offset. intros H. unfold after; simpl.
  rewrite length_app, !Nat.add_assoc. f_equal.
  - by rewrite app_assoc.
  - set (bc := bytecode cg) in *. set (off := offset cg) in *.
    assert (Hlen : length (take off bc) = off) by (rewrite length_take; lia).
    rewrite (app_assoc (take off bc) b1).
    rewrite take_app_length' by (rewrite length_app; lia).
    rewrite drop_app_ge by (rewrite length_app, Hlen; lia).
    rewrite length_app, Hlen.
    replace (off + length b1 + length b2 - (off + length b1)) with (length b2) by lia.
    rewrite drop_drop, <- !app_assoc. done.
Qed.

Lemma emitted_after cg bs errs :
  offset cg + length bs <= max_offset cg ->
  emitted cg (after cg bs errs) = bs.
Proof.
  unfold max_offset, emitted, after; simpl. intros H.
  rewrite drop_app_length' by (rewrite length_take; lia).
  replace (offset cg + length bs - offset cg) with (length bs) by lia.
  by rewrite take_app_length.
Qed.

Lemma take_after cg bs errs :
  offset cg <= max_offset cg ->
  take (offset cg) (bytecode (after cg bs errs)) = take (offset cg) (bytecode cg).
Proof.
  unfold max_offset, after; simpl. intros H.
  by rewrite take_app_length' by (rewrite length_take; lia).
Qed.

(** ** Exact runs: the monad *)

Lemma bind_Done {A B} (m : M A) (f : A -> M B) cg a cg' :
  m cg = Done a cg' -> (m ≫= f) cg = f a cg'.
Proof. intros H. unfold mbind, M_bind, bind. by rewrite H. Qed.

Lemma bind_Abort {A B} (m : M A) (f : A -> M B) cg why cg' :
  m cg = Abort why cg' -> (m ≫= f) cg = Abort why cg'.
Proof. intros H. unfold mbind, M_bind, bind. by rewrite H. Qed.

Lemma bind_inv {A B} (m : M A) (f : A -> M B) cg b cg'' :
  (m ≫= f) cg = Done b cg'' ->
  exists a cg', m cg = Done a cg' /\ f a cg' = Done b cg''.
Proof.
  unfold mbind, M_bind, bind. destruct (m cg) as [a cg'|why cg']; [eauto|done].
Qed.

Lemma emits_ret {A} (a : A) cg : offset cg <= max_offset cg -> emits (mret a) cg a [] [].
Proof. intros H. split; [simpl; lia|]. by rewrite after_nil. Qed.

Lemma emits_bind {A B} (m : M A) (f : A -> M B) cg a b1 e1 b b2 e2 :
  emits m cg a b1 e1 ->
  emits (f a) (after cg b1 e1) b b2 e2 ->
  emits (m ≫= f) cg b (b1 ++ b2) (e1 ++ e2).
Proof.
  intros [Hroom1 Hm] [Hroom2 Hf].
  rewrite offset_after, max_offset_after in Hroom2 by done.
  split; [rewrite length_app; lia|].
  rewrite (bind_Done _ _ _ _ _ Hm), Hf. by rewrite after_after.
Qed.

Lemma writes_bind {A B} (m : M A) (f : A -> M B) cg a b j k :
  writes m cg a j ->
  (forall cg', offset cg' = offset cg + j -> max_offset cg' = max_offset cg ->
               opt (program cg') = opt (program cg) -> writes (f a) cg' b k) ->
  writes (m ≫= f) cg b (j + k).
Proof.
  intros (b1 & e1 & Hlen1 & Hm) Hf.
  destruct (Hf (after cg b1 e1)) as (b2 & e2 & Hlen2 & Hf').
  - rewrite offset_after. lia.
  - apply max_offset_after. apply Hm.
  - done.
  - exists (b1 ++ b2), (e1 ++ e2). split; [rewrite length_app; lia|].
    by eapply emits_bind.
Qed.

Lemma emits_writes {A} (m : M A) cg a bs errs k :
  emits m cg a bs errs -> length bs = k -> writes m cg a k.
Proof. intros H Hk. by exists bs, errs. Qed.

Lemma writes_offset {A} (m : M A) cg a k :
  writes m cg a k ->
  exists cg', m cg = Done a cg' /\ offset cg' = offset cg + k /\
              max_offset cg' = max_offset cg.
Proof.
  intros (bs & errs & Hlen & Hroom & Hm). exists (after cg bs errs).
  split; [done|]. rewrite offset_after, max_offset_after by done. by rewrite Hlen.
Qed.

(** ** Exact runs: the emplacers *)

Lemma emits_emplace_u8 v cg :
  offset cg + 1 <= max_offset cg -> emits (emplace_u8 v) cg tt [cast_u8 v] [].
Proof.
  intros H. split; [done|]. unfold emplace_u8.
  destruct (decide _) as [_|]; [|done]. unfold after. simpl.
  rewrite insert_splice by done. destruct cg as [[o d] bc off]; simpl.
  by rewrite app_nil_r.
Qed.

Lemma emits_emplace_chars count src cg :
  offset cg + count <= max_offset cg ->
  emits (emplace_chars count src) cg tt (strncpy count src) [].
Proof.
  intros H. split; [by rewrite length_strncpy|]. unfold emplace_chars.
  destruct (decide _) as [_|]; [|done]. unfold after. simpl.
  rewrite list_inserts_splice by (rewrite length_strncpy; done).
  rewrite length_strncpy. destruct cg as [[o d] bc off]; simpl.
  by rewrite app_nil_r.
Qed.

Lemma emits_emplace_bytes count bytes cg :
  count <= length bytes ->
  offset cg + count <= max_offset cg ->
  emits (emplace_bytes count bytes) cg tt (take count bytes) [].
Proof.
  intros Hc H.
  assert (Hlen : length (take count bytes) = count) by (rewrite length_take; lia).
  split; [by rewrite Hlen|]. unfold emplace_bytes.
  destruct (decide _) as [_|]; [|done]. unfold after. simpl.
  rewrite list_inserts_splice by (rewrite Hlen; done).
  rewrite Hlen. destruct cg as [[o d] bc off]; simpl.
  by rewrite app_nil_r.
Qed.

Lemma emits_emplace_fill count val cg :
  offset cg + count <= max_offset cg ->
  emits (emplace_fill count val) cg tt (replicate count (cast_u8 val)) [].
Proof.
  intros H. split; [by rewrite length_replicate|]. unfold emplace_fill.
  destruct (decide _) as [_|]; [|done]. unfold after. simpl.
  rewrite list_inserts_splice by (rewrite length_replicate; done).
  rewrite length_replicate. destruct cg as [[o d] bc off]; simpl.
  by rewrite app_nil_r.
Qed.

Lemma emits_program_error msg cg :
  offset cg <= max_offset cg -> emits (program_error msg) cg tt [] [msg].
Proof.
  intros H. split; [simpl; lia|]. unfold program_error, after. simpl.
  by rewrite Nat.add_0_r, take_drop.
Qed.

Lemma emits_eq {A} (m : M A) cg a bs errs bs' errs' :
  emits m cg a bs errs -> bs = bs' -> errs = errs' -> emits m cg a bs' errs'.
Proof. by intros H <- <-. Qed.

Lemma emits_bind_state {A B} (m : M A) (f : A -> M B) cg a b1 e1 b b2 e2 :
  emits m cg a b1 e1 ->
  (forall cg1, offset cg1 = offset cg + length b1 ->
               max_offset cg1 = max_offset cg ->
               opt (program cg1) = opt (program cg) ->
               emits (f a) cg1 b b2 e2) ->
  emits (m ≫= f) cg b (b1 ++ b2) (e1 ++ e2).
Proof.
  intros Hm Hf. eapply emits_bind; [done|]. apply Hf.
  - apply offset_after.
  - apply max_offset_after, Hm.
  - done.
Qed.

(** *** Bytes of the shifts and masks *)

Lemma low_byte x : cast_u8 (Z.shiftr (Z.land x 0xFF) 0) = (x mod 256)%Z.
Proof.
  unfold cast_u8. rewrite Z.shiftr_0_r.
  change 0xFF%Z with (Z.ones 8). rewrite Z.land_ones by lia.
  change (2 ^ 8)%Z with 256%Z. apply Z.mod_mod. lia.
Qed.

Lemma shifted_byte x k :
  (0 <= k)%Z ->
  cast_u8 (Z.shiftr (Z.land x (Z.shiftl 0xFF k)) k) = ((x / 2 ^ k) mod 256)%Z.
Proof.
  intros Hk. unfold cast_u8.
  rewrite Z.shiftr_land, Z.shiftr_shiftl_l, Z.sub_diag, Z.shiftl_0_r by lia.
  change 0xFF%Z with (Z.ones 8). rewrite Z.land_ones by lia.
  rewrite Z.shiftr_div_pow2 by lia.
  change (2 ^ 8)%Z with 256%Z. apply Z.mod_mod. lia.
Qed.

Lemma le_bytes_2 x :
  le_bytes 2 x = [(x mod 256)%Z; ((x / 2 ^ 8) mod 256)%Z].
Proof. done. Qed.

Lemma le_bytes_4 x :
  le_bytes 4 x = [(x mod 256)%Z; ((x / 2 ^ 8) mod 256)%Z;
                  ((x / 2 ^ 16) mod 256)%Z; ((x / 2 ^ 24) mod 256)%Z].
Proof.
  cbn [le_bytes]. change (2 ^ 8)%Z with 256%Z.
  rewrite !Z.div_div by lia. done.
Qed.

Lemma le_bytes_cast_u8 v : le_bytes 1 (cast_u8 v) = le_bytes 1 v.
Proof. apply (le_bytes_mod 1). Qed.

Lemma le_bytes_cast_u16 v : le_bytes 2 (cast_u16 v) = le_bytes 2 v.
Proof. apply (le_bytes_mod 2). Qed.

Lemma le_bytes_cast_u32 v : le_bytes 4 (cast_u32 v) = le_bytes 4 v.
Proof. apply (le_bytes_mod 4). Qed.

Lemma mod_of_signed v n :
  (0 < n)%Z -> (((v + n) mod (2 * n) - n) mod (2 * n) = v mod (2 * n))%Z.
Proof.
  intros Hn. rewrite Zminus_mod_idemp_l. f_equal. lia.
Qed.

Lemma le_bytes_cast_i8 v : le_bytes 1 (cast_i8 v) = le_bytes 1 v.
Proof.
  rewrite <- (le_bytes_mod 1 (cast_i8 v)), <- (le_bytes_mod 1 v). f_equal.
  apply (mod_of_signed v (2 ^ 7)). lia.
Qed.

Lemma le_bytes_cast_i16 v : le_bytes 2 (cast_i16 v) = le_bytes 2 v.
Proof.
  rewrite <- (le_bytes_mod 2 (cast_i16 v)), <- (le_bytes_mod 2 v). f_equal.
  apply (mod_of_signed v (2 ^ 15)). lia.
Qed.

Lemma le_bytes_cast_i32 v : le_bytes 4 (cast_i32 v) = le_bytes 4 v.
Proof.
  rewrite <- (le_bytes_mod 4 (cast_i32 v)), <- (le_bytes_mod 4 v). f_equal.
  apply (mod_of_signed v (2 ^ 31)). lia.
Qed.

Lemma cast_u8_le v : [cast_u8 v] = le_bytes 1 v.
Proof. done. Qed.

(** *** Multi-byte emplacers *)

Lemma emits_emplace_u16 v cg :
  offset cg + 2 <= max_offset cg -> emits (emplace_u16 v) cg tt (le_bytes 2 v) [].
Proof.
  intros H. unfold emplace_u16.
  eapply emits_eq.
  - eapply emits_bind_state; [apply emits_emplace_u8; lia|].
    intros cg1 Ho Hm _. apply emits_emplace_u8. simpl in Ho. lia.
  - rewrite low_byte. change 0xFF00%Z with (Z.shiftl 0xFF 8).
    rewrite shifted_byte by lia. rewrite <- (le_bytes_cast_u16 v). done.
  - done.
Qed.

Lemma emits_emplace_u32 v cg :
  offset cg + 4 <= max_offset cg -> emits (emplace_u32 v) cg tt (le_bytes 4 v) [].
Proof.
  intros H. unfold emplace_u32.
  eapply emits_eq.
  - eapply emits_bind_state; [apply emits_emplace_u8; lia|].
    intros cg1 Ho1 Hm1 _. simpl in Ho1.
    eapply emits_bind_state; [apply emits_emplace_u8; lia|].
    intros cg2 Ho2 Hm2 _. simpl in Ho2.
    eapply emits_bind_state; [apply emits_emplace_u8; lia|].
    intros cg3 Ho3 Hm3 _. simpl in Ho3.
    apply emits_emplace_u8. lia.
  - rewrite low_byte.
    change 0x0000FF00%Z with (Z.shiftl 0xFF 8).
    change 0x00FF0000%Z with (Z.shiftl 0xFF 16).
    change 0xFF000000%Z with (Z.shiftl 0xFF 24).
    rewrite !shifted_byte by lia.
    rewrite <- (le_bytes_cast_u32 v), le_bytes_4. done.
  - done.
Qed.

Lemma emits_emplace_i8 v cg :
  offset cg + 1 <= max_offset cg -> emits (emplace_i8 v) cg tt (le_bytes 1 v) [].
Proof.
  intros H. unfold emplace_i8. eapply emits_eq; [by apply emits_emplace_u8| |done].
  by rewrite cast_u8_le, !le_bytes_cast_u8, le_bytes_cast_i8.
Qed.

Lemma emits_emplace_i16 v cg :
  offset cg + 2 <= max_offset cg -> emits (emplace_i16 v) cg tt (le_bytes 2 v) [].
Proof.
  intros H. unfold emplace_i16. eapply emits_eq; [by apply emits_emplace_u16| |done].
  by rewrite le_bytes_cast_u16, le_bytes_cast_i16.
Qed.

Lemma emits_emplace_i32 v cg :
  offset cg + 4 <= max_offset cg -> emits (emplace_i32 v) cg tt (le_bytes 4 v) [].
Proof.
  intros H. unfold emplace_i32. eapply emits_eq; [by apply emits_emplace_u32| |done].
  by rewrite le_bytes_cast_u32, le_bytes_cast_i32.
Qed.

(** ** Completed runs: how far the cursor moves *)

Lemma take_list_inserts (k l : list Z) (i n : nat) :
  n <= i -> take n (list_inserts i k l) = take n l.
Proof.
  revert i. induction k as [|y k IH]; intros i Hn; [done|].
  simpl. rewrite take_insert_ge by done. apply IH. lia.
Qed.

Lemma take_prefix (l : list Z) (n m : nat) : n <= m -> take n (take m l) = take n l.
Proof. intros H. by rewrite take_take, Nat.min_l. Qed.

Lemma grows_ret {A} o (a : A) : grows o (mret a) 0.
Proof.
  intros cg a' cg' Ho H. injection H as <- <-. repeat split; auto; lia.
Qed.

Lemma grows_throw {A} o why k : grows o (@throw A why) k.
Proof. intros cg a cg' _ H. discriminate H. Qed.

Lemma grows_bind {A B} o (m : M A) (f : A -> M B) j k :
  grows o m j -> (forall a, grows o (f a) k) -> grows o (m ≫= f) (j + k).
Proof.
  intros Hm Hf cg b cg'' Ho H.
  apply bind_inv in H as (a & cg' & H1 & H2).
  destruct (Hm _ _ _ Ho H1) as (Hoff1 & Hmax1 & Ho1 & Hfr1 & Hroom1).
  destruct (Hf a _ _ _ Ho1 H2) as (Hoff2 & Hmax2 & Ho2 & Hfr2 & Hroom2).
  repeat split.
  - lia.
  - congruence.
  - done.
  - rewrite <- Hfr1.
    rewrite <- (take_prefix (bytecode cg'') (offset cg) (offset cg')) by lia.
    rewrite Hfr2. apply take_prefix. lia.
  - intros Hjk. destruct (decide (0 < k)) as [Hk|Hk].
    + specialize (Hroom2 Hk). lia.
    + assert (k = 0) by lia. subst k. specialize (Hroom1 ltac:(lia)). lia.
Qed.

Lemma grows_weaken {A} o (m : M A) j k : grows o m j -> j = k -> grows o m k.
Proof. by intros H <-. Qed.

Lemma grows_get_opt {B} o (f : Options -> M B) k :
  grows o (f o) k -> grows o (get_opt ≫= f) k.
Proof.
  intros Hf cg b cg' Ho H. apply (Hf cg b cg' Ho).
  rewrite <- Ho. exact H.
Qed.

Lemma grows_get_offset {B} o (f : nat -> M B) k :
  (forall n, grows o (f n) k) -> grows o (get_offset ≫= f) k.
Proof. intros Hf cg b cg' Ho H. apply (Hf (offset cg) cg b cg' Ho). exact H. Qed.

Lemma grows_value {A} o (x : option A) : grows o (value x) 0.
Proof. destruct x; [apply grows_ret|apply grows_throw]. Qed.

Lemma grows_assert o b : grows o (assert b) 0.
Proof. destruct b; [apply grows_ret|apply grows_throw]. Qed.

Lemma grows_Expects o b : grows o (Expects b) 0.
Proof. destruct b; [apply grows_ret|apply grows_throw]. Qed.

Lemma grows_program_error o msg : grows o (program_error msg) 0.
Proof.
  intros cg a cg' Ho H. injection H as _ <-. simpl. repeat split; auto; lia.
Qed.

Lemma grows_emplace_u8 o v : grows o (emplace_u8 v) 1.
Proof.
  intros cg a cg' Ho H. unfold emplace_u8 in H.
  destruct (decide _) as [Hroom|]; [|done]. injection H as _ <-.
  unfold max_offset in *. simpl. rewrite length_insert, take_insert_ge by done.
  repeat split; auto.
Qed.

Lemma grows_emplace_chars o count src : grows o (emplace_chars count src) count.
Proof.
  intros cg a cg' Ho H. unfold emplace_chars in H.
  destruct (decide _) as [Hroom|]; [|done]. injection H as _ <-.
  unfold max_offset in *. simpl. rewrite length_inserts, take_list_inserts by done.
  repeat split; auto.
Qed.

Lemma grows_emplace_bytes o count bytes : grows o (emplace_bytes count bytes) count.
Proof.
  intros cg a cg' Ho H. unfold emplace_bytes in H.
  destruct (decide _) as [Hroom|]; [|done]. injection H as _ <-.
  unfold max_offset in *. simpl. rewrite length_inserts, take_list_inserts by done.
  repeat split; auto.
Qed.

Lemma grows_emplace_fill o count val : grows o (emplace_fill count val) count.
Proof.
  intros cg a cg' Ho H. unfold emplace_fill in H.
  destruct (decide _) as [Hroom|]; [|done]. injection H as _ <-.
  unfold max_offset in *. simpl. rewrite length_inserts, take_list_inserts by done.
  repeat split; auto.
Qed.

Lemma grows_emplace_u16 o v : grows o (emplace_u16 v) 2.
Proof.
  unfold emplace_u16. apply (grows_bind o _ _ 1 1); [|intros _]; apply grows_emplace_u8.
Qed.

Lemma grows_emplace_u32 o v : grows o (emplace_u32 v) 4.
Proof.
  unfold emplace_u32.
  apply (grows_bind o _ _ 1 3); [apply grows_emplace_u8|intros _].
  apply (grows_bind o _ _ 1 2); [apply grows_emplace_u8|intros _].
  apply (grows_bind o _ _ 1 1); [|intros _]; apply grows_emplace_u8.
Qed.

Lemma grows_emplace_i8 o v : grows o (emplace_i8 v) 1.
Proof. apply grows_emplace_u8. Qed.

Lemma grows_emplace_i16 o v : grows o (emplace_i16 v) 2.
Proof. apply grows_emplace_u16. Qed.

Lemma grows_emplace_i32 o v : grows o (emplace_i32 v) 4.
Proof. apply grows_emplace_u32. Qed.

Lemma grows_for_each {A} o (body : A -> M unit) (size : A -> nat) xs :
  (forall x, grows o (body x) (size x)) ->
  grows o (for_each body xs) (sum_list_with size xs).
Proof.
  intros Hbody. induction xs as [|x rest IH]; simpl.
  - apply grows_ret.
  - apply grows_bind; [apply Hbody|intros _; apply IH].
Qed.

Create HintDb grows discriminated.
#[global] Hint Resolve grows_ret grows_throw grows_value grows_assert grows_Expects
  grows_program_error grows_emplace_u8 grows_emplace_u16 grows_emplace_u32
  grows_emplace_i8 grows_emplace_i16 grows_emplace_i32 grows_emplace_chars
  grows_emplace_bytes grows_emplace_fill : grows.

(** one step of a sequence: the head moves the cursor by [j] *)
Ltac grows_step j k :=
  apply (grows_bind _ _ _ j k); [auto with grows|intros ?].

(** ** Completed runs of the node emitters *)

Section NodeEmitters.
  Context (o : Options) (labels : LabelStore) (script : Script).

Lemma grows_generate_code_EOAL : grows o generate_code_EOAL compiled_size_EOAL.
Proof. apply grows_emplace_u8. Qed.

Lemma grows_generate_code_int8 v : grows o (generate_code_int8 v) compiled_size_int8.
Proof. unfold generate_code_int8. grows_step 1 1. auto with grows. Qed.

Lemma grows_generate_code_int16 v : grows o (generate_code_int16 v) compiled_size_int16.
Proof. unfold generate_code_int16. grows_step 1 2. auto with grows. Qed.

Lemma grows_generate_code_int32 v : grows o (generate_code_int32 v) compiled_size_int32.
Proof. unfold generate_code_int32. grows_step 1 4. auto with grows. Qed.

Lemma grows_generate_code_float f :
  grows o (generate_code_float f) (compiled_size_float f o).
Proof.
  unfold generate_code_float, compiled_size_float. apply grows_get_opt.
  destruct (optimize_zero_floats o && float_is_zero f).
  - apply grows_generate_code_int8.
  - destruct (use_half_float o).
    + grows_step 1 2. destruct (float_to_int16 _); auto with grows.
    + grows_step 1 4. auto with grows.
Qed.

Lemma grows_emplace_local_offset off : grows o (emplace_local_offset off) 4.
Proof.
  unfold emplace_local_offset. apply (grows_bind o _ _ 0 4).
  - destruct (decide _); auto with grows.
  - intros _. auto with grows.
Qed.

Lemma grows_generate_code_Label p :
  grows o (generate_code_Label labels script p) compiled_size_Label.
Proof.
  unfold generate_code_Label. grows_step 1 4. apply grows_get_opt.
  destruct (use_local_offsets o).
  - apply (grows_bind o _ _ 0 4); [auto with grows|intros ?].
    apply grows_emplace_local_offset.
  - destruct (bool_decide _).
    + apply (grows_bind o _ _ 0 4); [auto with grows|intros ?].
      apply (grows_bind o _ _ 0 4); [auto with grows|intros ?].
      apply grows_emplace_local_offset.
    + apply (grows_bind o _ _ 0 4); [auto with grows|intros ?].
      auto with grows.
Qed.

Lemma grows_generate_code_CompiledString s :
  grows o (generate_code_CompiledString s) (compiled_size_CompiledString s o).
Proof.
  unfold generate_code_CompiledString, compiled_size_CompiledString.
  destruct (string_type s).
  - apply (grows_bind o _ _ 0); [auto with grows|intros ?].
    apply grows_get_opt. destruct (has_text_label_prefix o).
    + grows_step 1 8. auto with grows.
    + apply (grows_bind o _ _ 0 8); auto with grows.
  - apply (grows_bind o _ _ 0 (1 + 16)); [auto with grows|intros ?].
    grows_step 1 16. auto with grows.
  - apply (grows_bind o _ _ 0 (1 + 1 + _)); [auto with grows|intros ?].
    rewrite <- Nat.add_assoc. grows_step 1 (1 + length (storage s)).
    grows_step 1 (length (storage s)). auto with grows.
  - auto with grows.
Qed.

Lemma grows_generate_code_CompiledVar v :
  grows o (generate_code_CompiledVar v) (compiled_size_CompiledVar v).
Proof.
  unfold generate_code_CompiledVar, compiled_size_CompiledVar.
  destruct (index v) as [[i|indexVar]|].
  - grows_step 1 2. auto with grows.
  - apply (grows_weaken o _ (1 + (2 + (2 + (0 + (1 + 1)))))); [|done].
    grows_step 1 (2 + (2 + (0 + (1 + 1)))).
    grows_step 2 (2 + (0 + (1 + 1))).
    grows_step 2 (0 + (1 + 1)).
    grows_step 0 (1 + 1).
    grows_step 1 1. auto with grows.
  - grows_step 1 2. auto with grows.
Qed.

Lemma grows_generate_code_ArgVariant a :
  grows o (generate_code_ArgVariant labels script a) (compiled_size_ArgVariant a o).
Proof.
  destruct a; simpl.
  - apply grows_generate_code_EOAL.
  - apply grows_generate_code_int8.
  - apply grows_generate_code_int16.
  - apply grows_generate_code_int32.
  - apply grows_generate_code_float.
  - apply grows_generate_code_Label.
  - apply grows_generate_code_CompiledVar.
  - apply grows_generate_code_CompiledString.
Qed.

Lemma fold_left_sizes {A} (size : A -> nat) xs n :
  fold_left (fun acc a => acc + size a) xs n = n + sum_list_with size xs.
Proof.
  revert n. induction xs as [|x rest IH]; intros n; simpl; [lia|].
  rewrite IH. lia.
Qed.

Lemma compiled_size_CompiledCommand_sum cmd :
  compiled_size_CompiledCommand cmd o
  = 2 + sum_list_with (fun a => compiled_size_ArgVariant a o) (args cmd).
Proof. apply fold_left_sizes. Qed.

Lemma grows_generate_code_CompiledCommand cmd :
  grows o (generate_code_CompiledCommand labels script cmd)
          (compiled_size_CompiledCommand cmd o).
Proof.
  rewrite compiled_size_CompiledCommand_sum. unfold generate_code_CompiledCommand.
  apply grows_bind; [auto with grows|intros _].
  apply grows_for_each. intros a. apply grows_generate_code_ArgVariant.
Qed.

Lemma grows_generate_code d :
  grows o (generate_code labels script d) (compiled_size d o).
Proof.
  unfold generate_code, compiled_size. destruct (data d).
  - apply grows_generate_code_EOAL.
  - apply grows_generate_code_CompiledCommand.
  - apply grows_generate_code_int8.
  - apply grows_generate_code_int16.
  - apply grows_generate_code_int32.
  - apply grows_generate_code_float.
  - apply grows_generate_code_Label.
  - apply grows_generate_code_CompiledVar.
  - apply grows_generate_code_CompiledString.
  - apply grows_ret.
  - apply grows_emplace_bytes.
Qed.

End NodeEmitters.

(** ** Runs that complete: well-formed nodes with room in the buffer *)

Lemma writes_ret {A} (a : A) cg : offset cg <= max_offset cg -> writes (mret a) cg a 0.
Proof. intros H. eapply emits_writes; [by apply emits_ret|done]. Qed.

Lemma writes_emplace_u8 v cg :
  offset cg + 1 <= max_offset cg -> writes (emplace_u8 v) cg tt 1.
Proof. intros H. eapply emits_writes; [by apply emits_emplace_u8|done]. Qed.

Lemma writes_emplace_u16 v cg :
  offset cg + 2 <= max_offset cg -> writes (emplace_u16 v) cg tt 2.
Proof. intros H. eapply emits_writes; [by apply emits_emplace_u16|done]. Qed.

Lemma writes_emplace_u32 v cg :
  offset cg + 4 <= max_offset cg -> writes (emplace_u32 v) cg tt 4.
Proof. intros H. eapply emits_writes; [by apply emits_emplace_u32|done]. Qed.

Lemma writes_emplace_i8 v cg :
  offset cg + 1 <= max_offset cg -> writes (emplace_i8 v) cg tt 1.
Proof. intros H. eapply emits_writes; [by apply emits_emplace_i8|done]. Qed.

Lemma writes_emplace_i16 v cg :
  offset cg + 2 <= max_offset cg -> writes (emplace_i16 v) cg tt 2.
Proof. intros H. eapply emits_writes; [by apply emits_emplace_i16|done]. Qed.

Lemma writes_emplace_i32 v cg :
  offset cg + 4 <= max_offset cg -> writes (emplace_i32 v) cg tt 4.
Proof. intros H. eapply emits_writes; [by apply emits_emplace_i32|done]. Qed.

Lemma writes_emplace_chars count src cg :
  offset cg + count <= max_offset cg -> writes (emplace_chars count src) cg tt count.
Proof.
  intros H. eapply emits_writes; [by apply emits_emplace_chars|apply length_strncpy].
Qed.

Lemma writes_emplace_bytes bytes cg :
  offset cg + length bytes <= max_offset cg ->
  writes (emplace_bytes (length bytes) bytes) cg tt (length bytes).
Proof.
  intros H. eapply emits_writes; [by apply emits_emplace_bytes|].
  by rewrite firstn_all.
Qed.

Lemma writes_emplace_fill count val cg :
  offset cg + count <= max_offset cg -> writes (emplace_fill count val) cg tt count.
Proof.
  intros H. eapply emits_writes; [by apply emits_emplace_fill|apply length_replicate].
Qed.

Lemma writes_program_error msg cg :
  offset cg <= max_offset cg -> writes (program_error msg) cg tt 0.
Proof. intros H. eapply emits_writes; [by apply emits_program_error|done]. Qed.

Lemma writes_weaken {A} (m : M A) cg a j k : writes m cg a j -> j = k -> writes m cg a k.
Proof. by intros H <-. Qed.

Lemma writes_for_each {A} (body : A -> M unit) (size : A -> nat) xs cg :
  (forall x cg', x ∈ xs -> max_offset cg' = max_offset cg ->
                 opt (program cg') = opt (program cg) ->
                 offset cg' + size x <= max_offset cg' ->
                 writes (body x) cg' tt (size x)) ->
  offset cg + sum_list_with size xs <= max_offset cg ->
  writes (for_each body xs) cg tt (sum_list_with size xs).
Proof.
  revert cg. induction xs as [|x rest IH]; intros cg Hbody Hroom; simpl in *.
  - apply writes_ret. lia.
  - eapply writes_bind.
    + apply Hbody; [left|done|done|lia].
    + intros cg1 Hoff Hmax Hopt. apply IH; [|lia].
      intros y cg' Hy Hmax' Hopt' Hroom'. apply Hbody; [by right|congruence..|done].
Qed.

(** one step of a sequence whose head stores [j] bytes *)
Ltac writes_step j k lem :=
  eapply (writes_bind _ _ _ _ _ j k);
  [apply lem; lia|intros ? ? ? ?].

Lemma writes_generate_code_int8 v cg :
  offset cg + 2 <= max_offset cg -> writes (generate_code_int8 v) cg tt 2.
Proof.
  intros H. unfold generate_code_int8.
  writes_step 1 1 writes_emplace_u8. apply writes_emplace_i8. lia.
Qed.

Lemma writes_generate_code_float f cg :
  wf_float (opt (program cg)) f ->
  offset cg + compiled_size_float f (opt (program cg)) <= max_offset cg ->
  writes (generate_code_float f) cg tt (compiled_size_float f (opt (program cg))).
Proof.
  unfold wf_float, compiled_size_float. intros Hwf Hroom.
  change (writes (generate_code_float f) cg tt) with
    (writes (if optimize_zero_floats (opt (program cg)) && float_is_zero f
             then generate_code_int8 0
             else if use_half_float (opt (program cg))
                  then emplace_u8 6 ;;
                       match float_to_int16 (float_times_16 f) with
                       | Some half => emplace_i16 half
                       | None => throw UndefinedConversion
                       end
                  else emplace_u8 6 ;; emplace_u32 f) cg tt).
  destruct (optimize_zero_floats _ && float_is_zero f).
  - by apply writes_generate_code_int8.
  - destruct (use_half_float _).
    + destruct Hwf as [half ->]; [done..|].
      writes_step 1 2 writes_emplace_u8. apply writes_emplace_i16. lia.
    + writes_step 1 4 writes_emplace_u8. apply writes_emplace_u32. lia.
Qed.

Lemma writes_emplace_local_offset off cg :
  offset cg + 4 <= max_offset cg -> writes (emplace_local_offset off) cg tt 4.
Proof.
  intros H. unfold emplace_local_offset. eapply (writes_bind _ _ _ _ _ 0 4).
  - destruct (decide _); [apply writes_program_error|apply writes_ret]; lia.
  - intros cg1 ? ? ?. apply writes_emplace_i32. lia.
Qed.

Lemma writes_generate_code_Label labels script p cg :
  wf_Label (opt (program cg)) labels script p ->
  offset cg + 5 <= max_offset cg ->
  writes (generate_code_Label labels script p) cg tt 5.
Proof.
  unfold wf_Label, generate_code_Label. intros Hwf Hroom.
  writes_step 1 4 writes_emplace_u8.
  match goal with H : opt _ = opt _ |- _ => rename H into Hopt end.
  rewrite <- Hopt in Hwf.
  match goal with |- writes _ ?c _ _ => set (cg1 := c) in * end.
  change (writes ?m cg1 tt 4) with
    (writes (if use_local_offsets (opt (program cg1)) then
               off ← value (Label_offset (labels p));
               emplace_local_offset (cast_i32 off)
             else if bool_decide (script_type (label_script (labels p)) = Mission
                                  ∨ script_type (label_script (labels p)) = StreamedScript)
             then assert (same_script (label_script (labels p)) script) ;;
                  lo ← value (local_offset (labels p));
                  emplace_local_offset (cast_i32 lo)
             else off ← value (Label_offset (labels p)); emplace_i32 off) cg1 tt 4).
  destruct (use_local_offsets _).
  - destruct Hwf as [off ->]. apply writes_emplace_local_offset. lia.
  - destruct (bool_decide _).
    + destruct Hwf as [-> [lo ->]]. apply writes_emplace_local_offset. lia.
    + destruct Hwf as [off ->]. apply writes_emplace_i32. lia.
Qed.

Lemma writes_generate_code_CompiledString s cg :
  wf_CompiledString s ->
  offset cg + compiled_size_CompiledString s (opt (program cg)) <= max_offset cg ->
  writes (generate_code_CompiledString s) cg tt
         (compiled_size_CompiledString s (opt (program cg))).
Proof.
  unfold wf_CompiledString, generate_code_CompiledString, compiled_size_CompiledString.
  intros Hwf Hroom. destruct (string_type s).
  - rewrite bool_decide_eq_true_2 by done.
    change (writes ?m cg tt ?k) with
      (writes ((if has_text_label_prefix (opt (program cg))
                then emplace_u8 9 else mret tt) ;;
               emplace_chars 8 (storage s)) cg tt k).
    destruct (has_text_label_prefix _).
    + writes_step 1 8 writes_emplace_u8. apply writes_emplace_chars. lia.
    + eapply (writes_bind _ _ _ _ _ 0 8); [apply writes_ret; lia|intros ? ? ? ?].
      apply writes_emplace_chars. lia.
  - rewrite bool_decide_eq_true_2 by done.
    change (writes ?m cg tt ?k) with
      (writes (emplace_u8 0xF ;; emplace_chars 16 (storage s)) cg tt k).
    writes_step 1 16 writes_emplace_u8. apply writes_emplace_chars. lia.
  - rewrite bool_decide_eq_true_2 by done.
    change (writes ?m cg tt ?k) with
      (writes (emplace_u8 0xE ;;
               emplace_u8 (Z.of_nat (length (storage s))) ;;
               emplace_chars (length (storage s)) (storage s)) cg tt k).
    rewrite <- Nat.add_assoc.
    writes_step 1 (1 + length (storage s)) writes_emplace_u8.
    writes_step 1 (length (storage s)) writes_emplace_u8.
    apply writes_emplace_chars. lia.
  - by apply writes_emplace_chars.
Qed.

Lemma writes_generate_code_CompiledVar v cg :
  wf_CompiledVar v ->
  offset cg + compiled_size_CompiledVar v <= max_offset cg ->
  writes (generate_code_CompiledVar v) cg tt (compiled_size_CompiledVar v).
Proof.
  unfold wf_CompiledVar, generate_code_CompiledVar, compiled_size_CompiledVar.
  intros Hwf Hroom. destruct (index v) as [[i|indexVar]|].
  - writes_step 1 2 writes_emplace_u8. apply writes_emplace_u16. lia.
  - destruct Hwf as [count ->].
    apply (writes_weaken _ _ _ (1 + (2 + (2 + (1 + 1))))); [|done].
    writes_step 1 (2 + (2 + (1 + 1))) writes_emplace_u8.
    writes_step 2 (2 + (1 + 1)) writes_emplace_u16.
    writes_step 2 (1 + 1) writes_emplace_u16.
    match goal with |- writes _ ?c _ _ => set (cg3 := c) in * end.
    change (writes ?m cg3 tt ?k) with
      (writes (emplace_u8 count ;;
               emplace_u8 (Z.lor (Z.land (cast_u8 (VarType_value (var_type (var v)))) 0x7F)
                                 (Z.shiftl (Z.b2z (global indexVar)) 7))) cg3 tt k).
    writes_step 1 1 writes_emplace_u8. apply writes_emplace_u8. lia.
  - writes_step 1 2 writes_emplace_u8. apply writes_emplace_u16. lia.
Qed.

Lemma writes_generate_code_ArgVariant labels script a cg :
  wf_ArgVariant (opt (program cg)) labels script a ->
  offset cg + compiled_size_ArgVariant a (opt (program cg)) <= max_offset cg ->
  writes (generate_code_ArgVariant labels script a) cg tt
         (compiled_size_ArgVariant a (opt (program cg))).
Proof.
  destruct a; simpl; intros Hwf Hroom;
    unfold compiled_size_EOAL, compiled_size_int8, compiled_size_int16,
      compiled_size_int32, compiled_size_Label in *.
  - by apply writes_emplace_u8.
  - by apply writes_generate_code_int8.
  - unfold generate_code_int16.
    writes_step 1 2 writes_emplace_u8. apply writes_emplace_i16. lia.
  - unfold generate_code_int32.
    writes_step 1 4 writes_emplace_u8. apply writes_emplace_i32. lia.
  - by apply writes_generate_code_float.
  - by apply writes_generate_code_Label.
  - by apply writes_generate_code_CompiledVar.
  - by apply writes_generate_code_CompiledString.
Qed.

Lemma writes_generate_code_CompiledCommand labels script cmd cg :
  Forall (wf_ArgVariant (opt (program cg)) labels script) (args cmd) ->
  offset cg + compiled_size_CompiledCommand cmd (opt (program cg)) <= max_offset cg ->
  writes (generate_code_CompiledCommand labels script cmd) cg tt
         (compiled_size_CompiledCommand cmd (opt (program cg))).
Proof.
  rewrite compiled_size_CompiledCommand_sum. intros Hwf Hroom.
  unfold generate_code_CompiledCommand.
  writes_step 2 (sum_list_with (fun a => compiled_size_ArgVariant a (opt (program cg)))
                               (args cmd)) writes_emplace_u16.
  match goal with H : opt _ = opt _ |- _ => rename H into Hopt end.
  apply writes_for_each; [|lia].
  intros a cg2 Ha Hmax' Hopt' Hroom'.
  assert (Ho : opt (program cg) = opt (program cg2)) by congruence.
  rewrite Ho in *. apply writes_generate_code_ArgVariant; [|done].
  rewrite Forall_forall in Hwf. by apply Hwf, list_elem_of_In.
Qed.

Lemma writes_generate_code labels script d cg :
  wf_CompiledData (opt (program cg)) labels script d ->
  offset cg + compiled_size d (opt (program cg)) <= max_offset cg ->
  writes (generate_code labels script d) cg tt (compiled_size d (opt (program cg))).
Proof.
  unfold wf_CompiledData, generate_code, compiled_size.
  destruct (data d); intros Hwf Hroom;
    unfold compiled_size_EOAL, compiled_size_int8, compiled_size_int16,
      compiled_size_int32, compiled_size_Label in *.
  - by apply writes_emplace_u8.
  - by apply writes_generate_code_CompiledCommand.
  - by apply writes_generate_code_int8.
  - unfold generate_code_int16.
    writes_step 1 2 writes_emplace_u8. apply writes_emplace_i16. lia.
  - unfold generate_code_int32.
    writes_step 1 4 writes_emplace_u8. apply writes_emplace_i32. lia.
  - by apply writes_generate_code_float.
  - by apply writes_generate_code_Label.
  - by apply writes_generate_code_CompiledVar.
  - by apply writes_generate_code_CompiledString.
  - apply writes_ret. unfold CompiledLabelDef_compiled_size in Hroom. lia.
  - by apply writes_emplace_bytes.
Qed.

(** C1. For every node of the intermediate representation and every
    setting of the options, the number of bytes [generate_code] writes is
    [compiled_size]: whenever the emitter completes, the cursor has moved
    by exactly [compiled_size] bytes and the bytes in front of the old
    cursor are untouched; and the emitter does complete, with that many bytes
    stored at the cursor, for every well-formed node when the buffer has room
    for them. *)
Theorem generate_code_writes_compiled_size
    (labels : LabelStore) (script : Script) (d : CompiledData)
    (cg : CodeGeneratorBase) :
  (forall cg', generate_code labels script d cg = Done tt cg' ->
     offset cg' = offset cg + compiled_size d (opt (program cg)) /\
     take (offset cg) (bytecode cg') = take (offset cg) (bytecode cg)) /\
  (wf_CompiledData (opt (program cg)) labels script d ->
   offset cg + compiled_size d (opt (program cg)) <= max_offset cg ->
   exists cg', generate_code labels script d cg = Done tt cg' /\
     offset cg' = offset cg + compiled_size d (opt (program cg)) /\
     length (emitted cg cg') = compiled_size d (opt (program cg))).
Proof.
  split.
  - intros cg' Hrun.
    destruct (grows_generate_code _ labels script d cg tt cg' eq_refl Hrun)
      as (Hoff & _ & _ & Hframe & _).
    done.
  - intros Hwf Hroom.
    destruct (writes_generate_code labels script d cg Hwf Hroom)
      as (bs & errs & Hlen & Hroom' & Hrun).
    exists (after cg bs errs). split; [done|].
    rewrite offset_after, emitted_after by done. by rewrite Hlen.
Qed.

(** ** compute_labels *)

Lemma cast_u32_idemp v : cast_u32 (cast_u32 v) = cast_u32 v.
Proof. unfold cast_u32. apply Z.mod_mod. lia. Qed.

Lemma cast_u32_small v : (0 <= v < 2 ^ 32)%Z -> cast_u32 v = v.
Proof. intros H. unfold cast_u32. by apply Z.mod_small. Qed.

Lemma cast_u32_add_l a b : cast_u32 (cast_u32 a + b) = cast_u32 (a + b).
Proof. unfold cast_u32. apply Zplus_mod_idemp_l. Qed.

Lemma set_local_offset_at p off (labels : LabelStore) :
  set_local_offset p off labels p
  = {| label_script := label_script (labels p); local_offset := Some off |}.
Proof. apply fn_lookup_insert. Qed.

Lemma set_local_offset_other p q off (labels : LabelStore) :
  p ≠ q -> set_local_offset p off labels q = labels q.
Proof. apply fn_lookup_insert_ne. Qed.

Lemma compute_labels_from_step o op rest off labels :
  compute_labels_from o (op :: rest) off labels =
  match data op with
  | Data_LabelDef d =>
      compute_labels_from o rest off (set_local_offset (label d) off labels)
  | _ =>
      compute_labels_from o rest (cast_u32 (off + Z.of_nat (emitted_size o op))) labels
  end.
Proof. unfold emitted_size. simpl. by destruct (data op). Qed.

Lemma compute_labels_from_app o pre post off labels :
  compute_labels_from o (pre ++ post) off labels =
  compute_labels_from o post (fst (compute_labels_from o pre off labels))
                             (snd (compute_labels_from o pre off labels)).
Proof.
  revert off labels. induction pre as [|op pre IH]; intros off labels; [done|].
  rewrite <- app_comm_cons, !compute_labels_from_step.
  destruct (data op); apply IH.
Qed.

Lemma compute_labels_from_fst o ops off labels :
  cast_u32 off = off ->
  fst (compute_labels_from o ops off labels)
  = cast_u32 (off + Z.of_nat (script_bytes o ops)).
Proof.
  revert off labels. induction ops as [|op rest IH]; intros off labels Hoff.
  - simpl. rewrite Z.add_0_r. done.
  - rewrite compute_labels_from_step. unfold script_bytes in *.
    cbn [sum_list_with]. rewrite Nat2Z.inj_add, Z.add_assoc.
    assert (Hstep : fst (compute_labels_from o rest
                           (cast_u32 (off + Z.of_nat (emitted_size o op))) labels)
                    = cast_u32 (off + Z.of_nat (emitted_size o op)
                                + Z.of_nat (sum_list_with (emitted_size o) rest))).
    { rewrite IH by apply cast_u32_idemp. apply cast_u32_add_l. }
    unfold emitted_size in *.
    destruct (data op); try exact Hstep.
    rewrite IH by done. f_equal. lia.
Qed.

Lemma compute_labels_from_untouched o ops off labels p :
  p ∉ defined_labels ops ->
  snd (compute_labels_from o ops off labels) p = labels p.
Proof.
  revert off labels. induction ops as [|op rest IH]; intros off labels Hp; [done|].
  rewrite compute_labels_from_step. simpl in Hp.
  destruct (data op); try (by apply IH).
  rewrite not_elem_of_cons in Hp. destruct Hp as [Hne Hp].
  rewrite IH by done. apply set_local_offset_other. congruence.
Qed.

Lemma compute_labels_from_at o pre d post off labels :
  cast_u32 off = off ->
  label d ∉ defined_labels post ->
  local_offset (snd (compute_labels_from o (pre ++ {| data := Data_LabelDef d |} :: post)
                       off labels) (label d))
  = Some (cast_u32 (off + Z.of_nat (script_bytes o pre))).
Proof.
  intros Hoff Hpost.
  rewrite compute_labels_from_app, compute_labels_from_step. cbn [data].
  rewrite compute_labels_from_untouched by done.
  rewrite set_local_offset_at. cbn [local_offset].
  by rewrite compute_labels_from_fst.
Qed.

Lemma script_bytes_app o pre post :
  script_bytes o (pre ++ post) = script_bytes o pre + script_bytes o post.
Proof. apply sum_list_with_app. Qed.

(** C2. [compute_labels] is one forward pass that starts at offset 0.  For a
    script whose nodes other than label definitions add up to less than
    2^32 bytes (the accumulator is a [uint32_t]): the value returned is the
    sum of [compiled_size] over the nodes that are not label definitions;
    the label of each label definition (not defined again further on) gets
    as [local_offset] the sum of [compiled_size] over the nodes, other than
    label definitions, in front of it; so two label definitions in a row get
    the same offset; a label definition contributes no byte; and labels the
    script does not define are left as they were. *)
Theorem compute_labels_resolves (cg : CodeGenerator) (labels : LabelStore) :
  let o := opt (program (base cg)) in
  (Z.of_nat (script_bytes o (compiled cg)) < 2 ^ 32)%Z ->
  fst (compute_labels cg labels) = Z.of_nat (script_bytes o (compiled cg)) /\
  (forall pre d post,
     compiled cg = pre ++ {| data := Data_LabelDef d |} :: post ->
     label d ∉ defined_labels post ->
     local_offset (snd (compute_labels cg labels) (label d))
     = Some (Z.of_nat (script_bytes o pre))) /\
  (forall pre d1 d2 post,
     compiled cg = pre ++ {| data := Data_LabelDef d1 |}
                       :: {| data := Data_LabelDef d2 |} :: post ->
     label d1 ≠ label d2 ->
     label d1 ∉ defined_labels post ->
     label d2 ∉ defined_labels post ->
     local_offset (snd (compute_labels cg labels) (label d1))
     = local_offset (snd (compute_labels cg labels) (label d2))) /\
  (forall d, emitted_size o {| data := Data_LabelDef d |} = 0) /\
  (forall p, p ∉ defined_labels (compiled cg) ->
     snd (compute_labels cg labels) p = labels p).
Proof.
  intros o Hsmall. unfold compute_labels. fold o.
  assert (Hat : forall pre d post,
     compiled cg = pre ++ {| data := Data_LabelDef d |} :: post ->
     label d ∉ defined_labels post ->
     local_offset (snd (compute_labels_from o (compiled cg) 0 labels) (label d))
     = Some (Z.of_nat (script_bytes o pre))).
  { intros pre d post Heq Hpost. rewrite Heq in *.
    rewrite compute_labels_from_at by done.
    rewrite script_bytes_app in Hsmall. rewrite Z.add_0_l.
    rewrite cast_u32_small by lia. done. }
  split; [|split; [|split; [|split]]].
  - rewrite compute_labels_from_fst by done. rewrite Z.add_0_l.
    apply cast_u32_small. lia.
  - exact Hat.
  - intros pre d1 d2 post Heq Hne H1 H2.
    rewrite (Hat pre d1 ({| data := Data_LabelDef d2 |} :: post) Heq).
    + rewrite (Hat (pre ++ [{| data := Data_LabelDef d1 |}]) d2 post).
      * rewrite script_bytes_app. unfold script_bytes at 3. simpl.
        do 2 f_equal. lia.
      * by rewrite <- app_assoc.
      * done.
    + simpl. rewrite not_elem_of_cons. done.
  - done.
  - intros p Hp. by apply compute_labels_from_untouched.
Qed.

(** ** Exact bytes: label references and floats *)

Lemma emits_get_opt {B} (f : Options -> M B) cg b bs errs :
  emits (f (opt (program cg))) cg b bs errs -> emits (get_opt ≫= f) cg b bs errs.
Proof. exact (fun H => H). Qed.

Lemma emits_get_offset {B} (f : nat -> M B) cg b bs errs :
  emits (f (offset cg)) cg b bs errs -> emits (get_offset ≫= f) cg b bs errs.
Proof. exact (fun H => H). Qed.

Lemma emits_value {A B} (x : option A) a (f : A -> M B) cg b bs errs :
  x = Some a -> emits (f a) cg b bs errs -> emits (value x ≫= f) cg b bs errs.
Proof. intros ->. exact (fun H => H). Qed.

Lemma emits_assert {B} c (k : M B) cg b bs errs :
  c = true -> emits k cg b bs errs -> emits (assert c ;; k) cg b bs errs.
Proof. intros ->. exact (fun H => H). Qed.

Lemma emits_skip {B} (k : M B) cg b bs errs :
  emits k cg b bs errs -> emits (mret tt ;; k) cg b bs errs.
Proof. exact (fun H => H). Qed.

Lemma le_bytes_4_opp_cast_i32 v : le_bytes 4 (- cast_i32 v) = le_bytes 4 (- v).
Proof.
  rewrite <- (le_bytes_mod 4 (- cast_i32 v)), <- (le_bytes_mod 4 (- v)). f_equal.
  change (256 ^ Z.of_nat 4)%Z with (2 ^ 32)%Z. unfold cast_i32.
  rewrite <- (Zminus_mod_idemp_r 0 (_ - _)), (Zminus_mod_idemp_l (v + 2 ^ 31)).
  rewrite Zminus_mod_idemp_r. f_equal. lia.
Qed.

Lemma emits_emplace_local_offset off cg :
  offset cg + 4 <= max_offset cg ->
  emits (emplace_local_offset off) cg tt (le_bytes 4 (- off))
        (if decide (off = 0%Z) then [zero_offset_message] else []).
Proof.
  intros H. unfold emplace_local_offset. destruct (decide (off = 0%Z)).
  - eapply emits_eq.
    + eapply emits_bind_state; [apply emits_program_error; lia|].
      intros cg1 Ho Hm _. apply emits_emplace_i32. simpl in Ho. lia.
    + done.
    + done.
  - apply emits_skip. by apply emits_emplace_i32.
Qed.

Lemma emits_generate_code_Label_negated labels script p cg off :
  negated_offset (opt (program cg)) labels p = Some off ->
  wf_Label (opt (program cg)) labels script p ->
  offset cg + 5 <= max_offset cg ->
  emits (generate_code_Label labels script p) cg tt (1%Z :: le_bytes 4 (- off))
        (if decide (off = 0%Z) then [zero_offset_message] else []).
Proof.
  unfold negated_offset, wf_Label, generate_code_Label. intros Hneg Hwf Hroom.
  destruct (use_local_offsets (opt (program cg))) eqn:Euse.
  - destruct (Label_offset (labels p)) as [a|] eqn:Ea; [|done].
    injection Hneg as <-.
    eapply emits_eq.
    { eapply emits_bind_state; [apply emits_emplace_u8; lia|].
      intros cg1 Ho Hm Hopt. simpl in Ho. apply emits_get_opt. rewrite Hopt, Euse.
      eapply emits_value; [done|]. apply emits_emplace_local_offset. lia. }
    all: done.
  - destruct (bool_decide _) eqn:Emode; [|done].
    destruct Hwf as [Hsame _].
    destruct (local_offset (labels p)) as [lo|] eqn:Elo; [|done].
    injection Hneg as <-.
    eapply emits_eq.
    { eapply emits_bind_state; [apply emits_emplace_u8; lia|].
      intros cg1 Ho Hm Hopt. simpl in Ho. apply emits_get_opt.
      rewrite Hopt, Euse.
      apply emits_assert; [done|].
      eapply emits_value; [done|]. apply emits_emplace_local_offset. lia. }
    all: done.
Qed.

(** C4. A label reference emitted negated (because [use_local_offsets] is
    set, or because the label's script is a mission or a streamed script),
    with [off] the offset being negated: when [off] is 0 the diagnostic
    "reference to zero offset" is reported through [program.error] and
    emission goes on, storing the tag 0x01 and four zero bytes; when [off]
    is not 0 the tag and the four bytes of [- off] are stored and nothing
    is reported. *)
Theorem zero_offset_reference_reported
    (labels : LabelStore) (script : Script) (p : LabelPtr)
    (cg : CodeGeneratorBase) (off : Z) :
  negated_offset (opt (program cg)) labels p = Some off ->
  wf_Label (opt (program cg)) labels script p ->
  offset cg + 5 <= max_offset cg ->
  (off = 0%Z ->
     generate_code_Label labels script p cg
     = Done tt (after cg [1; 0; 0; 0; 0]%Z [zero_offset_message])) /\
  (off ≠ 0%Z ->
     generate_code_Label labels script p cg
     = Done tt (after cg (1%Z :: le_bytes 4 (- off)) [])).
Proof.
  intros Hneg Hwf Hroom.
  destruct (emits_generate_code_Label_negated labels script p cg off Hneg Hwf Hroom)
    as [_ Hrun].
  split; intros Hoff; rewrite Hrun; destruct (decide (off = 0%Z)); try done.
  by subst off.
Qed.

(** C3 (as the code has it). With [use_local_offsets] set, a label
    reference is emitted as the tag 0x01 followed by the negation, as an
    [int32_t], of what [Label::offset()] returns: the label's absolute offset,
    its script's offset plus its local offset.  The type of the owning
    script plays no part. *)
Theorem local_offsets_option_negates_label_offset
    (labels : LabelStore) (script : Script) (p : LabelPtr)
    (cg : CodeGeneratorBase) (so lo : Z) :
  use_local_offsets (opt (program cg)) = true ->
  script_offset (label_script (labels p)) = Some so ->
  local_offset (labels p) = Some lo ->
  offset cg + 5 <= max_offset cg ->
  exists errs,
    generate_code_Label labels script p cg
    = Done tt (after cg (1%Z :: le_bytes 4 (- (so + lo))) errs).
Proof.
  intros Huse Hso Hlo Hroom.
  assert (Hoff : Label_offset (labels p) = Some (cast_u32 (so + lo))).
  { unfold Label_offset. by rewrite Hso, Hlo. }
  destruct (emits_generate_code_Label_negated labels script p cg
              (cast_i32 (cast_u32 (so + lo)))) as [_ Hrun].
  - unfold negated_offset. by rewrite Huse, Hoff.
  - unfold wf_Label. by rewrite Huse, Hoff.
  - done.
  - eexists. rewrite Hrun. do 2 f_equal.
    rewrite le_bytes_4_opp_cast_i32.
    rewrite <- (le_bytes_mod 4 (- cast_u32 _)), <- (le_bytes_mod 4 (- (so + lo))).
    f_equal. change (256 ^ Z.of_nat 4)%Z with (2 ^ 32)%Z. unfold cast_u32.
    rewrite <- (Zminus_mod_idemp_r 0 ((so + lo) mod _)), Z.mod_mod by lia.
    rewrite Zminus_mod_idemp_r. done.
Qed.

Lemma emits_generate_code_int8 v cg :
  offset cg + 2 <= max_offset cg ->
  emits (generate_code_int8 v) cg tt (4%Z :: le_bytes 1 v) [].
Proof.
  intros H. unfold generate_code_int8. eapply emits_eq.
  { eapply emits_bind_state; [apply emits_emplace_u8; lia|].
    intros cg1 Ho Hm _. simpl in Ho. apply emits_emplace_i8. lia. }
  all: done.
Qed.

Lemma emits_generate_code_float_zero f cg :
  optimize_zero_floats (opt (program cg)) && float_is_zero f = true ->
  offset cg + 2 <= max_offset cg ->
  emits (generate_code_float f) cg tt [4; 0]%Z [].
Proof.
  intros Hz H. unfold generate_code_float. apply emits_get_opt. rewrite Hz.
  by apply emits_generate_code_int8.
Qed.

Lemma emits_generate_code_float_half f half cg :
  optimize_zero_floats (opt (program cg)) && float_is_zero f = false ->
  use_half_float (opt (program cg)) = true ->
  float_to_int16 (float_times_16 f) = Some half ->
  offset cg + 3 <= max_offset cg ->
  emits (generate_code_float f) cg tt (6%Z :: le_bytes 2 half) [].
Proof.
  intros Hz Hh Hc H. unfold generate_code_float. apply emits_get_opt.
  rewrite Hz, Hh, Hc. eapply emits_eq.
  { eapply emits_bind_state; [apply emits_emplace_u8; lia|].
    intros cg1 Ho Hm _. simpl in Ho. apply emits_emplace_i16. lia. }
  all: done.
Qed.

Lemma emits_generate_code_float_raw f cg :
  optimize_zero_floats (opt (program cg)) && float_is_zero f = false ->
  use_half_float (opt (program cg)) = false ->
  offset cg + 5 <= max_offset cg ->
  emits (generate_code_float f) cg tt (6%Z :: le_bytes 4 f) [].
Proof.
  intros Hz Hh H. unfold generate_code_float. apply emits_get_opt.
  rewrite Hz, Hh. eapply emits_eq.
  { eapply emits_bind_state; [apply emits_emplace_u8; lia|].
    intros cg1 Ho Hm _. simpl in Ho. apply emits_emplace_u32. lia. }
  all: done.
Qed.

(** ** Floats as numbers: the emitter's float helpers against arithmetic *)

Lemma float_of_bits_zero f :
  float_is_zero f = true <->
  Z.land (Z.shiftr f 23) 0xFF = 0%Z /\ Z.land f 0x7FFFFF = 0%Z.
Proof.
  unfold float_is_zero, float_of_bits.
  assert (Hm : (0 <= Z.land f 0x7FFFFF)%Z) by (apply Z.land_nonneg; lia).
  destruct (decide (Z.land (Z.shiftr f 23) 255 = 0)%Z) as [He|He].
  - destruct (Z.land f 0x7FFFFF) as [|p|p] eqn:Em; [| |lia].
    + split; [done|]. intros _. by destruct (Z.testbit f 31).
    + split; [|intros [_ ?]; done]. by destruct (Z.testbit f 31).
  - split; [|intros [? _]; done].
    destruct (decide (Z.land (Z.shiftr f 23) 255 = 255)%Z).
    + destruct (Z.land f 0x7FFFFF); [|done..]. by destruct (Z.testbit f 31).
    + destruct (Z.land f 0x7FFFFF + 2 ^ 23)%Z; [done| |done].
      by destruct (Z.testbit f 31).
Qed.

Lemma digits2_pos_size p : digits2_pos p = Pos.size p.
Proof. induction p as [p IH|p IH|]; simpl; by rewrite ?IH. Qed.

Lemma digits2_pos_bounds p :
  (2 ^ (Zpos (digits2_pos p) - 1) <= Zpos p < 2 ^ Zpos (digits2_pos p))%Z.
Proof.
  induction p as [p IH|p IH|]; cbn [digits2_pos]; [| |simpl; lia].
  all: rewrite Pos2Z.inj_succ;
    replace (Z.succ (Zpos (digits2_pos p)) - 1)%Z with (Z.succ (Zpos (digits2_pos p) - 1))
      by lia;
    rewrite !Z.pow_succ_r by lia; lia.
Qed.

Lemma digits2_pos_unique p d :
  (2 ^ (d - 1) <= Zpos p < 2 ^ d)%Z -> Zpos (digits2_pos p) = d.
Proof.
  intros [Hlo Hhi]. pose proof (digits2_pos_bounds p) as [Hlo' Hhi'].
  assert (0 < d)%Z.
  { destruct (Z_lt_le_dec 0 d) as [|Hd]; [done|].
    destruct (Z.eq_dec d 0%Z) as [->|Hne]; [simpl in Hhi; lia|].
    rewrite Z.pow_neg_r in Hhi by lia. lia. }
  destruct (Z.lt_trichotomy (Zpos (digits2_pos p)) d) as [Hlt|[Heq|Hgt]]; [|done|].
  - assert (2 ^ Zpos (digits2_pos p) <= 2 ^ (d - 1))%Z by (apply Z.pow_le_mono_r; lia). lia.
  - assert (2 ^ d <= 2 ^ (Zpos (digits2_pos p) - 1))%Z by (apply Z.pow_le_mono_r; lia). lia.
Qed.

Lemma shr_1_23 p :
  SpecFloat.iter_pos shr_1 23
    {| shr_m := Zpos p~0~0~0~0~0~0~0~0~0~0~0~0~0~0~0~0~0~0~0~0~0~0~0;
       shr_r := false; shr_s := false |}
  = {| shr_m := Zpos p; shr_r := false; shr_s := false |}.
Proof. reflexivity. Qed.

(** multiplying a normal number by 16.0f *)
Lemma binary_round_aux_times_16_normal s p e :
  Zpos (digits2_pos p) = 24%Z -> (-149 <= e)%Z ->
  binary_round_aux 24 128 s (Zpos (p * 8388608)) (e + -19) loc_Exact
  = if (e + 4 <=? 104)%Z then S754_finite s p (e + 4) else S754_infinity s.
Proof.
  intros Hd He. unfold binary_round_aux, shr_fexp.
  rewrite Pos.mul_comm.
  change (8388608 * p)%positive
    with (p~0~0~0~0~0~0~0~0~0~0~0~0~0~0~0~0~0~0~0~0~0~0~0)%positive.
  cbn [Zdigits2 digits2_pos].
  rewrite !Pos2Z.inj_succ, Hd.
  set (n := (fexp 24 128 _ - _)%Z).
  assert (Hn : n = 23%Z) by (unfold n, fexp, emin; lia).
  rewrite Hn. cbn [shr shr_record_of_loc]. rewrite shr_1_23.
  cbn [shr_m loc_of_shr_record round_nearest_even Zdigits2].
  rewrite Hd.
  set (n2 := (fexp 24 128 _ - _)%Z).
  assert (Hn2 : n2 = 0%Z) by (unfold n2, fexp, emin; lia).
  rewrite Hn2. cbn [shr shr_record_of_loc shr_m].
  replace (e + -19 + 23)%Z with (e + 4)%Z by lia. done.
Qed.

(** the second normalisation of [binary_round_aux] finds nothing to shift *)
Ltac second_shift_is_zero :=
  cbn [shr_m loc_of_shr_record round_nearest_even Zdigits2 digits2_pos];
  rewrite ?Pos2Z.inj_succ;
  match goal with
  | |- context [shr _ _ (fexp 24 128 ?x - ?e)%Z] =>
      replace (fexp 24 128 x - e)%Z with 0%Z by (unfold fexp, emin; lia)
  end;
  cbn [shr shr_record_of_loc shr_m].

(** multiplying a denormal number by 16.0f: the product is exact, a finite
    number below 2^-122 *)
Lemma binary_round_aux_times_16_denormal s p :
  (Zpos (digits2_pos p) <= 23)%Z ->
  exists m' e',
    binary_round_aux 24 128 s (Zpos (p * 8388608)) (-149 + -19) loc_Exact
    = S754_finite s m' e' /\
    (Zpos m' < 2 ^ 24)%Z /\ (e' <= -146)%Z.
Proof.
  intros Hd. pose proof (digits2_pos_bounds p) as [_ Hp].
  assert (Hcase : (Zpos (digits2_pos p) <= 20 \/ Zpos (digits2_pos p) = 21 \/
                   Zpos (digits2_pos p) = 22 \/ Zpos (digits2_pos p) = 23)%Z) by lia.
  unfold binary_round_aux, shr_fexp.
  rewrite Pos.mul_comm.
  change (8388608 * p)%positive
    with (p~0~0~0~0~0~0~0~0~0~0~0~0~0~0~0~0~0~0~0~0~0~0~0)%positive.
  cbn [Zdigits2 digits2_pos].
  rewrite !Pos2Z.inj_succ.
  set (n := (fexp 24 128 _ - _)%Z).
  destruct Hcase as [Hc|[Hc|[Hc|Hc]]].
  - assert (Hn : n = 19%Z) by (unfold n, fexp, emin; lia).
    rewrite Hn. cbn [shr shr_record_of_loc].
    change (SpecFloat.iter_pos shr_1 19 _)
      with {| shr_m := Zpos p~0~0~0~0; shr_r := false; shr_s := false |}.
    second_shift_is_zero.
    eexists _, _. split; [reflexivity|]. split; [|lia].
    assert (2 ^ Zpos (digits2_pos p) <= 2 ^ 20)%Z by (apply Z.pow_le_mono_r; lia).
    lia.
  - assert (Hn : n = 20%Z) by (unfold n, fexp, emin; lia).
    rewrite Hn. cbn [shr shr_record_of_loc].
    change (SpecFloat.iter_pos shr_1 20 _)
      with {| shr_m := Zpos p~0~0~0; shr_r := false; shr_s := false |}.
    second_shift_is_zero.
    eexists _, _. split; [reflexivity|]. split; [|lia].
    rewrite Hc in Hp. lia.
  - assert (Hn : n = 21%Z) by (unfold n, fexp, emin; lia).
    rewrite Hn. cbn [shr shr_record_of_loc].
    change (SpecFloat.iter_pos shr_1 21 _)
      with {| shr_m := Zpos p~0~0; shr_r := false; shr_s := false |}.
    second_shift_is_zero.
    eexists _, _. split; [reflexivity|]. split; [|lia].
    rewrite Hc in Hp. lia.
  - assert (Hn : n = 22%Z) by (unfold n, fexp, emin; lia).
    rewrite Hn. cbn [shr shr_record_of_loc].
    change (SpecFloat.iter_pos shr_1 22 _)
      with {| shr_m := Zpos p~0; shr_r := false; shr_s := false |}.
    second_shift_is_zero.
    eexists _, _. split; [reflexivity|]. split; [|lia].
    rewrite Hc in Hp. lia.
Qed.

Lemma float_fields f :
  (0 <= f < 2 ^ 32)%Z ->
  Z.testbit f 31 = bool_decide (float_sign f = 1%Z) /\
  Z.land (Z.shiftr f 23) 0xFF = float_exponent f /\
  Z.land f 0x7FFFFF = float_fraction f /\
  (0 <= float_exponent f < 256)%Z /\
  (0 <= float_fraction f < 2 ^ 23)%Z.
Proof.
  intros Hf. unfold float_sign, float_exponent, float_fraction.
  change 0xFF%Z with (Z.ones 8). change 0x7FFFFF%Z with (Z.ones 23).
  rewrite !Z.land_ones, Z.shiftr_div_pow2 by lia.
  repeat split; try (apply Z.mod_pos_bound; lia).
  destruct (Z.testbit f 31) eqn:Hbit.
  - apply Z.testbit_true in Hbit; [|lia]. by rewrite bool_decide_eq_true_2.
  - apply Z.testbit_false in Hbit; [|lia]. rewrite bool_decide_eq_false_2; [done|lia].
Qed.

Lemma quot_signed (b : bool) X D :
  (0 <= X)%Z -> (0 < D)%Z ->
  Z.quot (16 * ((if b then -1 else 1) * X)) D
  = (if b then - (16 * X / D) else 16 * X / D)%Z.
Proof.
  intros HX HD. destruct b.
  - replace (16 * (-1 * X))%Z with (- (16 * X))%Z by lia.
    rewrite Z.quot_opp_l by lia. rewrite Z.quot_div_nonneg by lia. done.
  - rewrite Z.mul_1_l. apply Z.quot_div_nonneg; lia.
Qed.

Lemma float_of_bits_16 : float_of_bits 0x41800000%Z = S754_finite false 8388608 (-19).
Proof. reflexivity. Qed.

Lemma half_float_unfold f (b : bool) :
  float_finite f ->
  bool_decide (float_sign f = 1%Z) = b ->
  (0 <= float_significand f)%Z ->
  half_float f
  = let X := (float_significand f * 2 ^ Z.max (float_exponent2 f) 0)%Z in
    let t := (if b then - (16 * X / float_denominator f)
              else 16 * X / float_denominator f)%Z in
    if decide (- 2 ^ 15 <= t < 2 ^ 15)%Z then Some t else None.
Proof.
  intros Hfin Hb Hsig. unfold half_float. rewrite decide_True by done.
  cbv zeta. unfold float_numerator.
  assert (Hpow : (0 < 2 ^ Z.max (float_exponent2 f) 0)%Z)
    by (apply Z.pow_pos_nonneg; lia).
  assert (Hden : (0 < float_denominator f)%Z)
    by (apply Z.pow_pos_nonneg; lia).
  assert (Hsgn : (if decide (float_sign f = 1%Z) then -1 else 1)%Z
                 = (if b then -1 else 1)%Z).
  { subst b. by destruct (decide _) as [H|H];
      [rewrite bool_decide_eq_true_2|rewrite bool_decide_eq_false_2]. }
  rewrite Hsgn, <- Z.mul_assoc, quot_signed by nia. done.
Qed.

(** C5's half: what the emitter computes for [value * 16.0f] cut to an
    [int16_t] is sixteen times the float's value, cut toward zero *)
Lemma float_to_int16_times_16 f :
  (0 <= f < 2 ^ 32)%Z -> float_to_int16 (float_times_16 f) = half_float f.
Proof.
  intros Hf. destruct (float_fields f Hf) as (Hs & He & Hm & Heb & Hmb).
  unfold float_times_16. rewrite float_of_bits_16. unfold float_of_bits.
  rewrite Hs, He, Hm.
  set (b := bool_decide (float_sign f = 1%Z)).
  destruct (decide (float_exponent f = 0%Z)) as [He0|He0].
  - (* zero or denormal *)
    assert (Hfin : float_finite f) by (unfold float_finite; lia).
    assert (Hsig : float_significand f = float_fraction f)
      by (unfold float_significand; by rewrite decide_True).
    assert (HE : float_exponent2 f = (-149)%Z)
      by (unfold float_exponent2; by rewrite decide_True).
    rewrite (half_float_unfold f b Hfin eq_refl) by lia.
    unfold float_denominator. rewrite Hsig, HE. cbv zeta.
    change (Z.max (-149) 0) with 0%Z. change (Z.max (- -149) 0) with 149%Z.
    rewrite Z.pow_0_r, Z.mul_1_r.
    rewrite (Z.div_small (16 * float_fraction f)) by lia.
    destruct (float_fraction f) as [|p|p] eqn:Hp; [| |lia].
    + cbn [SFmul float_to_int16]. by destruct b.
    + cbn [SFmul].
      destruct (binary_round_aux_times_16_denormal (xorb b false) p)
        as (m' & e' & -> & Hm' & He').
      { pose proof (digits2_pos_bounds p) as [Hlo _].
        destruct (Z_lt_le_dec 23 (Zpos (digits2_pos p))) as [Hbig|]; [|done].
        assert (2 ^ 23 <= 2 ^ (Zpos (digits2_pos p) - 1))%Z
          by (apply Z.pow_le_mono_r; lia).
        lia. }
      cbn [float_to_int16]. rewrite Z.shiftl_div_pow2 by lia.
      rewrite Z.div_small.
      2:{ split; [lia|].
          assert (2 ^ 24 <= 2 ^ (- e'))%Z by (apply Z.pow_le_mono_r; lia). lia. }
      by destruct (xorb b false), b.
  - destruct (decide (float_exponent f = 255%Z)) as [He255|He255].
    + (* infinity or NaN *)
      unfold half_float. rewrite decide_False by (unfold float_finite; tauto).
      by destruct (float_fraction f).
    + (* normal *)
      assert (Hfin : float_finite f) by done.
      assert (Hsig : float_significand f = (2 ^ 23 + float_fraction f)%Z)
        by (unfold float_significand; by rewrite decide_False).
      assert (HE : float_exponent2 f = (float_exponent f - 150)%Z)
        by (unfold float_exponent2; by rewrite decide_False).
      rewrite (half_float_unfold f b Hfin eq_refl) by lia.
      unfold float_denominator. rewrite Hsig, HE. cbv zeta.
      set (e := float_exponent f) in *.
      destruct (float_fraction f + 2 ^ 23)%Z as [|p|p] eqn:Hp; [lia| |lia].
      replace (2 ^ 23 + float_fraction f)%Z with (Zpos p) by lia.
      cbn [SFmul].
      rewrite binary_round_aux_times_16_normal;
        [|apply digits2_pos_unique; lia|lia].
      replace (xorb b false) with b by (by destruct b).
      destruct (Z.leb_spec (e - 150 + 4) 104) as [Hle|Hgt].
      * cbn [float_to_int16].
        assert (Hmag : Z.shiftl (Zpos p) (e - 150 + 4)
                       = (16 * (Zpos p * 2 ^ Z.max (e - 150) 0)
                          / 2 ^ Z.max (- (e - 150)) 0)%Z).
        { destruct (Z_lt_le_dec e 146) as [Hsmall|Hbig].
          - rewrite Z.shiftl_div_pow2 by lia.
            rewrite Z.max_r, Z.max_l, Z.pow_0_r, Z.mul_1_r by lia.
            replace (- (e - 150))%Z with (4 + - (e - 150 + 4))%Z by lia.
            rewrite Z.pow_add_r by lia. change (2 ^ 4)%Z with 16%Z.
            rewrite Z.div_mul_cancel_l; [done| |lia].
            apply Z.pow_nonzero; lia.
          - rewrite Z.shiftl_mul_pow2 by lia.
            destruct (Z_lt_le_dec e 150) as [Hmid|Hhigh].
            + rewrite Z.max_r, Z.max_l, Z.pow_0_r, Z.mul_1_r by lia.
              replace 16%Z with (2 ^ (e - 150 + 4) * 2 ^ (- (e - 150)))%Z.
              2:{ rewrite <- Z.pow_add_r by lia.
                  replace (e - 150 + 4 + - (e - 150))%Z with 4%Z by lia. done. }
              rewrite (Z.mul_comm (2 ^ _ * 2 ^ _)), Z.mul_assoc.
              rewrite Z.div_mul; [done|]. apply Z.pow_nonzero; lia.
            + rewrite Z.max_l, Z.max_r, Z.pow_0_r, Z.div_1_r by lia.
              rewrite Z.pow_add_r by lia. change (2 ^ 4)%Z with 16%Z. lia. }
        rewrite Hmag. by destruct b.
      * cbn [float_to_int16].
        rewrite Z.max_l, Z.max_r, Z.pow_0_r, Z.div_1_r by lia.
        assert (Hbig : (2 ^ 1 <= 2 ^ (e - 150))%Z) by (apply Z.pow_le_mono_r; lia).
        change (2 ^ 1)%Z with 2%Z in Hbig.
        destruct b; rewrite decide_False; try done; nia.
Qed.

Lemma float_is_zero_value f :
  (0 <= f < 2 ^ 32)%Z -> float_is_zero f = true <-> float_value_is_zero f.
Proof.
  intros Hf. destruct (float_fields f Hf) as (_ & He & Hm & Heb & Hmb).
  rewrite float_of_bits_zero, He, Hm.
  unfold float_value_is_zero, float_finite, float_numerator, float_significand.
  assert (Hpow : (0 < 2 ^ Z.max (float_exponent2 f) 0)%Z)
    by (apply Z.pow_pos_nonneg; lia).
  split.
  - intros [He0 Hm0]. split; [lia|].
    destruct (decide (float_exponent f = 0%Z)); [|done]. rewrite Hm0. lia.
  - intros [Hfin Hnum].
    destruct (decide (float_exponent f = 0%Z)) as [He0|He0];
      destruct (decide (float_sign f = 1%Z)); nia.
Qed.

(** C5. A float argument has exactly one encoding, chosen in this order.
    With [optimize_zero_floats] and a value equal to 0.0: the tag 0x04 and one
    zero byte, 2 bytes in all, so that the command 0x0002 with the single
    argument 0.0 is emitted as 02 00 04 00.  Otherwise with
    [use_half_float]: the tag 0x06 and the [int16_t] of [value * 16.0], 3
    bytes.  Otherwise: the tag 0x06 and the four bytes of the IEEE-754
    pattern, 5 bytes.  [compiled_size] agrees in each case.

    For a 32-bit pattern, "equal to 0.0" and "the [int16_t] of
    [value * 16.0]" are those of the number the pattern stands for.  The
    value is [float_numerator] over [float_denominator], read off the sign,
    exponent and fraction fields by arithmetic; it is 0.0 when the pattern
    is finite and the numerator is 0; and the 16-bit number, [half_float],
    is sixteen times the value cut to an integer toward zero, for a finite
    pattern whose sixteenfold is an [int16_t].  The comparison [== 0.0f]
    and the product [* 16.0f] in binary32 followed by the cast, which is
    what the emitter computes, agree with both. *)
Theorem float_encoding_precedence (f : float) (cg : CodeGeneratorBase) :
  let o := opt (program cg) in
  offset cg + compiled_size_float f o <= max_offset cg ->
  (optimize_zero_floats o = true -> float_is_zero f = true ->
     compiled_size_float f o = 2 /\
     generate_code_float f cg = Done tt (after cg [4; 0]%Z []) /\
     forall labels script,
       offset cg + 4 <= max_offset cg ->
       generate_code labels script
         {| data := Data_Command {| id := 0x0002; args := [Arg_float f] |} |} cg
       = Done tt (after cg [2; 0; 4; 0]%Z [])) /\
  (optimize_zero_floats o && float_is_zero f = false ->
   use_half_float o = true ->
     compiled_size_float f o = 3 /\
     forall half, float_to_int16 (float_times_16 f) = Some half ->
       generate_code_float f cg = Done tt (after cg (6%Z :: le_bytes 2 half) [])) /\
  (optimize_zero_floats o && float_is_zero f = false ->
   use_half_float o = false ->
     compiled_size_float f o = 5 /\
     generate_code_float f cg = Done tt (after cg (6%Z :: le_bytes 4 f) [])) /\
  ((0 <= f < 2 ^ 32)%Z ->
     (float_is_zero f = true <-> float_value_is_zero f) /\
     float_to_int16 (float_times_16 f) = half_float f /\
     (optimize_zero_floats o = true -> float_value_is_zero f ->
        generate_code_float f cg = Done tt (after cg [4; 0]%Z [])) /\
     (~ (optimize_zero_floats o = true /\ float_value_is_zero f) ->
      use_half_float o = true ->
      forall half, half_float f = Some half ->
        generate_code_float f cg = Done tt (after cg (6%Z :: le_bytes 2 half) []))).
Proof.
  intros o Hroom. unfold compiled_size_float in *. fold o in Hroom |- *.
  split; [|split; [|split]]; [| | |
    intros Hf; pose proof (float_is_zero_value f Hf) as Hzero;
    pose proof (float_to_int16_times_16 f Hf) as Hhalf;
    split; [exact Hzero|]; split; [exact Hhalf|]; split].
  4:{ intros Hopt Hval. apply Hzero in Hval.
      assert (Hz : optimize_zero_floats o && float_is_zero f = true)
        by (rewrite Hopt, Hval; done).
      rewrite Hz in Hroom. by apply emits_generate_code_float_zero. }
  4:{ intros Hnot Hh half Hspec.
      assert (Hz : optimize_zero_floats o && float_is_zero f = false).
      { destruct (optimize_zero_floats o) eqn:Hopt; [|done].
        destruct (float_is_zero f) eqn:Hval; [|done].
        destruct Hnot. split; [done|]. by apply Hzero. }
      rewrite Hz, Hh in Hroom.
      apply emits_generate_code_float_half; [done|done| |done].
      by rewrite Hhalf. }
  - intros Hopt Hzero.
    assert (Hz : optimize_zero_floats o && float_is_zero f = true)
      by (rewrite Hopt, Hzero; done).
    rewrite Hz in *. split; [done|]. split.
    + by apply emits_generate_code_float_zero.
    + intros labels script Hroom4.
      assert (Hcmd : emits (generate_code labels script
                {| data := Data_Command {| id := 0x0002; args := [Arg_float f] |} |})
                cg tt ([2; 0] ++ [4; 0] ++ [])%Z ([] ++ [] ++ [])).
      { unfold generate_code, generate_code_CompiledCommand. cbn [data id args for_each].
        eapply emits_bind_state; [apply emits_emplace_u16; lia|].
        intros cg1 Ho Hm Hopt1. simpl in Ho.
        eapply emits_bind_state.
        - apply emits_generate_code_float_zero; [|lia].
          rewrite Hopt1. exact Hz.
        - intros cg2 Ho2 Hm2 _. simpl in Ho2. apply emits_ret. lia. }
      apply Hcmd.
  - intros Hz Hh. rewrite Hz, Hh in *. split; [done|].
    intros half Hhalf. by apply emits_generate_code_float_half.
  - intros Hz Hh. rewrite Hz, Hh in *. split; [done|].
    by apply emits_generate_code_float_raw.
Qed.

(** C8. [emplace_chars(n, s)] with a string of at most [n] characters
    stores exactly [n] bytes at the cursor: the characters of [s] and then
    [n - len(s)] zero bytes, whatever the buffer held there before (the
    padding is [strncpy]'s, the buffer itself is not zeroed).  A [s] without
    an embedded NUL is its own character sequence.  The text label "HELLO"
    with [has_text_label_prefix] is emitted as 09 48 45 4C 4C 4F 00 00 00. *)
Theorem emplace_chars_zero_pads (n : nat) (s : list Z) (cg : CodeGeneratorBase) :
  strlen s <= n ->
  offset cg + n <= max_offset cg ->
  (exists cg',
     emplace_chars n s cg = Done tt cg' /\
     offset cg' = offset cg + n /\
     emitted cg cg' = c_string s ++ replicate (n - strlen s) 0%Z /\
     length (emitted cg cg') = n /\
     take (offset cg) (bytecode cg') = take (offset cg) (bytecode cg) /\
     drop (offset cg + n) (bytecode cg') = drop (offset cg + n) (bytecode cg)) /\
  (Forall (fun c => c <> 0%Z) s -> c_string s = s /\ strlen s = length s) /\
  (has_text_label_prefix (opt (program cg)) = true ->
   offset cg + 9 <= max_offset cg ->
   generate_code_CompiledString
     {| string_type := StrTextLabel8; storage := [72; 69; 76; 76; 79]%Z |} cg
   = Done tt (after cg [9; 72; 69; 76; 76; 79; 0; 0; 0]%Z [])).
Proof.
  intros Hlen Hroom. split; [|split].
  - destruct (emits_emplace_chars n s cg Hroom) as [Hroom' Hrun].
    exists (after cg (strncpy n s) []). split; [done|].
    rewrite offset_after, emitted_after, length_strncpy by done.
    split; [done|]. split; [by apply strncpy_pads|]. split; [done|]. split.
    + apply take_after. lia.
    + unfold after, max_offset in *. simpl. rewrite length_strncpy.
      rewrite app_assoc, drop_app_length'; [done|].
      rewrite length_app, length_take, length_strncpy. lia.
  - intros Hnul. split; [by apply c_string_nul_free|by apply strlen_nul_free].
  - intros Hprefix Hroom9.
    assert (Hstr : emits (generate_code_CompiledString
               {| string_type := StrTextLabel8; storage := [72; 69; 76; 76; 79]%Z |})
               cg tt ([9] ++ strncpy 8 [72; 69; 76; 76; 79])%Z ([] ++ [])).
    { unfold generate_code_CompiledString. cbn [string_type storage].
      change (Expects _) with (@mret M _ _ tt). apply emits_skip.
      apply emits_get_opt. rewrite Hprefix.
      eapply emits_bind_state; [apply emits_emplace_u8; lia|].
      intros cg1 Ho Hm _. simpl in Ho. apply emits_emplace_chars. lia. }
    apply Hstr.
Qed.

(** ** Writes that do not fit *)

Lemma emplace_u8_full v cg :
  max_offset cg < offset cg + 1 -> emplace_u8 v cg = Abort AssertionFailure cg.
Proof. intros H. unfold emplace_u8. destruct (decide _); [lia|done]. Qed.

Lemma cast_u8_idemp v : cast_u8 (cast_u8 v) = cast_u8 v.
Proof. unfold cast_u8. apply Z.mod_mod. lia. Qed.

Lemma emplace_u8_cast v cg : emplace_u8 (cast_u8 v) cg = emplace_u8 v cg.
Proof. unfold emplace_u8. by rewrite cast_u8_idemp. Qed.

Lemma bind_unit_ret (m : M unit) cg : (m ;; mret tt) cg = m cg.
Proof.
  unfold mbind, M_bind, bind. destruct (m cg) as [[] cg'|why cg']; done.
Qed.

Lemma for_each_emplace_u8_within bs cg :
  Forall (fun b => cast_u8 b = b) bs ->
  offset cg <= max_offset cg ->
  for_each emplace_u8 bs cg =
  if decide (offset cg + length bs <= max_offset cg)
  then Done tt (after cg bs [])
  else Abort AssertionFailure (after cg (take (max_offset cg - offset cg) bs) []).
Proof.
  intros Hbs. revert cg. induction Hbs as [|b rest Hb _ IH]; intros cg Hle.
  - simpl. rewrite after_nil. destruct (decide _); [done|lia].
  - cbn [for_each length].
    destruct (decide (offset cg + 1 <= max_offset cg)) as [H1|H1].
    + destruct (emits_emplace_u8 b cg H1) as [_ Hrun]. rewrite Hb in Hrun.
      rewrite (bind_Done _ _ _ _ _ Hrun), IH
        by (rewrite offset_after, max_offset_after by done; simpl; lia).
      rewrite offset_after, max_offset_after by done. simpl length.
      destruct (decide (offset cg + 1 + length rest <= max_offset cg));
        destruct (decide (offset cg + S (length rest) <= max_offset cg)); try lia.
      * by rewrite after_after.
      * rewrite after_after by done. do 2 f_equal.
        replace (max_offset cg - offset cg) with (S (max_offset cg - (offset cg + 1))) by lia.
        done.
    + rewrite (bind_Abort _ _ _ _ _ (emplace_u8_full b cg ltac:(lia))).
      destruct (decide _); [lia|].
      replace (max_offset cg - offset cg) with 0 by lia. by rewrite after_nil.
Qed.

Lemma for_each_emplace_u8 b rest cg :
  Forall (fun b => cast_u8 b = b) (b :: rest) ->
  for_each emplace_u8 (b :: rest) cg =
  if decide (offset cg + length (b :: rest) <= max_offset cg)
  then Done tt (after cg (b :: rest) [])
  else Abort AssertionFailure
         (after cg (take (max_offset cg - offset cg) (b :: rest)) []).
Proof.
  intros Hbs. destruct (decide (offset cg <= max_offset cg)) as [Hle|Hgt].
  - by apply for_each_emplace_u8_within.
  - cbn [for_each].
    rewrite (bind_Abort _ _ _ _ _ (emplace_u8_full b cg ltac:(lia))).
    destruct (decide _); [simpl in *; lia|].
    replace (max_offset cg - offset cg) with 0 by lia. by rewrite after_nil.
Qed.

Lemma Forall_le_bytes n v : Forall (fun b => cast_u8 b = b) (le_bytes n v).
Proof.
  revert v. induction n as [|n IH]; intros v; constructor; [|apply IH].
  unfold cast_u8. change (2 ^ 8)%Z with 256%Z. apply Z.mod_mod. lia.
Qed.

Lemma emplace_u16_bytewise v cg :
  emplace_u16 v cg = for_each emplace_u8 (le_bytes 2 v) cg.
Proof.
  unfold emplace_u16. rewrite <- (le_bytes_cast_u16 v), le_bytes_2.
  cbn [for_each]. set (x := cast_u16 v).
  unfold mbind, M_bind, bind.
  rewrite <- (emplace_u8_cast (Z.shiftr (Z.land x 0xFF) 0)), low_byte.
  destruct (emplace_u8 (x mod 256) cg) as [[] cg1|]; [|done].
  rewrite <- (emplace_u8_cast (Z.shiftr (Z.land x 0xFF00) 8)).
  change 0xFF00%Z with (Z.shiftl 0xFF 8). rewrite shifted_byte by lia.
  destruct (emplace_u8 _ cg1) as [[] cg2|]; done.
Qed.

Lemma emplace_u32_bytewise v cg :
  emplace_u32 v cg = for_each emplace_u8 (le_bytes 4 v) cg.
Proof.
  unfold emplace_u32. rewrite <- (le_bytes_cast_u32 v), le_bytes_4.
  cbn [for_each]. set (x := cast_u32 v).
  unfold mbind, M_bind, bind.
  rewrite <- (emplace_u8_cast (Z.shiftr (Z.land x 0xFF) 0)), low_byte.
  destruct (emplace_u8 (x mod 256) cg) as [[] cg1|]; [|done].
  rewrite <- (emplace_u8_cast (Z.shiftr (Z.land x 0xFF00) 8)).
  change 0xFF00%Z with (Z.shiftl 0xFF 8). rewrite shifted_byte by lia.
  destruct (emplace_u8 _ cg1) as [[] cg2|]; [|done].
  rewrite <- (emplace_u8_cast (Z.shiftr (Z.land x 0xFF0000) 16)).
  change 0xFF0000%Z with (Z.shiftl 0xFF 16). rewrite shifted_byte by lia.
  destruct (emplace_u8 _ cg2) as [[] cg3|]; [|done].
  rewrite <- (emplace_u8_cast (Z.shiftr (Z.land x 0xFF000000) 24)).
  change 0xFF000000%Z with (Z.shiftl 0xFF 24). rewrite shifted_byte by lia.
  destruct (emplace_u8 _ cg3) as [[] cg4|]; done.
Qed.

Lemma emplace_u16_full v cg :
  max_offset cg < offset cg + 2 ->
  emplace_u16 v cg
  = Abort AssertionFailure (after cg (take (max_offset cg - offset cg) (le_bytes 2 v)) []).
Proof.
  intros H. rewrite emplace_u16_bytewise.
  change (le_bytes 2 v) with ((v mod 256)%Z :: le_bytes 1 (v / 256)%Z) at 1.
  rewrite for_each_emplace_u8 by apply (Forall_le_bytes 2).
  destruct (decide _); [simpl in *; lia|done].
Qed.

Lemma emplace_u32_full v cg :
  max_offset cg < offset cg + 4 ->
  emplace_u32 v cg
  = Abort AssertionFailure (after cg (take (max_offset cg - offset cg) (le_bytes 4 v)) []).
Proof.
  intros H. rewrite emplace_u32_bytewise.
  change (le_bytes 4 v) with ((v mod 256)%Z :: le_bytes 3 (v / 256)%Z) at 1.
  rewrite for_each_emplace_u8 by apply (Forall_le_bytes 4).
  destruct (decide _); [simpl in *; lia|done].
Qed.

(** C9 (as the code has it). [emplace_u8], [emplace_i8], [emplace_chars],
    [emplace_bytes] and [emplace_fill] assert [offset + n <= max_offset]
    before they store anything: a write that does not fit stops on the
    assertion with the buffer and the cursor as they were.  [emplace_u16],
    [emplace_u32], [emplace_i16] and [emplace_i32] have no assertion of
    their own (it is commented out); they store byte by byte through
    [emplace_u8], so a write that does not fit stops on the assertion of the
    first byte without room, after the bytes that did fit have been
    stored. *)
Theorem capacity_assertions (cg : CodeGeneratorBase) :
  (forall v, max_offset cg < offset cg + 1 ->
     emplace_u8 v cg = Abort AssertionFailure cg /\
     emplace_i8 v cg = Abort AssertionFailure cg) /\
  (forall n s, max_offset cg < offset cg + n ->
     emplace_chars n s cg = Abort AssertionFailure cg /\
     emplace_bytes n s cg = Abort AssertionFailure cg) /\
  (forall n v, max_offset cg < offset cg + n ->
     emplace_fill n v cg = Abort AssertionFailure cg) /\
  (forall v, max_offset cg < offset cg + 2 ->
     let fit := take (max_offset cg - offset cg) (le_bytes 2 v) in
     emplace_u16 v cg = Abort AssertionFailure (after cg fit []) /\
     emplace_i16 v cg = Abort AssertionFailure (after cg fit [])) /\
  (forall v, max_offset cg < offset cg + 4 ->
     let fit := take (max_offset cg - offset cg) (le_bytes 4 v) in
     emplace_u32 v cg = Abort AssertionFailure (after cg fit []) /\
     emplace_i32 v cg = Abort AssertionFailure (after cg fit [])).
Proof.
  split; [|split; [|split; [|split]]].
  - intros v H. split; by apply emplace_u8_full.
  - intros n s H. unfold emplace_chars, emplace_bytes.
    destruct (decide _); [lia|done].
  - intros n v H. unfold emplace_fill. destruct (decide _); [lia|done].
  - intros v H fit. split; [by apply emplace_u16_full|].
    unfold emplace_i16, fit. rewrite emplace_u16_full by done.
    by rewrite le_bytes_cast_u16, le_bytes_cast_i16.
  - intros v H fit. split; [by apply emplace_u32_full|].
    unfold emplace_i32, fit. rewrite emplace_u32_full by done.
    by rewrite le_bytes_cast_u32, le_bytes_cast_i32.
Qed.

(** ** The header: the jump and the variables segment *)

Lemma cast_i32_mod v : (cast_i32 v mod 2 ^ 32 = v mod 2 ^ 32)%Z.
Proof. apply (mod_of_signed v (2 ^ 31)). lia. Qed.

Lemma le_bytes_4_congr a b :
  (a mod 2 ^ 32 = b mod 2 ^ 32)%Z -> le_bytes 4 a = le_bytes 4 b.
Proof.
  intros H. rewrite <- (le_bytes_mod 4 a), <- (le_bytes_mod 4 b).
  change (256 ^ Z.of_nat 4)%Z with (2 ^ 32)%Z. by rewrite H.
Qed.

Lemma goto_rel_target skip here :
  le_bytes 4 (cast_i32 (8 + cast_i32 skip + here)) = le_bytes 4 (8 + skip + here).
Proof.
  apply le_bytes_4_congr. rewrite cast_i32_mod.
  rewrite <- Z.add_assoc, (Z.add_comm (cast_i32 skip)), Z.add_assoc.
  rewrite <- Zplus_mod_idemp_r, cast_i32_mod, Zplus_mod_idemp_r.
  f_equal. lia.
Qed.

Lemma emits_goto_rel skip cg :
  offset cg + 7 <= max_offset cg ->
  emits (goto_rel skip) cg tt (trampoline (8 + skip + Z.of_nat (offset cg))) [].
Proof.
  intros H. unfold goto_rel. apply emits_get_offset. eapply emits_eq.
  { eapply emits_bind_state; [apply emits_emplace_u16; lia|].
    intros cg1 Ho1 Hm1 _. simpl in Ho1.
    eapply emits_bind_state; [apply emits_emplace_u8; lia|].
    intros cg2 Ho2 Hm2 _. simpl in Ho2.
    apply emits_emplace_i32. lia. }
  - unfold trampoline. by rewrite goto_rel_target.
  - done.
Qed.

Lemma grows_goto_rel o skip : grows o (goto_rel skip) 7.
Proof.
  unfold goto_rel. apply grows_get_offset. intros here.
  grows_step 2 5. grows_step 1 4. auto with grows.
Qed.

Lemma sum_list_with_const {A} (c : nat) (xs : list A) :
  sum_list_with (fun _ => c) xs = c * length xs.
Proof. induction xs as [|x rest IH]; simpl; lia. Qed.

(** a segment is a jump followed by [k] bytes; the jump skips [skip] *)
Lemma segment_opens_with_trampoline {A} skip (rest : M A) k cg x cg' :
  (forall o, grows o rest k) ->
  ((8 + skip) mod 2 ^ 32 = (7 + Z.of_nat k) mod 2 ^ 32)%Z ->
  (goto_rel skip ≫= λ _, rest) cg = Done x cg' ->
  opens_with_trampoline cg cg'.
Proof.
  intros Hrest Hskip Hrun.
  apply bind_inv in Hrun as ([] & cg1 & Hgoto & Hrun).
  destruct (grows_goto_rel _ skip cg tt cg1 eq_refl Hgoto) as (_ & _ & _ & _ & Hroom).
  specialize (Hroom ltac:(lia)).
  destruct (emits_goto_rel skip cg Hroom) as [_ Hgoto'].
  rewrite Hgoto' in Hgoto. injection Hgoto as <-.
  set (tr := trampoline (8 + skip + Z.of_nat (offset cg))) in *.
  assert (Hlen : length tr = 7) by done.
  destruct (Hrest _ _ _ _ eq_refl Hrun) as (Hoff & _ & _ & Hframe & _).
  rewrite offset_after, Hlen in Hoff, Hframe.
  unfold opens_with_trampoline, emitted.
  rewrite take_take, Nat.min_l by lia.
  rewrite take_drop_commute, Hframe.
  change (bytecode (after cg tr []))
    with (take (offset cg) (bytecode cg) ++ tr
            ++ drop (offset cg + length tr) (bytecode cg)).
  unfold max_offset in Hroom.
  rewrite app_assoc, take_app_length' by (rewrite length_app, length_take; lia).
  rewrite drop_app_length' by (rewrite length_take; lia).
  unfold tr, trampoline. do 2 f_equal. apply le_bytes_4_congr.
  rewrite Hoff. rewrite !Nat2Z.inj_add.
  replace (8 + skip + Z.of_nat (offset cg))%Z
    with (Z.of_nat (offset cg) + (8 + skip))%Z by lia.
  replace (Z.of_nat (offset cg) + Z.of_nat 7 + Z.of_nat k)%Z
    with (Z.of_nat (offset cg) + (7 + Z.of_nat k))%Z by lia.
  rewrite <- Zplus_mod_idemp_r, Hskip, Zplus_mod_idemp_r. done.
Qed.

(** ** The header: every segment is a jump and its data *)

Lemma segment_shape_grows {A} (seg : M A) n o : segment_shape seg n -> grows o seg n.
Proof.
  intros (skip & rest & k & -> & Hrest & _ & ->).
  apply grows_bind; [apply grows_goto_rel|intros _; apply Hrest].
Qed.

Lemma segment_shape_opens {A} (seg : M A) n cg x cg' :
  segment_shape seg n -> seg cg = Done x cg' ->
  take 7 (emitted cg cg') = [2; 0; 1]%Z ++ le_bytes 4 (Z.of_nat (offset cg')) /\
  offset cg' = offset cg + n.
Proof.
  intros Hshape Hrun. split.
  - destruct Hshape as (skip & rest & k & -> & Hrest & Hskip & ->).
    by apply (segment_opens_with_trampoline skip rest k cg x cg').
  - by destruct (segment_shape_grows seg n _ Hshape cg x cg' eq_refl Hrun) as [? _].
Qed.

Lemma u32_sub_nonneg a b : (0 <= u32_sub a b)%Z.
Proof. unfold u32_sub, cast_u32. apply Z.mod_pos_bound. lia. Qed.

Lemma variables_segment_shape h :
  segment_shape (variables_segment h) (variables_segment_bytes h).
Proof.
  unfold variables_segment, variables_segment_bytes.
  eexists _, _, (1 + Z.to_nat (u32_sub (size_global_vars_space h) 8)).
  split; [reflexivity|]. split; [|split].
  - intros o. grows_step 1 (Z.to_nat (u32_sub (size_global_vars_space h) 8)).
    auto with grows.
  - pose proof (u32_sub_nonneg (size_global_vars_space h) 8). f_equal. lia.
  - lia.
Qed.

Lemma models_segment_shape h segid :
  segment_shape (models_segment h segid) (models_segment_bytes h).
Proof.
  unfold models_segment, models_segment_bytes.
  destruct (nextseg_id (version h) segid) as [sid segid'].
  eexists _, _, (1 + (4 + (24 + (24 * length (models h) + 0)))).
  split; [reflexivity|]. split; [|split].
  - intros o. grows_step 1 (4 + (24 + (24 * length (models h) + 0))).
    grows_step 4 (24 + (24 * length (models h) + 0)).
    grows_step 24 (24 * length (models h) + 0).
    apply grows_bind; [|intros ?; apply grows_ret].
    rewrite <- (sum_list_with_const 24 (models h)).
    apply grows_for_each. intros model. auto with grows.
  - f_equal. lia.
  - lia.
Qed.

Lemma scm_info_segment_shape h t segid :
  segment_shape (scm_info_segment h t segid)
                (scm_info_segment_bytes h (length (missions t))).
Proof.
  unfold scm_info_segment, scm_info_segment_bytes.
  destruct (nextseg_id (version h) segid) as [sid segid'].
  set (sa := if decide (version h = SanAndreas) then 4 else 0).
  eexists _, _, (1 + (4 + (4 + (2 + (2 + (sa + (4 * length (missions t) + 0))))))).
  split; [reflexivity|]. split; [|split].
  - intros o. grows_step 1 (4 + (4 + (2 + (2 + (sa + (4 * length (missions t) + 0)))))).
    grows_step 4 (4 + (2 + (2 + (sa + (4 * length (missions t) + 0))))).
    grows_step 4 (2 + (2 + (sa + (4 * length (missions t) + 0)))).
    grows_step 2 (2 + (sa + (4 * length (missions t) + 0))).
    grows_step 2 (sa + (4 * length (missions t) + 0)).
    apply grows_bind.
    { unfold sa. destruct (decide _); auto with grows. }
    intros ?. apply grows_bind; [|intros ?; apply grows_ret].
    rewrite <- (sum_list_with_const 4 (missions t)).
    apply grows_for_each. intros sc.
    apply (grows_bind o _ _ 0 4); [auto with grows|intros ?; auto with grows].
  - f_equal. lia.
  - lia.
Qed.

Lemma grows_streamed_entries o scs virtual_offset :
  grows o (streamed_entries scs virtual_offset) (28 * length scs).
Proof.
  revert virtual_offset. induction scs as [|sc rest IH]; intros virtual_offset.
  - apply grows_ret.
  - cbn [streamed_entries length].
    apply (grows_weaken o _ (20 + (4 + (0 + (4 + 28 * length rest))))); [|lia].
    grows_step 20 (4 + (0 + (4 + 28 * length rest))).
    grows_step 4 (0 + (4 + 28 * length rest)).
    grows_step 0 (4 + 28 * length rest).
    grows_step 4 (28 * length rest). apply IH.
Qed.

Lemma streamed_segment_shape h t segid :
  segment_shape (streamed_segment h t segid)
                (streamed_segment_bytes (length (streameds t))).
Proof.
  unfold streamed_segment, streamed_segment_bytes.
  destruct (nextseg_id (version h) segid) as [sid segid'].
  eexists _, _, (1 + (4 + (4 + (28 * length (streameds t) + (20 + (4 + (4 + 0))))))).
  split; [reflexivity|]. split; [|split].
  - intros o. grows_step 1 (4 + (4 + (28 * length (streameds t) + (20 + (4 + (4 + 0)))))).
    grows_step 4 (4 + (28 * length (streameds t) + (20 + (4 + (4 + 0))))).
    grows_step 4 (28 * length (streameds t) + (20 + (4 + (4 + 0)))).
    apply grows_bind; [apply grows_streamed_entries|intros ?].
    grows_step 20 (4 + (4 + 0)). grows_step 4 (4 + 0). grows_step 4 0.
    apply grows_ret.
  - f_equal. lia.
  - lia.
Qed.

Lemma unknown_segment_shape h segid :
  segment_shape (unknown_segment h segid) unknown_segment_bytes.
Proof.
  unfold unknown_segment, unknown_segment_bytes.
  destruct (nextseg_id (version h) segid) as [sid segid'].
  eexists _, _, (1 + (4 + 0)).
  split; [reflexivity|]. split; [|split; done].
  intros o. grows_step 1 (4 + 0). grows_step 4 0. apply grows_ret.
Qed.

Lemma unknown_segment_2_shape h segid :
  segment_shape (unknown_segment_2 h segid) unknown_segment_2_bytes.
Proof.
  unfold unknown_segment_2, unknown_segment_2_bytes.
  destruct (nextseg_id (version h) segid) as [sid segid'].
  eexists _, _, (1 + (4 + (1 + (1 + (2 + 0))))).
  split; [reflexivity|]. split; [|split; done].
  intros o. grows_step 1 (4 + (1 + (1 + (2 + 0)))).
  grows_step 4 (1 + (1 + (2 + 0))). grows_step 1 (1 + (2 + 0)).
  grows_step 1 (2 + 0). grows_step 2 0. apply grows_ret.
Qed.

(** ** The header: runs that complete *)

Lemma writes_goto_rel skip cg :
  offset cg + 7 <= max_offset cg -> writes (goto_rel skip) cg tt 7.
Proof. intros H. eapply emits_writes; [by apply emits_goto_rel|done]. Qed.

Lemma writes_pure_bind {A B} (m : M A) (f : A -> M B) cg a b k :
  m cg = Done a cg -> writes (f a) cg b k -> writes (m ≫= f) cg b k.
Proof.
  intros Hm (bs & errs & Hlen & Hroom & Hrun). exists bs, errs.
  split; [done|]. split; [done|]. by rewrite (bind_Done _ _ _ _ _ Hm).
Qed.

Lemma writes_variables_segment h cg :
  offset cg + variables_segment_bytes h <= max_offset cg ->
  writes (variables_segment h) cg tt (variables_segment_bytes h).
Proof.
  unfold variables_segment, variables_segment_bytes. intros Hroom.
  rewrite <- !Nat.add_assoc.
  writes_step 7 (1 + Z.to_nat (u32_sub (size_global_vars_space h) 8)) writes_goto_rel.
  writes_step 1 (Z.to_nat (u32_sub (size_global_vars_space h) 8)) writes_emplace_i8.
  apply writes_emplace_fill. lia.
Qed.

Lemma writes_models_segment h segid cg :
  offset cg + models_segment_bytes h <= max_offset cg ->
  writes (models_segment h segid) cg (nextseg_id (version h) segid).2
         (models_segment_bytes h).
Proof.
  unfold models_segment, models_segment_bytes. intros Hroom.
  destruct (nextseg_id (version h) segid) as [sid segid']. cbn [snd].
  apply (writes_weaken _ _ _ (7 + (1 + (4 + (24 + (24 * length (models h) + 0))))));
    [|lia].
  writes_step 7 (1 + (4 + (24 + (24 * length (models h) + 0)))) writes_goto_rel.
  writes_step 1 (4 + (24 + (24 * length (models h) + 0))) writes_emplace_u8.
  writes_step 4 (24 + (24 * length (models h) + 0)) writes_emplace_u32.
  writes_step 24 (24 * length (models h) + 0) writes_emplace_chars.
  eapply writes_bind.
  - rewrite <- (sum_list_with_const 24 (models h)). apply writes_for_each.
    + intros model cg5 _ _ _ Hroom5. by apply writes_emplace_chars.
    + rewrite sum_list_with_const. lia.
  - intros cg5 ? ? ?. apply writes_ret. lia.
Qed.

Lemma writes_scm_info_segment h t segid cg :
  Forall (fun sc => is_Some (script_offset sc)) (missions t) ->
  offset cg + scm_info_segment_bytes h (length (missions t)) <= max_offset cg ->
  writes (scm_info_segment h t segid) cg (nextseg_id (version h) segid).2
         (scm_info_segment_bytes h (length (missions t))).
Proof.
  unfold scm_info_segment, scm_info_segment_bytes. intros Hoffs Hroom.
  destruct (nextseg_id (version h) segid) as [sid segid']. cbn [snd].
  set (sa := if decide (version h = SanAndreas) then 4 else 0) in *.
  apply (writes_weaken _ _ _
    (7 + (1 + (4 + (4 + (2 + (2 + (sa + (4 * length (missions t) + 0)))))))));
    [|lia].
  writes_step 7 (1 + (4 + (4 + (2 + (2 + (sa + (4 * length (missions t) + 0)))))))
    writes_goto_rel.
  writes_step 1 (4 + (4 + (2 + (2 + (sa + (4 * length (missions t) + 0))))))
    writes_emplace_u8.
  writes_step 4 (4 + (2 + (2 + (sa + (4 * length (missions t) + 0))))) writes_emplace_u32.
  writes_step 4 (2 + (2 + (sa + (4 * length (missions t) + 0)))) writes_emplace_u32.
  writes_step 2 (2 + (sa + (4 * length (missions t) + 0))) writes_emplace_u16.
  writes_step 2 (sa + (4 * length (missions t) + 0)) writes_emplace_u16.
  eapply writes_bind.
  { unfold sa in *. destruct (decide _);
      [apply writes_emplace_u32|apply writes_ret]; lia. }
  intros cg7 ? ? ?. eapply writes_bind.
  - rewrite <- (sum_list_with_const 4 (missions t)). apply writes_for_each.
    + intros sc cg8 Hsc _ _ Hroom8.
      rewrite Forall_forall in Hoffs.
      destruct (Hoffs sc) as [off Hoff]; [by apply list_elem_of_In|].
      rewrite Hoff. by apply writes_emplace_i32.
    + rewrite sum_list_with_const. lia.
  - intros cg8 ? ? ?. apply writes_ret. lia.
Qed.

Lemma writes_streamed_entries scs virtual_offset cg :
  Forall (fun sc => is_Some (script_size sc)) scs ->
  offset cg + 28 * length scs <= max_offset cg ->
  writes (streamed_entries scs virtual_offset) cg tt (28 * length scs).
Proof.
  intros Hsizes. revert virtual_offset cg.
  induction Hsizes as [|sc rest [sz Hsz] _ IH]; intros virtual_offset cg Hroom.
  - apply writes_ret. simpl in Hroom. lia.
  - cbn [streamed_entries length] in *. rewrite Hsz.
    apply (writes_weaken _ _ _ (20 + (4 + (4 + 28 * length rest)))); [|lia].
    writes_step 20 (4 + (4 + 28 * length rest)) writes_emplace_chars.
    writes_step 4 (4 + 28 * length rest) writes_emplace_u32.
    match goal with |- writes _ ?c _ _ => set (cg2 := c) in * end.
    change (writes ?m cg2 tt ?k) with
      (writes (emplace_u32 sz ;;
               streamed_entries rest (u32_add virtual_offset sz)) cg2 tt k).
    writes_step 4 (28 * length rest) writes_emplace_u32.
    apply IH. lia.
Qed.

Lemma writes_streamed_segment h t segid cg :
  Forall (fun sc => is_Some (script_size sc)) (streameds t) ->
  offset cg + streamed_segment_bytes (length (streameds t)) <= max_offset cg ->
  writes (streamed_segment h t segid) cg (nextseg_id (version h) segid).2
         (streamed_segment_bytes (length (streameds t))).
Proof.
  unfold streamed_segment, streamed_segment_bytes. intros Hsizes Hroom.
  destruct (nextseg_id (version h) segid) as [sid segid']. cbn [snd].
  set (n := 28 * length (streameds t)) in *.
  apply (writes_weaken _ _ _ (7 + (1 + (4 + (4 + (n + (20 + (4 + (4 + 0))))))))); [|lia].
  writes_step 7 (1 + (4 + (4 + (n + (20 + (4 + (4 + 0))))))) writes_goto_rel.
  writes_step 1 (4 + (4 + (n + (20 + (4 + (4 + 0)))))) writes_emplace_u8.
  writes_step 4 (4 + (n + (20 + (4 + (4 + 0))))) writes_emplace_u32.
  writes_step 4 (n + (20 + (4 + (4 + 0)))) writes_emplace_u32.
  eapply writes_bind.
  { apply writes_streamed_entries; [done|]. fold n. lia. }
  intros cg5 ? ? ?.
  writes_step 20 (4 + (4 + 0)) writes_emplace_chars.
  writes_step 4 (4 + 0) writes_emplace_u32.
  writes_step 4 0 writes_emplace_u32.
  apply writes_ret. lia.
Qed.

Lemma writes_unknown_segment h segid cg :
  offset cg + unknown_segment_bytes <= max_offset cg ->
  writes (unknown_segment h segid) cg (nextseg_id (version h) segid).2
         unknown_segment_bytes.
Proof.
  unfold unknown_segment, unknown_segment_bytes. intros Hroom.
  destruct (nextseg_id (version h) segid) as [sid segid']. cbn [snd].
  apply (writes_weaken _ _ _ (7 + (1 + (4 + 0)))); [|lia].
  writes_step 7 (1 + (4 + 0)) writes_goto_rel.
  writes_step 1 (4 + 0) writes_emplace_u8.
  writes_step 4 0 writes_emplace_u32.
  apply writes_ret. lia.
Qed.

Lemma writes_unknown_segment_2 h segid cg :
  offset cg + unknown_segment_2_bytes <= max_offset cg ->
  writes (unknown_segment_2 h segid) cg (nextseg_id (version h) segid).2
         unknown_segment_2_bytes.
Proof.
  unfold unknown_segment_2, unknown_segment_2_bytes. intros Hroom.
  destruct (nextseg_id (version h) segid) as [sid segid']. cbn [snd].
  apply (writes_weaken _ _ _ (7 + (1 + (4 + (1 + (1 + (2 + 0))))))); [|lia].
  writes_step 7 (1 + (4 + (1 + (1 + (2 + 0))))) writes_goto_rel.
  writes_step 1 (4 + (1 + (1 + (2 + 0)))) writes_emplace_u8.
  writes_step 4 (1 + (1 + (2 + 0))) writes_emplace_u32.
  writes_step 1 (1 + (2 + 0)) writes_emplace_u8.
  writes_step 1 (2 + 0) writes_emplace_u8.
  writes_step 2 0 writes_emplace_u16.
  apply writes_ret. lia.
Qed.

(** ** The header: the loop over the scripts *)

Lemma scan_script_inv t sc cg t' cg' :
  scan_script t sc cg = Done t' cg' ->
  cg' = cg /\
  missions t' = missions t ++ filter (fun sc => script_type sc = Mission) [sc] /\
  streameds t' = streameds t ++ filter (fun sc => script_type sc = StreamedScript) [sc].
Proof.
  unfold scan_script. intros H.
  destruct (script_size sc) as [sz|]; [|by repeat destruct (decide _)].
  cbn [filter list_filter].
  destruct (decide (script_type sc = Mission)) as [Hm|Hm].
  - injection H as <- <-. cbn [missions streameds].
    destruct (decide (script_type sc = StreamedScript)); [congruence|].
    by rewrite app_nil_r.
  - destruct (decide (script_type sc = StreamedScript)) as [Hs|Hs];
      injection H as <- <-; cbn [missions streameds]; by rewrite ?app_nil_r.
Qed.

Lemma scan_script_run t sc cg :
  is_Some (script_size sc) -> exists t', scan_script t sc cg = Done t' cg.
Proof.
  intros [sz Hsz]. unfold scan_script. rewrite Hsz.
  repeat destruct (decide _); eexists; reflexivity.
Qed.

Lemma scan_scripts_inv t scs cg t' cg' :
  scan_scripts t scs cg = Done t' cg' ->
  cg' = cg /\
  missions t' = missions t ++ filter (fun sc => script_type sc = Mission) scs /\
  streameds t' = streameds t ++ filter (fun sc => script_type sc = StreamedScript) scs.
Proof.
  revert t cg. induction scs as [|sc rest IH]; intros t cg H.
  - injection H as <- <-. by rewrite !app_nil_r.
  - cbn [scan_scripts] in H. apply bind_inv in H as (t1 & cg1 & H1 & H2).
    apply scan_script_inv in H1 as (-> & Hm1 & Hs1).
    apply IH in H2 as (-> & Hm2 & Hs2).
    split; [done|]. rewrite Hm2, Hm1, Hs2, Hs1, <- !app_assoc.
    change (sc :: rest) with ([sc] ++ rest). by rewrite !list.filter_app.
Qed.

Lemma scan_scripts_run t scs cg :
  Forall (fun sc => is_Some (script_size sc)) scs ->
  exists t', scan_scripts t scs cg = Done t' cg.
Proof.
  intros Hsizes. revert t. induction Hsizes as [|sc rest Hsc _ IH]; intros t.
  - by exists t.
  - destruct (scan_script_run t sc cg Hsc) as [t1 H1].
    destruct (IH t1) as [t' H']. exists t'.
    cbn [scan_scripts]. by rewrite (bind_Done _ _ _ _ _ H1).
Qed.

(** ** The header as a whole *)

Lemma grows_header_segments o h t :
  grows o (header_segments h t)
    (variables_segment_bytes h + models_segment_bytes h
     + scm_info_segment_bytes h (length (missions t))
     + (if decide (version h = SanAndreas)
        then streamed_segment_bytes (length (streameds t))
             + unknown_segment_bytes + unknown_segment_2_bytes
        else 0)).
Proof.
  unfold header_segments. rewrite <- !Nat.add_assoc.
  apply grows_bind; [apply segment_shape_grows, variables_segment_shape|intros _].
  apply grows_bind; [apply segment_shape_grows, models_segment_shape|intros s1].
  apply grows_bind; [apply segment_shape_grows, scm_info_segment_shape|intros s2].
  destruct (decide (version h = SanAndreas)).
  - apply grows_bind; [apply segment_shape_grows, streamed_segment_shape|intros s3].
    apply (grows_weaken o _ (unknown_segment_bytes + (unknown_segment_2_bytes + 0)));
      [|lia].
    apply grows_bind; [apply segment_shape_grows, unknown_segment_shape|intros s4].
    apply grows_bind; [apply segment_shape_grows, unknown_segment_2_shape|intros s5].
    apply grows_ret.
  - apply (grows_bind o _ _ 0 0); [apply grows_ret|intros s3].
    apply (grows_bind o _ _ 0 0); [apply grows_ret|intros s4].
    apply grows_ret.
Qed.

Lemma grows_generate_code_CompiledScmHeader o h :
  grows o (generate_code_CompiledScmHeader h) (header_bytes h).
Proof.
  intros cg a cg' Ho Hrun. unfold generate_code_CompiledScmHeader in Hrun.
  apply bind_inv in Hrun as (t & cg1 & Hscan & Hrun).
  apply scan_scripts_inv in Hscan as (-> & Hm & Hs). cbn in Hm, Hs.
  pose proof (grows_header_segments o h t cg a cg' Ho Hrun) as Hg.
  rewrite Hm, Hs in Hg. exact Hg.
Qed.

Lemma writes_header_segments h t cg :
  Forall (fun sc => is_Some (script_offset sc)) (missions t) ->
  Forall (fun sc => is_Some (script_size sc)) (streameds t) ->
  let n := variables_segment_bytes h + models_segment_bytes h
           + scm_info_segment_bytes h (length (missions t))
           + (if decide (version h = SanAndreas)
              then streamed_segment_bytes (length (streameds t))
                   + unknown_segment_bytes + unknown_segment_2_bytes
              else 0) in
  offset cg + n <= max_offset cg ->
  writes (header_segments h t) cg tt n.
Proof.
  intros Hoffs Hsizes n Hroom. unfold n in *. unfold header_segments.
  rewrite <- !Nat.add_assoc in *.
  eapply writes_bind; [apply writes_variables_segment; lia|intros cg1 ? ? ?].
  eapply writes_bind; [apply writes_models_segment; lia|intros cg2 ? ? ?].
  eapply writes_bind; [apply writes_scm_info_segment; [done|lia]|intros cg3 ? ? ?].
  destruct (decide (version h = SanAndreas)).
  - eapply writes_bind; [apply writes_streamed_segment; [done|lia]|intros cg4 ? ? ?].
    apply (writes_weaken _ _ _ (unknown_segment_bytes + (unknown_segment_2_bytes + 0)));
      [|lia].
    eapply writes_bind; [apply writes_unknown_segment; lia|intros cg5 ? ? ?].
    eapply writes_bind; [apply writes_unknown_segment_2; lia|intros cg6 ? ? ?].
    apply writes_ret. lia.
  - eapply (writes_bind _ _ _ _ _ 0 0); [apply writes_ret; lia|intros cg4 ? ? ?].
    eapply (writes_bind _ _ _ _ _ 0 0); [apply writes_ret; lia|intros cg5 ? ? ?].
    apply writes_ret. lia.
Qed.

Lemma writes_generate_code_CompiledScmHeader h cg :
  wf_header h ->
  offset cg + header_bytes h <= max_offset cg ->
  writes (generate_code_CompiledScmHeader h) cg tt (header_bytes h).
Proof.
  intros (_ & _ & Hsizes & Hoffs) Hroom. unfold generate_code_CompiledScmHeader.
  set (t0 := initial_totals _).
  destruct (scan_scripts_run t0 (scripts h) cg Hsizes) as [t Hscan].
  eapply writes_pure_bind; [exact Hscan|].
  apply scan_scripts_inv in Hscan as (_ & Hm & Hs). cbn in Hm, Hs.
  fold (mission_scripts h) in Hm. fold (streamed_scripts h) in Hs.
  unfold header_bytes in *. rewrite <- Hm, <- Hs in Hroom |- *.
  apply writes_header_segments; [by rewrite Hm| |done].
  rewrite Hs. unfold streamed_scripts.
  rewrite Forall_forall in Hsizes |- *. intros sc Hsc. apply Hsizes.
  apply list_elem_of_In in Hsc. apply list_elem_of_In.
  by apply list_elem_of_filter in Hsc as [_ ?].
Qed.

Lemma compiled_size_vs_header_bytes h :
  (8 <= size_global_vars_space h)%Z ->
  (size_global_vars_space h + 12 < 2 ^ 32)%Z ->
  CompiledScmHeader_compiled_size h + 4 * length (mission_scripts h)
    + (if decide (version h = SanAndreas) then 28 * length (streamed_scripts h) else 0)
  = header_bytes h + 4 * num_missions h
    + (if decide (version h = SanAndreas) then 28 * num_streamed h else 0).
Proof.
  intros H8 H32.
  unfold CompiledScmHeader_compiled_size, header_bytes, variables_segment_bytes,
    models_segment_bytes, scm_info_segment_bytes, streamed_segment_bytes,
    unknown_segment_bytes, unknown_segment_2_bytes.
  set (sg := size_global_vars_space h) in *.
  assert (Hsub : u32_sub sg 8 = (sg - 8)%Z)
    by (unfold u32_sub; apply cast_u32_small; lia).
  assert (Hadd : u32_add (u32_add (u32_add 8 (u32_sub sg 8)) 8) 4 = (sg + 12)%Z).
  { rewrite Hsub. unfold u32_add.
    rewrite (cast_u32_small (8 + (sg - 8))) by lia.
    rewrite (cast_u32_small (8 + (sg - 8) + 8)) by lia.
    rewrite cast_u32_small by lia. lia. }
  rewrite Hadd, Hsub. clear Hadd Hsub. clearbody sg.
  set (m := length (mission_scripts h)). set (k := length (streamed_scripts h)).
  set (nm := length (models h)). clearbody m k nm.
  destruct (version h); repeat destruct (decide _); try congruence; lia.
Qed.



Lemma emits_variables_segment h cg :
  (8 <= size_global_vars_space h < 2 ^ 32)%Z ->
  offset cg + Z.to_nat (size_global_vars_space h) <= max_offset cg ->
  emits (variables_segment h) cg tt
    ([2; 0; 1]%Z ++ le_bytes 4 (Z.of_nat (offset cg) + size_global_vars_space h)
       ++ [target_id (version h)]
       ++ replicate (Z.to_nat (size_global_vars_space h - 8)) 0%Z) [].
Proof.
  intros Hsg Hroom. unfold variables_segment.
  set (sg := size_global_vars_space h) in *.
  assert (Hsub : u32_sub sg 8 = (sg - 8)%Z)
    by (unfold u32_sub; apply cast_u32_small; lia).
  rewrite Hsub. eapply emits_eq.
  { eapply emits_bind_state; [apply emits_goto_rel; lia|].
    intros cg1 Ho1 Hm1 _. change (length (trampoline _)) with 7 in Ho1.
    eapply emits_bind_state; [apply emits_emplace_i8; lia|].
    intros cg2 Ho2 Hm2 _. simpl in Ho2. apply emits_emplace_fill. lia. }
  - unfold trampoline. rewrite <- !app_assoc.
    replace (8 + (sg - 8) + Z.of_nat (offset cg))%Z
      with (Z.of_nat (offset cg) + sg)%Z by lia.
    replace (le_bytes 1 (target_id (version h))) with [target_id (version h)]
      by (by destruct (version h)).
    done.
  - done.
Qed.

(** C6 (as the code has it). For every dialect and a
    [size_global_vars_space] of at least 8, the variables segment is the
    7-byte jump (0x0002, tag 0x01, the 32-bit position just behind the
    segment), the one-byte [target_id] ('\\0' for Liberty, 'm' for Miami,
    's' for SanAndreas) and then exactly [size_global_vars_space - 8] zero
    bytes: [size_global_vars_space - 7] bytes behind the jump and
    [size_global_vars_space] bytes in all. *)
Theorem variables_segment_layout (h : CompiledScmHeader) (cg : CodeGeneratorBase) :
  let sg := size_global_vars_space h in
  (8 <= sg < 2 ^ 32)%Z ->
  offset cg + Z.to_nat sg <= max_offset cg ->
  let body := target_id (version h) :: replicate (Z.to_nat (sg - 8)) 0%Z in
  variables_segment h cg
  = Done tt (after cg (([2; 0; 1]%Z ++ le_bytes 4 (Z.of_nat (offset cg) + sg)) ++ body) [])
  /\ length body = Z.to_nat sg - 7
  /\ 7 + length body = Z.to_nat sg
  /\ target_id Liberty = 0%Z /\ target_id Miami = 109%Z /\ target_id SanAndreas = 115%Z.
Proof.
  intros sg Hsg Hroom body. split.
  - destruct (emits_variables_segment h cg Hsg Hroom) as [_ Hrun].
    rewrite Hrun. unfold body. by rewrite <- !app_assoc.
  - unfold body. cbn [length]. rewrite length_replicate. repeat split; lia.
Qed.

Lemma max_offset_setup_buffer junk n cg : max_offset (setup_buffer junk n cg) = n.
Proof. unfold max_offset, setup_buffer. simpl. by rewrite length_map, length_seq. Qed.

Lemma counts_agree_entries h :
  counts_agree h -> declared_entries_bytes h = listed_entries_bytes h.
Proof.
  intros [Hm Hs]. unfold declared_entries_bytes, listed_entries_bytes.
  rewrite Hm. destruct (decide _) as [Hsa|]; [|done]. by rewrite (Hs Hsa).
Qed.

Lemma compiled_size_vs_entries h :
  (8 <= size_global_vars_space h)%Z ->
  (size_global_vars_space h + 12 < 2 ^ 32)%Z ->
  CompiledScmHeader_compiled_size h + listed_entries_bytes h
  = header_bytes h + declared_entries_bytes h.
Proof.
  intros H8 H32. pose proof (compiled_size_vs_header_bytes h H8 H32).
  unfold declared_entries_bytes, listed_entries_bytes. lia.
Qed.

(** C10 (as the code has it). For a header whose
    [size_global_vars_space] is at least 8 (and below 2^32 - 12), whose
    scripts all have their size and whose missions all have their offset:
    when [num_missions] is the number of mission scripts and, for
    SanAndreas, [num_streamed] the number of streamed scripts,
    [CodeGeneratorData::generate] runs to its end (no assertion fires) and
    leaves the cursor at the capacity, which is [compiled_size()].  Whenever
    it runs to its end it has stored [header_bytes] bytes, and these differ
    from [compiled_size()] as soon as the declared mission and streamed
    tables differ in size from the listed ones: always for a wrong
    [num_missions] in Liberty and Miami, where [num_streamed] plays no
    part. *)
Theorem header_generate_fills_buffer (junk : nat -> Z) (cg : CodeGeneratorData) :
  let h := data_compiled cg in
  wf_header h ->
  (counts_agree h ->
     exists cg', CodeGeneratorData_generate junk cg = Done tt cg' /\
       offset cg' = max_offset cg' /\
       max_offset cg' = CompiledScmHeader_compiled_size h) /\
  (forall cg', CodeGeneratorData_generate junk cg = Done tt cg' ->
     offset cg' = header_bytes h /\
     max_offset cg' = CompiledScmHeader_compiled_size h) /\
  (CompiledScmHeader_compiled_size h = header_bytes h <->
     declared_entries_bytes h = listed_entries_bytes h) /\
  (version h ≠ SanAndreas -> num_missions h ≠ length (mission_scripts h) ->
     CompiledScmHeader_compiled_size h ≠ header_bytes h).
Proof.
  intros h Hwf. pose proof Hwf as (H8 & H32 & _ & _).
  pose proof (compiled_size_vs_entries h H8 H32) as Hsize.
  unfold CodeGeneratorData_generate. fold h.
  set (cg0 := setup_buffer junk (CompiledScmHeader_compiled_size h) (data_base cg)).
  assert (Hmax0 : max_offset cg0 = CompiledScmHeader_compiled_size h)
    by apply max_offset_setup_buffer.
  split; [|split; [|split]].
  - intros Hcounts. apply counts_agree_entries in Hcounts.
    destruct (writes_offset (generate_code_CompiledScmHeader h) cg0 tt (header_bytes h))
      as (cg' & Hrun & Hoff & Hmax).
    { apply writes_generate_code_CompiledScmHeader; [done|].
      rewrite Hmax0. change (offset cg0) with 0. lia. }
    exists cg'. split; [done|]. change (offset cg0) with 0 in Hoff. lia.
  - intros cg' Hrun.
    destruct (grows_generate_code_CompiledScmHeader _ h cg0 tt cg' eq_refl Hrun)
      as (Hoff & Hmax & _).
    change (offset cg0) with 0 in Hoff. split; [lia|congruence].
  - lia.
  - intros Hv Hm. unfold declared_entries_bytes, listed_entries_bytes in Hsize.
    destruct (decide (version h = SanAndreas)); [done|]. lia.
Qed.

(** ** The theorems at sample inputs *)

Lemma generate_code_writes_compiled_size_witness :
  let cg := fresh_buffer options_none 32 in
  exists cg',
    generate_code sample_labels main_script sample_command cg = Done tt cg' /\
    offset cg' = offset cg + compiled_size sample_command (opt (program cg)) /\
    length (emitted cg cg') = compiled_size sample_command (opt (program cg)).
Proof.
  intros cg.
  apply (proj2 (generate_code_writes_compiled_size
                  sample_labels main_script sample_command cg)).
  - unfold wf_CompiledData. simpl.
    repeat constructor; try (vm_compute; eauto; fail).
  - vm_compute. lia.
Defined.

Lemma compute_labels_resolves_witness :
  fst (compute_labels sample_script sample_labels) = 23%Z /\
  local_offset (snd (compute_labels sample_script sample_labels) 5) = Some 21%Z /\
  local_offset (snd (compute_labels sample_script sample_labels) 6) = Some 21%Z /\
  local_offset (snd (compute_labels sample_script sample_labels) 7) = Some 23%Z.
Proof.
  destruct (compute_labels_resolves sample_script sample_labels)
    as (Hsize & Hlabel & Hpair & _ & _).
  - vm_compute. reflexivity.
  - split; [exact Hsize|]. split; [|split].
    + apply (Hlabel [sample_command] {| label := 5 |}
               [{| data := Data_LabelDef {| label := 6 |} |};
                {| data := Data_int8 5 |};
                {| data := Data_LabelDef {| label := 7 |} |}]); [reflexivity|].
      simpl. rewrite !not_elem_of_cons. repeat split; try lia. apply not_elem_of_nil.
    + apply (Hlabel [sample_command; {| data := Data_LabelDef {| label := 5 |} |}]
               {| label := 6 |}
               [{| data := Data_int8 5 |};
                {| data := Data_LabelDef {| label := 7 |} |}]); [reflexivity|].
      simpl. rewrite !not_elem_of_cons. repeat split; try lia. apply not_elem_of_nil.
    + apply (Hlabel [sample_command; {| data := Data_LabelDef {| label := 5 |} |};
                     {| data := Data_LabelDef {| label := 6 |} |};
                     {| data := Data_int8 5 |}]
               {| label := 7 |} []); [reflexivity|].
      simpl. apply not_elem_of_nil.
Defined.

Lemma local_offsets_option_negates_label_offset_witness :
  let cg := fresh_buffer options_local 5 in
  exists errs,
    generate_code_Label sample_labels main_script 0 cg
    = Done tt (after cg (1%Z :: le_bytes 4 (- (0x100 + 0x10))) errs).
Proof.
  intros cg.
  apply (local_offsets_option_negates_label_offset
           sample_labels main_script 0 cg 0x100 0x10).
  - reflexivity.
  - reflexivity.
  - reflexivity.
  - vm_compute. lia.
Defined.

(** C3, counterexample.  Label 0 has local offset 0x10 in a script placed
    at 0x100.  With [use_local_offsets] the reference is emitted as
    01 F0 FE FF FF, the negation of 0x110, and not as the negation of the
    local offset 0x10, which would be 01 F0 FF FF FF. *)
Lemma local_offsets_option_counterexample :
  let cg := fresh_buffer options_local 5 in
  use_local_offsets (opt (program cg)) = true /\
  local_offset (sample_labels 0) = Some 0x10%Z /\
  exists cg',
    generate_code_Label sample_labels main_script 0 cg = Done tt cg' /\
    emitted cg cg' = [0x01; 0xF0; 0xFE; 0xFF; 0xFF]%Z /\
    emitted cg cg' <> 1%Z :: le_bytes 4 (- 0x10).
Proof.
  intros cg. split; [reflexivity|]. split; [reflexivity|].
  eexists. split; [vm_compute; reflexivity|].
  split; [vm_compute; reflexivity|]. vm_compute. discriminate.
Qed.

Lemma zero_offset_reference_reported_witness :
  let cg := fresh_buffer options_none 5 in
  generate_code_Label sample_labels mission_script 1 cg
  = Done tt (after cg [1; 0; 0; 0; 0]%Z [zero_offset_message]) /\
  generate_code_Label sample_labels mission_script 2 cg
  = Done tt (after cg (1%Z :: le_bytes 4 (- 8)) []).
Proof.
  intros cg. split.
  - apply (zero_offset_reference_reported sample_labels mission_script 1 cg 0).
    + reflexivity.
    + vm_compute. eauto.
    + vm_compute. lia.
    + reflexivity.
  - apply (zero_offset_reference_reported sample_labels mission_script 2 cg 8).
    + reflexivity.
    + vm_compute. eauto.
    + vm_compute. lia.
    + discriminate.
Defined.

Lemma float_encoding_precedence_witness :
  let cg := fresh_buffer options_compact 4 in
  compiled_size_float 0%Z (opt (program cg)) = 2 /\
  generate_code_float 0%Z cg = Done tt (after cg [4; 0]%Z []) /\
  generate_code sample_labels main_script
    {| data := Data_Command {| id := 0x0002; args := [Arg_float 0%Z] |} |} cg
  = Done tt (after cg [2; 0; 4; 0]%Z []) /\
  (* 1.0, -2.5 and 0.3: sixteen times the value is 16, -40 and 4.8 *)
  generate_code_float 0x3F800000%Z cg = Done tt (after cg [6; 0x10; 0]%Z []) /\
  generate_code_float 0xC0200000%Z cg = Done tt (after cg [6; 0xD8; 0xFF]%Z []) /\
  generate_code_float 0x3E99999A%Z cg = Done tt (after cg [6; 4; 0]%Z []).
Proof.
  intros cg.
  destruct (float_encoding_precedence 0%Z cg) as (Hzero & _ & _ & _).
  { vm_compute. lia. }
  destruct Hzero as (Hsize & Hrun & Hcmd); [reflexivity..|].
  destruct (float_encoding_precedence 0x3F800000%Z cg) as (_ & _ & _ & Hone).
  { vm_compute. lia. }
  destruct (float_encoding_precedence 0xC0200000%Z cg) as (_ & _ & _ & Hneg).
  { vm_compute. lia. }
  destruct (float_encoding_precedence 0x3E99999A%Z cg) as (_ & _ & _ & Hcut).
  { vm_compute. lia. }
  destruct Hone as (_ & _ & _ & Hone); [lia|].
  destruct Hneg as (_ & _ & _ & Hneg); [lia|].
  destruct Hcut as (_ & _ & _ & Hcut); [lia|].
  split; [exact Hsize|]. split; [exact Hrun|].
  split; [apply Hcmd; vm_compute; lia|].
  split; [|split].
  - apply (Hone ltac:(by intros [_ [_ H]]) eq_refl 16%Z). reflexivity.
  - apply (Hneg ltac:(by intros [_ [_ H]]) eq_refl (-40)%Z). reflexivity.
  - apply (Hcut ltac:(by intros [_ [_ H]]) eq_refl 4%Z). reflexivity.
Defined.

Lemma variables_segment_layout_witness :
  let h := sample_header Miami [] 0 0 in
  let cg := fresh_buffer options_none 16 in
  variables_segment h cg
  = Done tt (after cg (([2; 0; 1]%Z ++ le_bytes 4 16) ++ 109%Z :: replicate 8 0%Z) []).
Proof.
  intros h cg.
  apply (variables_segment_layout h cg).
  - simpl. lia.
  - vm_compute. lia.
Defined.

(** C6, counterexample.  Miami, [size_global_vars_space] = 16: behind the
    7 bytes of the jump come the byte 'm' and 8 zero bytes, not the
    16 - 8 - 1 = 7 zero bytes and 16 - 8 = 8 bytes in all of the claim. *)
Lemma variables_segment_body_counterexample :
  let h := sample_header Miami [] 0 0 in
  let cg := fresh_buffer options_none 16 in
  (8 <= size_global_vars_space h)%Z /\
  exists cg',
    variables_segment h cg = Done tt cg' /\
    take 7 (emitted cg cg') = [2; 0; 1; 16; 0; 0; 0]%Z /\
    drop 7 (emitted cg cg') = 109%Z :: replicate 8 0%Z /\
    drop 7 (emitted cg cg') <> 109%Z :: replicate (16 - 8 - 1) 0%Z /\
    length (drop 7 (emitted cg cg')) <> 16 - 8.
Proof.
  intros h cg. split; [simpl; lia|].
  eexists. split; [vm_compute; reflexivity|].
  split; [vm_compute; reflexivity|]. split; [vm_compute; reflexivity|].
  split; vm_compute; discriminate.
Qed.


Lemma emplace_chars_zero_pads_witness :
  let cg := fresh_buffer options_compact 9 in
  (exists cg',
     emplace_chars 8 hello cg = Done tt cg' /\
     emitted cg cg' = [72; 69; 76; 76; 79; 0; 0; 0]%Z) /\
  generate_code_CompiledString {| string_type := StrTextLabel8; storage := hello |} cg
  = Done tt (after cg [9; 72; 69; 76; 76; 79; 0; 0; 0]%Z []).
Proof.
  intros cg.
  destruct (emplace_chars_zero_pads 8 hello cg) as (Hpad & _ & Hlabel).
  - vm_compute. lia.
  - vm_compute. lia.
  - split.
    + destruct Hpad as (cg' & Hrun & _ & Hbytes & _).
      exists cg'. split; [exact Hrun|]. rewrite Hbytes. reflexivity.
    + apply Hlabel; [reflexivity|vm_compute; lia].
Defined.

Lemma capacity_assertions_witness :
  let cg := fresh_buffer options_none 1 in
  emplace_u16 0x1234 cg
  = Abort AssertionFailure (after cg [0x34%Z] []) /\
  emplace_chars 2 hello cg = Abort AssertionFailure cg.
Proof.
  intros cg.
  destruct (capacity_assertions cg) as (_ & Hchars & _ & Hu16 & _).
  split.
  - destruct (Hu16 0x1234%Z) as [Hrun _]; [vm_compute; lia|]. exact Hrun.
  - destruct (Hchars 2 hello) as [Hrun _]; [vm_compute; lia|]. exact Hrun.
Defined.

(** C9, counterexample.  One byte of room is left and [emplace_u16] is
    asked for two: the low byte 0x34 is stored and the cursor moved before
    the assertion, the one of [emplace_u8], stops the run. *)
Lemma emplace_u16_partial_write_counterexample :
  let cg := fresh_buffer options_none 1 in
  max_offset cg < offset cg + 2 /\
  exists cg',
    emplace_u16 0x1234 cg = Abort AssertionFailure cg' /\
    bytecode cg = [0xAA%Z] /\
    bytecode cg' = [0x34%Z] /\
    offset cg' = 1 /\
    bytecode cg' <> bytecode cg.
Proof.
  intros cg. split; [vm_compute; lia|].
  eexists. split; [vm_compute; reflexivity|].
  repeat split; try reflexivity. vm_compute. discriminate.
Qed.

Lemma header_generate_fills_buffer_witness :
  let h := sample_header SanAndreas [main_script; mission_script; streamed_script] 1 1 in
  let cg := {| data_base := fresh_buffer options_none 0; data_compiled := h |} in
  exists cg',
    CodeGeneratorData_generate (fun _ => 0xAA%Z) cg = Done tt cg' /\
    offset cg' = max_offset cg' /\
    max_offset cg' = CompiledScmHeader_compiled_size h.
Proof.
  intros h cg.
  destruct (header_generate_fills_buffer (fun _ => 0xAA%Z) cg) as (Hfills & _).
  - unfold wf_header. simpl. split; [lia|]. split; [lia|].
    split; repeat constructor; vm_compute; eauto.
  - apply Hfills. split; [reflexivity|]. intros _. reflexivity.
Defined.

(** C10, counterexample.  A Liberty header without scripts that declares
    three streamed scripts: [num_streamed] disagrees with the script list,
    yet what is emitted is exactly [compiled_size()] bytes.  And a header that
    meets all three conditions of the claim but has a mission without an
    offset does not run to its end. *)
Lemma header_counts_counterexample :
  let junk := fun _ : nat => 0xAA%Z in
  let stale := sample_header Liberty [] 0 3 in
  let placed := sample_header Liberty [unplaced_mission] 1 0 in
  (num_streamed stale <> length (streamed_scripts stale) /\
   exists cg',
     CodeGeneratorData_generate junk
       {| data_base := fresh_buffer options_none 0; data_compiled := stale |}
     = Done tt cg' /\
     offset cg' = CompiledScmHeader_compiled_size stale /\
     offset cg' = max_offset cg') /\
  (num_missions placed = length (mission_scripts placed) /\
   num_streamed placed = length (streamed_scripts placed) /\
   Forall (fun sc => is_Some (script_size sc)) (scripts placed) /\
   exists cg',
     CodeGeneratorData_generate junk
       {| data_base := fresh_buffer options_none 0; data_compiled := placed |}
     = Abort BadOptionalAccess cg' /\
     offset cg' < CompiledScmHeader_compiled_size placed).
Proof.
  intros junk stale placed. split.
  - split; [vm_compute; discriminate|].
    eexists. split; [vm_compute; reflexivity|]. split; reflexivity.
  - split; [reflexivity|]. split; [reflexivity|].
    split; [repeat constructor; vm_compute; eauto|].
    eexists. split; [vm_compute; reflexivity|]. vm_compute. lia.
Qed.

(** ** Every run stays within the buffer *)

Lemma within_refl cg : offset cg <= max_offset cg -> within cg cg.
Proof. intros H. repeat split; auto. Qed.

Lemma within_trans cg1 cg2 cg3 : within cg1 cg2 -> within cg2 cg3 -> within cg1 cg3.
Proof.
  intros (Hm1 & Ho1 & Ht1 & Hd1 & Hp1 & He1) (Hm2 & Ho2 & Ht2 & Hd2 & Hp2 & He2).
  repeat split; try lia; try congruence.
  - rewrite <- Ht1.
    rewrite <- (take_prefix (bytecode cg3) (offset cg1) (offset cg2)) by lia.
    rewrite Ht2. apply take_prefix. lia.
  - rewrite Hd2.
    replace (offset cg3) with (offset cg2 + (offset cg3 - offset cg2)) by lia.
    by rewrite <- !drop_drop, Hd1.
  - by etrans.
Qed.

Lemma keeps_within_ret {A} (a : A) : keeps_within (mret a).
Proof. intros cg H. by apply within_refl. Qed.

Lemma keeps_within_throw {A} why : keeps_within (@throw A why).
Proof. intros cg H. by apply within_refl. Qed.

Lemma keeps_within_bind {A B} (m : M A) (f : A -> M B) :
  keeps_within m -> (forall a, keeps_within (f a)) -> keeps_within (m ≫= f).
Proof.
  intros Hm Hf cg H. specialize (Hm cg H).
  unfold mbind, M_bind, bind. destruct (m cg) as [a cg1|why cg1]; simpl in *.
  - eapply within_trans; [exact Hm|]. apply Hf. destruct Hm as (? & ? & _). lia.
  - exact Hm.
Qed.

Lemma keeps_within_value {A} (x : option A) : keeps_within (value x).
Proof. destruct x; [apply keeps_within_ret|apply keeps_within_throw]. Qed.

Lemma keeps_within_assert b : keeps_within (assert b).
Proof. destruct b; [apply keeps_within_ret|apply keeps_within_throw]. Qed.

Lemma keeps_within_Expects b : keeps_within (Expects b).
Proof. destruct b; [apply keeps_within_ret|apply keeps_within_throw]. Qed.

Lemma keeps_within_get_opt : keeps_within get_opt.
Proof. intros cg H. by apply within_refl. Qed.

Lemma keeps_within_get_offset : keeps_within get_offset.
Proof. intros cg H. by apply within_refl. Qed.

Lemma keeps_within_program_error msg : keeps_within (program_error msg).
Proof.
  intros cg H. unfold program_error, within, max_offset in *. simpl.
  repeat split; auto. by apply prefix_app_r.
Qed.

Lemma keeps_within_emplace_u8 v : keeps_within (emplace_u8 v).
Proof.
  intros cg H. unfold emplace_u8.
  destruct (decide _) as [Hroom|]; [|by apply within_refl].
  unfold within, max_offset in *. simpl.
  rewrite length_insert, take_insert_ge, drop_insert_lt by lia.
  repeat split; auto; lia.
Qed.

Lemma drop_list_inserts (k l : list Z) (i n : nat) :
  i + length k <= n -> drop n (list_inserts i k l) = drop n l.
Proof.
  revert i. induction k as [|y k IH]; intros i Hn; [done|].
  simpl in *. rewrite drop_insert_lt by lia. apply IH. lia.
Qed.

Lemma within_list_inserts cg count bs :
  length bs <= count ->
  offset cg + count <= max_offset cg ->
  within cg {| program := program cg;
               bytecode := list_inserts (offset cg) bs (bytecode cg);
               offset := offset cg + count |}.
Proof.
  intros Hbs Hroom. unfold within, max_offset in *. simpl.
  rewrite length_inserts, take_list_inserts, drop_list_inserts by lia.
  repeat split; auto; lia.
Qed.

Lemma keeps_within_emplace_chars count src : keeps_within (emplace_chars count src).
Proof.
  intros cg H. unfold emplace_chars.
  destruct (decide _) as [Hroom|]; [|by apply within_refl].
  apply within_list_inserts; [by rewrite length_strncpy|done].
Qed.

Lemma keeps_within_emplace_bytes count bytes : keeps_within (emplace_bytes count bytes).
Proof.
  intros cg H. unfold emplace_bytes.
  destruct (decide _) as [Hroom|]; [|by apply within_refl].
  apply within_list_inserts; [rewrite length_take; lia|done].
Qed.

Lemma keeps_within_emplace_fill count val : keeps_within (emplace_fill count val).
Proof.
  intros cg H. unfold emplace_fill.
  destruct (decide _) as [Hroom|]; [|by apply within_refl].
  apply within_list_inserts; [by rewrite length_replicate|done].
Qed.

Lemma keeps_within_for_each {A} (body : A -> M unit) xs :
  (forall x, keeps_within (body x)) -> keeps_within (for_each body xs).
Proof.
  intros Hbody. induction xs as [|x rest IH]; simpl.
  - apply keeps_within_ret.
  - apply keeps_within_bind; [apply Hbody|intros _; apply IH].
Qed.

Create HintDb within discriminated.
#[global] Hint Resolve keeps_within_ret keeps_within_throw keeps_within_value
  keeps_within_assert keeps_within_Expects keeps_within_get_opt
  keeps_within_get_offset keeps_within_program_error keeps_within_emplace_u8
  keeps_within_emplace_chars keeps_within_emplace_bytes keeps_within_emplace_fill
  keeps_within_for_each : within.

(** an emitter put together from the ones above, with [if] and [match] *)
Ltac keeps_within :=
  repeat first
    [ progress auto with within
    | apply keeps_within_bind
    | apply keeps_within_for_each
    | progress intros
    | case_match ].

Lemma keeps_within_emplace_u16 v : keeps_within (emplace_u16 v).
Proof. unfold emplace_u16. keeps_within. Qed.

Lemma keeps_within_emplace_u32 v : keeps_within (emplace_u32 v).
Proof. unfold emplace_u32. keeps_within. Qed.

#[global] Hint Resolve keeps_within_emplace_u16 keeps_within_emplace_u32 : within.

Lemma keeps_within_emplace_i8 v : keeps_within (emplace_i8 v).
Proof. unfold emplace_i8. keeps_within. Qed.

Lemma keeps_within_emplace_i16 v : keeps_within (emplace_i16 v).
Proof. unfold emplace_i16. keeps_within. Qed.

Lemma keeps_within_emplace_i32 v : keeps_within (emplace_i32 v).
Proof. unfold emplace_i32. keeps_within. Qed.

#[global] Hint Resolve keeps_within_emplace_i8 keeps_within_emplace_i16
  keeps_within_emplace_i32 : within.

Lemma keeps_within_generate_code_ArgVariant labels script a :
  keeps_within (generate_code_ArgVariant labels script a).
Proof.
  destruct a; simpl;
    unfold generate_code_EOAL, generate_code_int8, generate_code_int16,
      generate_code_int32, generate_code_float, generate_code_Label,
      generate_code_CompiledVar, generate_code_CompiledString,
      emplace_local_offset, generate_code_int8;
    keeps_within.
Qed.

Lemma keeps_within_generate_code labels script d :
  keeps_within (generate_code labels script d).
Proof.
  unfold generate_code. destruct (data d);
    try apply (keeps_within_generate_code_ArgVariant labels script Arg_EOAL);
    try apply (keeps_within_generate_code_ArgVariant labels script (Arg_int8 _));
    try apply (keeps_within_generate_code_ArgVariant labels script (Arg_int16 _));
    try apply (keeps_within_generate_code_ArgVariant labels script (Arg_int32 _));
    try apply (keeps_within_generate_code_ArgVariant labels script (Arg_float _));
    try apply (keeps_within_generate_code_ArgVariant labels script (Arg_Label _));
    try apply (keeps_within_generate_code_ArgVariant labels script (Arg_Var _));
    try apply (keeps_within_generate_code_ArgVariant labels script (Arg_String _)).
  - unfold generate_code_CompiledCommand.
    apply keeps_within_bind; [auto with within|intros _].
    apply keeps_within_for_each. intros a.
    apply keeps_within_generate_code_ArgVariant.
  - apply keeps_within_ret.
  - unfold generate_code_CompiledHex. auto with within.
Qed.

Lemma keeps_within_goto_rel skip : keeps_within (goto_rel skip).
Proof. unfold goto_rel. keeps_within. Qed.

#[global] Hint Resolve keeps_within_goto_rel : within.

Lemma keeps_within_streamed_entries scs virtual_offset :
  keeps_within (streamed_entries scs virtual_offset).
Proof.
  revert virtual_offset. induction scs as [|sc rest IH]; intros virtual_offset; simpl.
  - apply keeps_within_ret.
  - keeps_within.
Qed.

Lemma keeps_within_scan_scripts t scs : keeps_within (scan_scripts t scs).
Proof.
  revert t. induction scs as [|sc rest IH]; intros t; simpl.
  - apply keeps_within_ret.
  - apply keeps_within_bind; [|intros t'; apply IH].
    unfold scan_script. keeps_within.
Qed.

#[global] Hint Resolve keeps_within_streamed_entries keeps_within_scan_scripts : within.

Lemma keeps_within_header_segments h t : keeps_within (header_segments h t).
Proof.
  unfold header_segments, variables_segment, models_segment, scm_info_segment,
    streamed_segment, unknown_segment, unknown_segment_2.
  keeps_within.
Qed.

Lemma keeps_within_generate_code_CompiledScmHeader h :
  keeps_within (generate_code_CompiledScmHeader h).
Proof.
  unfold generate_code_CompiledScmHeader.
  apply keeps_within_bind; [auto with within|intros t].
  apply keeps_within_header_segments.
Qed.

(** X1. Whatever the node, the options and the labels, and whether the run
    completes or stops on an assertion, a contract or an empty optional:
    [generate_code], started with the cursor inside the buffer, leaves the
    buffer at its size, the cursor at or past where it was and inside the
    buffer, every byte in front of the old cursor and every byte from the
    new cursor on as it was, the options untouched and the earlier
    diagnostics in place. *)
Theorem generate_code_stays_within
    (labels : LabelStore) (script : Script) (d : CompiledData)
    (cg : CodeGeneratorBase) :
  offset cg <= max_offset cg ->
  let cg' := final_state (generate_code labels script d cg) in
  max_offset cg' = max_offset cg /\
  offset cg <= offset cg' <= max_offset cg' /\
  take (offset cg) (bytecode cg') = take (offset cg) (bytecode cg) /\
  drop (offset cg') (bytecode cg') = drop (offset cg') (bytecode cg) /\
  opt (program cg') = opt (program cg) /\
  diagnostics (program cg) `prefix_of` diagnostics (program cg').
Proof. intros H. by apply keeps_within_generate_code. Qed.

(** X2. [CodeGeneratorData::generate] works in a buffer of exactly
    [compiled_size()] bytes and never leaves it: for every header, also one
    whose counts are wrong or whose scripts lack a size or an offset, the
    run ends, completed or not, with the buffer at that size, the cursor
    inside it and the bytes from the cursor on as the allocator left
    them. *)
Theorem header_generate_stays_within (junk : nat -> Z) (cg : CodeGeneratorData) :
  let h := data_compiled cg in
  let cg' := final_state (CodeGeneratorData_generate junk cg) in
  max_offset cg' = CompiledScmHeader_compiled_size h /\
  offset cg' <= max_offset cg' /\
  drop (offset cg') (bytecode cg')
  = drop (offset cg') (map junk (seq 0 (CompiledScmHeader_compiled_size h))) /\
  opt (program cg') = opt (program (data_base cg)).
Proof.
  intros h cg'. unfold cg', CodeGeneratorData_generate. fold h.
  set (cg0 := setup_buffer junk (CompiledScmHeader_compiled_size h) (data_base cg)).
  destruct (keeps_within_generate_code_CompiledScmHeader h cg0)
    as (Hmax & Hoff & _ & Hdrop & Hopt & _).
  { change (offset cg0) with 0. lia. }
  pose proof (max_offset_setup_buffer junk (CompiledScmHeader_compiled_size h)
                (data_base cg)) as Hsetup.
  fold cg0 in Hsetup.
  split; [congruence|]. split; [lia|]. split; [exact Hdrop|exact Hopt].
Qed.

(** ** Little-endian round trips *)

Lemma le_value_le_bytes n v : le_value (le_bytes n v) = (v mod 256 ^ Z.of_nat n)%Z.
Proof.
  revert v. induction n as [|n IH]; intros v.
  - simpl. by rewrite Z.mod_1_r.
  - cbn [le_bytes le_value]. rewrite IH.
    replace (256 ^ Z.of_nat (S n))%Z with (256 * 256 ^ Z.of_nat n)%Z
      by (rewrite Nat2Z.inj_succ, Z.pow_succ_r by lia; done).
    assert (0 < 256 ^ Z.of_nat n)%Z by (apply Z.pow_pos_nonneg; lia).
    by rewrite Z.rem_mul_r by lia.
Qed.

Lemma le_value_le_bytes_small n v :
  (0 <= v < 256 ^ Z.of_nat n)%Z -> le_value (le_bytes n v) = v.
Proof. intros H. rewrite le_value_le_bytes. by apply Z.mod_small. Qed.

Lemma le_signed_le_bytes n v :
  (- (256 ^ Z.of_nat n) <= 2 * v < 256 ^ Z.of_nat n)%Z ->
  le_signed (le_bytes n v) = v.
Proof.
  intros H. unfold le_signed. rewrite length_le_bytes, le_value_le_bytes.
  set (top := (256 ^ Z.of_nat n)%Z) in *.
  destruct (decide (0 <= v)%Z) as [Hpos|Hneg].
  - rewrite Z.mod_small by lia. destruct (decide _); lia.
  - replace (v mod top)%Z with (v + top)%Z.
    + destruct (decide _); lia.
    + symmetry. rewrite <- (Z.mod_add v 1 top) by lia.
      rewrite Z.mul_1_l. apply Z.mod_small. lia.
Qed.

(** X3. What the integer emplacers store reads back little-endian: the
    two bytes of [emplace_u16] and the four of [emplace_u32] are the number
    itself when it fits the type (and its residue modulo 2^16 or 2^32
    otherwise), and the bytes of [emplace_i8], [emplace_i16] and
    [emplace_i32] are the two's complement of a number in the range of the
    type. *)
Theorem little_endian_round_trip (v : Z) (cg : CodeGeneratorBase) :
  offset cg + 4 <= max_offset cg ->
  let stored (m : M unit) := emitted cg (final_state (m cg)) in
  le_value (stored (emplace_u16 v)) = (v mod 2 ^ 16)%Z /\
  le_value (stored (emplace_u32 v)) = (v mod 2 ^ 32)%Z /\
  ((0 <= v < 2 ^ 16)%Z -> le_value (stored (emplace_u16 v)) = v) /\
  ((0 <= v < 2 ^ 32)%Z -> le_value (stored (emplace_u32 v)) = v) /\
  ((- 2 ^ 7 <= v < 2 ^ 7)%Z -> le_signed (stored (emplace_i8 v)) = v) /\
  ((- 2 ^ 15 <= v < 2 ^ 15)%Z -> le_signed (stored (emplace_i16 v)) = v) /\
  ((- 2 ^ 31 <= v < 2 ^ 31)%Z -> le_signed (stored (emplace_i32 v)) = v).
Proof.
  intros Hroom stored. unfold stored.
  destruct (emits_emplace_u16 v cg ltac:(lia)) as [H16 ->].
  destruct (emits_emplace_u32 v cg ltac:(lia)) as [H32 ->].
  destruct (emits_emplace_i8 v cg ltac:(lia)) as [H8 ->].
  destruct (emits_emplace_i16 v cg ltac:(lia)) as [H16' ->].
  destruct (emits_emplace_i32 v cg ltac:(lia)) as [H32' ->].
  cbn [final_state]. rewrite !emitted_after by done.
  repeat split.
  - apply (le_value_le_bytes 2).
  - apply (le_value_le_bytes 4).
  - intros H. by apply (le_value_le_bytes_small 2).
  - intros H. by apply (le_value_le_bytes_small 4).
  - intros H. apply (le_signed_le_bytes 1).
    change (256 ^ Z.of_nat 1)%Z with (2 ^ 8)%Z. lia.
  - intros H. apply (le_signed_le_bytes 2).
    change (256 ^ Z.of_nat 2)%Z with (2 ^ 16)%Z. lia.
  - intros H. apply (le_signed_le_bytes 4).
    change (256 ^ Z.of_nat 4)%Z with (2 ^ 32)%Z. lia.
Qed.

(** ** The emitters against the encoding *)

Lemma Some_inv {A} (x y : A) : Some x = Some y -> x = y.
Proof. by intros [= ->]. Qed.

Lemma Some_pair_inv {A B} (a c : A) (b d : B) :
  Some (a, b) = Some (c, d) -> a = c /\ b = d.
Proof. by intros [= -> ->]. Qed.

(** the length of the encoded bytes, worked out in a hypothesis *)
Ltac encoded_length H :=
  repeat first
    [ progress cbn [length] in H
    | rewrite length_app in H
    | rewrite length_le_bytes in H
    | rewrite length_strncpy in H ].

Lemma cast_u8_var_tag t g a b c :
  (0 <= a.1 < 256 /\ 0 <= a.2 < 256 /\ 0 <= b.1 < 256 /\ 0 <= b.2 < 256 /\
   0 <= c.1 < 256 /\ 0 <= c.2 < 256)%Z ->
  cast_u8 (var_tag t g a b c) = var_tag t g a b c.
Proof.
  intros H. unfold cast_u8, var_tag. change (2 ^ 8)%Z with 256%Z.
  destruct t, g; apply Z.mod_small; lia.
Qed.

Lemma type_packed_byte t g :
  cast_u8 (Z.lor (Z.land (cast_u8 (VarType_value t)) 0x7F) (Z.shiftl (Z.b2z g) 7))
  = type_packed t g.
Proof. by destruct t, g. Qed.

Lemma emits_encode_CompiledVar v bs cg :
  encode_CompiledVar v = Some bs ->
  offset cg + length bs <= max_offset cg ->
  emits (generate_code_CompiledVar v) cg tt bs [].
Proof.
  unfold encode_CompiledVar, generate_code_CompiledVar. intros Henc Hroom.
  destruct (index v) as [[i|indexVar]|].
  - apply Some_inv in Henc as <-. encoded_length Hroom.
    eapply emits_eq.
    { eapply emits_bind_state; [apply emits_emplace_u8; lia|].
      intros cg1 Ho Hm _. simpl in Ho. apply emits_emplace_u16. lia. }
    + simpl. by rewrite cast_u8_var_tag by (simpl; lia).
    + done.
  - destruct (var_count (var v)) as [count|]; [|done].
    apply Some_inv in Henc as <-.
    encoded_length Hroom.
    eapply emits_eq.
    { eapply emits_bind_state; [apply emits_emplace_u8; lia|].
      intros cg1 Ho1 Hm1 _. simpl in Ho1.
      eapply emits_bind_state; [apply emits_emplace_u16; lia|].
      intros cg2 Ho2 Hm2 _. simpl in Ho2.
      eapply emits_bind_state; [apply emits_emplace_u16; lia|].
      intros cg3 Ho3 Hm3 _. simpl in Ho3.
      eapply emits_value; [reflexivity|].
      eapply emits_bind_state; [apply emits_emplace_u8; lia|].
      intros cg4 Ho4 Hm4 _. simpl in Ho4.
      apply emits_emplace_u8. lia. }
    + rewrite cast_u8_var_tag by (simpl; lia). rewrite type_packed_byte.
      simpl. done.
    + done.
  - apply Some_inv in Henc as <-. encoded_length Hroom.
    eapply emits_eq.
    { eapply emits_bind_state; [apply emits_emplace_u8; lia|].
      intros cg1 Ho Hm _. simpl in Ho. apply emits_emplace_u16. lia. }
    + simpl. by rewrite cast_u8_var_tag by (simpl; lia).
    + done.
Qed.

Lemma emits_Expects {B} c (k : M B) cg b bs errs :
  c = true -> emits k cg b bs errs -> emits (Expects c ;; k) cg b bs errs.
Proof. intros ->. exact (fun H => H). Qed.

Lemma emits_encode_CompiledString s bs cg :
  encode_CompiledString (opt (program cg)) s = Some bs ->
  offset cg + length bs <= max_offset cg ->
  emits (generate_code_CompiledString s) cg tt bs [].
Proof.
  unfold encode_CompiledString, generate_code_CompiledString. intros Henc Hroom.
  destruct (string_type s).
  - destruct (bool_decide (length (storage s) <= 8)) eqn:Hlen; [|done].
    apply Some_inv in Henc as <-. encoded_length Hroom.
    apply emits_Expects; [done|]. apply emits_get_opt.
    destruct (has_text_label_prefix (opt (program cg))).
    + eapply emits_eq.
      { eapply emits_bind_state; [apply emits_emplace_u8; simpl in *; lia|].
        intros cg1 Ho Hm _. simpl in Ho. apply emits_emplace_chars.
        simpl in *. lia. }
      all: done.
    + apply emits_skip. apply emits_emplace_chars. simpl in *. lia.
  - destruct (bool_decide (length (storage s) <= 16)) eqn:Hlen; [|done].
    apply Some_inv in Henc as <-. encoded_length Hroom.
    apply emits_Expects; [done|].
    eapply emits_eq.
    { eapply emits_bind_state; [apply emits_emplace_u8; lia|].
      intros cg1 Ho Hm _. simpl in Ho. apply emits_emplace_chars. lia. }
    all: done.
  - destruct (bool_decide (length (storage s) <= 127)) eqn:Hlen; [|done].
    apply bool_decide_eq_true_1 in Hlen as Hlen'.
    apply Some_inv in Henc as <-. encoded_length Hroom.
    apply emits_Expects; [done|].
    eapply emits_eq.
    { eapply emits_bind_state; [apply emits_emplace_u8; lia|].
      intros cg1 Ho1 Hm1 _. simpl in Ho1.
      eapply emits_bind_state; [apply emits_emplace_u8; lia|].
      intros cg2 Ho2 Hm2 _. simpl in Ho2.
      apply emits_emplace_chars. lia. }
    + simpl. do 2 f_equal. unfold cast_u8. apply Z.mod_small. lia.
    + done.
  - apply Some_inv in Henc as <-. encoded_length Hroom.
    by apply emits_emplace_chars.
Qed.

Lemma emits_encode_float f bs cg :
  encode_float (opt (program cg)) f = Some bs ->
  offset cg + length bs <= max_offset cg ->
  emits (generate_code_float f) cg tt bs [].
Proof.
  unfold encode_float. intros Henc Hroom.
  destruct (optimize_zero_floats (opt (program cg)) && float_is_zero f) eqn:Hz.
  - apply Some_inv in Henc as <-. by apply emits_generate_code_float_zero.
  - destruct (use_half_float (opt (program cg))) eqn:Hh.
    + destruct (float_to_int16 (float_times_16 f)) as [half|] eqn:Hc; [|done].
      apply Some_inv in Henc as <-. encoded_length Hroom.
      by apply emits_generate_code_float_half.
    + apply Some_inv in Henc as <-. encoded_length Hroom.
      by apply emits_generate_code_float_raw.
Qed.

Lemma cast_i32_u32 v : cast_i32 (cast_u32 v) = cast_i32 v.
Proof.
  unfold cast_i32, cast_u32. f_equal. by rewrite Zplus_mod_idemp_l.
Qed.

Lemma emits_encode_Label labels script p bs errs cg :
  encode_Label (opt (program cg)) labels script p = Some (bs, errs) ->
  offset cg + length bs <= max_offset cg ->
  emits (generate_code_Label labels script p) cg tt bs errs.
Proof.
  unfold encode_Label. intros Henc Hroom.
  destruct (use_local_offsets (opt (program cg))) eqn:Euse.
  - destruct (Label_offset (labels p)) as [off|] eqn:Eoff; [|done].
    apply Some_pair_inv in Henc as [<- <-]. encoded_length Hroom.
    rewrite <- le_bytes_4_opp_cast_i32.
    apply emits_generate_code_Label_negated; [| |lia].
    + unfold negated_offset. by rewrite Euse, Eoff.
    + unfold wf_Label. by rewrite Euse, Eoff.
  - destruct (bool_decide _) eqn:Emode.
    + destruct (same_script _ _) eqn:Esame; [|done].
      destruct (local_offset (labels p)) as [lo|] eqn:Elo; [|done].
      apply Some_pair_inv in Henc as [<- <-]. encoded_length Hroom.
      rewrite <- le_bytes_4_opp_cast_i32.
      apply emits_generate_code_Label_negated; [| |lia].
      * unfold negated_offset. by rewrite Euse, Emode, Elo.
      * unfold wf_Label. by rewrite Euse, Emode, Elo.
    + destruct (Label_offset (labels p)) as [off|] eqn:Eoff; [|done].
      apply Some_pair_inv in Henc as [<- <-]. encoded_length Hroom.
      unfold generate_code_Label. eapply emits_eq.
      { eapply emits_bind_state; [apply emits_emplace_u8; lia|].
        intros cg1 Ho Hm Hopt. simpl in Ho. apply emits_get_opt.
        rewrite Hopt, Euse, Emode.
        eapply emits_value; [exact Eoff|]. apply emits_emplace_i32. lia. }
      all: done.
Qed.

Lemma emits_encode_ArgVariant labels script a bs errs cg :
  encode_ArgVariant (opt (program cg)) labels script a = Some (bs, errs) ->
  offset cg + length bs <= max_offset cg ->
  emits (generate_code_ArgVariant labels script a) cg tt bs errs.
Proof.
  destruct a; cbn [encode_ArgVariant generate_code_ArgVariant]; intros Henc Hroom.
  - apply Some_pair_inv in Henc as [<- <-]. by apply emits_emplace_u8.
  - apply Some_pair_inv in Henc as [<- <-]. encoded_length Hroom.
    apply emits_generate_code_int8. lia.
  - apply Some_pair_inv in Henc as [<- <-]. encoded_length Hroom.
    unfold generate_code_int16. eapply emits_eq.
    { eapply emits_bind_state; [apply emits_emplace_u8; lia|].
      intros cg1 Ho Hm _. simpl in Ho. apply emits_emplace_i16. lia. }
    all: done.
  - apply Some_pair_inv in Henc as [<- <-]. encoded_length Hroom.
    unfold generate_code_int32. eapply emits_eq.
    { eapply emits_bind_state; [apply emits_emplace_u8; lia|].
      intros cg1 Ho Hm _. simpl in Ho. apply emits_emplace_i32. lia. }
    all: done.
  - destruct (encode_float _ _) as [bs'|] eqn:E; [|done].
    apply Some_pair_inv in Henc as [<- <-]. by apply emits_encode_float.
  - by apply emits_encode_Label.
  - destruct (encode_CompiledVar _) as [bs'|] eqn:E; [|done].
    apply Some_pair_inv in Henc as [<- <-]. by apply emits_encode_CompiledVar.
  - destruct (encode_CompiledString _ _) as [bs'|] eqn:E; [|done].
    apply Some_pair_inv in Henc as [<- <-]. by apply emits_encode_CompiledString.
Qed.

Lemma emits_encode_all {A} (body : A -> M unit) enc xs :
  forall cg bs errs,
  (forall x cg' b e,
     opt (program cg') = opt (program cg) ->
     enc x = Some (b, e) -> offset cg' + length b <= max_offset cg' ->
     emits (body x) cg' tt b e) ->
  encode_all enc xs = Some (bs, errs) ->
  offset cg + length bs <= max_offset cg ->
  emits (for_each body xs) cg tt bs errs.
Proof.
  induction xs as [|x rest IH]; intros cg bs errs Hbody Henc Hroom.
  - apply Some_pair_inv in Henc as [<- <-]. apply emits_ret. simpl in Hroom. lia.
  - cbn [encode_all] in Henc.
    destruct (enc x) as [[b1 e1]|] eqn:E1; [|done].
    destruct (encode_all enc rest) as [[b2 e2]|] eqn:E2; [|done].
    apply Some_pair_inv in Henc as [<- <-]. rewrite length_app in Hroom.
    cbn [for_each]. eapply emits_bind_state.
    + apply Hbody; [done|done|lia].
    + intros cg1 Ho Hm Hopt. apply IH; [|done|lia].
      intros y cg' b e Hopt' Hy Hroom'. apply Hbody; [congruence|done|done].
Qed.

Lemma emits_encode labels script d bs errs cg :
  encode (opt (program cg)) labels script d = Some (bs, errs) ->
  offset cg + length bs <= max_offset cg ->
  emits (generate_code labels script d) cg tt bs errs.
Proof.
  unfold encode, generate_code. intros Henc Hroom.
  destruct (data d) as [|cmd|v|v|v|f|p|v|s|ld|h].
  all: try match type of Henc with
           | encode_ArgVariant _ _ _ ?a = _ =>
               exact (emits_encode_ArgVariant labels script a bs errs cg Henc Hroom)
           end.
  - destruct (encode_all _ (args cmd)) as [[b e]|] eqn:E; [|done].
    apply Some_pair_inv in Henc as [<- <-]. rewrite length_app, length_le_bytes in Hroom.
    unfold generate_code_CompiledCommand. eapply emits_eq.
    { eapply emits_bind_state; [apply emits_emplace_u16; lia|].
      intros cg1 Ho Hm Hopt. simpl in Ho.
      eapply (emits_encode_all _ _ _ cg1 b e); [|exact E|lia].
      intros a cg' b' e' Hopt' Ha Hroom'.
      apply emits_encode_ArgVariant; [|done]. by rewrite Hopt', Hopt. }
    all: done.
  - apply Some_pair_inv in Henc as [<- <-]. apply emits_ret. simpl in Hroom. lia.
  - apply Some_pair_inv in Henc as [<- <-].
    unfold generate_code_CompiledHex. eapply emits_eq.
    { by apply emits_emplace_bytes. }
    + apply firstn_all.
    + done.
Qed.

(** *** Where the encoding is not defined, the emitter stops *)

Lemma aborts_bind {A B} (m : M A) (f : A -> M B) cg :
  (forall a cg1, m cg = Done a cg1 -> exists why cg', f a cg1 = Abort why cg') ->
  exists why cg', (m ≫= f) cg = Abort why cg'.
Proof.
  intros Hf. unfold mbind, M_bind, bind.
  destruct (m cg) as [a cg1|why cg1]; [by apply Hf|by eexists _, _].
Qed.

Lemma emplace_u8_Done v cg cg1 :
  emplace_u8 v cg = Done tt cg1 -> opt (program cg1) = opt (program cg).
Proof. unfold emplace_u8. destruct (decide _); [|done]. by intros [= <-]. Qed.

Lemma aborts_generate_code_ArgVariant labels script a cg :
  encode_ArgVariant (opt (program cg)) labels script a = None ->
  exists why cg', generate_code_ArgVariant labels script a cg = Abort why cg'.
Proof.
  intros Henc.
  destruct a as [|v|v|v|f|p|v|s];
    cbn [encode_ArgVariant generate_code_ArgVariant] in *; try done.
  - unfold encode_float in Henc. unfold generate_code_float.
    change ((get_opt ≫= ?k) cg) with (k (opt (program cg)) cg). cbn beta.
    destruct (optimize_zero_floats _ && float_is_zero f); [done|].
    destruct (use_half_float _); [|done].
    destruct (float_to_int16 _); [done|].
    apply aborts_bind. intros _ cg1 _. by eexists _, _.
  - unfold encode_Label in Henc. unfold generate_code_Label.
    apply aborts_bind. intros [] cg1 Hcg1. apply emplace_u8_Done in Hcg1.
    change ((get_opt ≫= ?k) cg1) with (k (opt (program cg1)) cg1). cbn beta.
    rewrite Hcg1. destruct (use_local_offsets _).
    { destruct (Label_offset _); [done|]. by eexists _, _. }
    destruct (bool_decide _).
    + destruct (same_script _ _); [|by eexists _, _].
      apply aborts_bind. intros _ cg2 _.
      destruct (local_offset _); [done|]. by eexists _, _.
    + destruct (Label_offset _); [done|]. by eexists _, _.
  - destruct (encode_CompiledVar v) eqn:E; [done|].
    unfold encode_CompiledVar in E. unfold generate_code_CompiledVar.
    destruct (index v) as [[i|indexVar]|]; try done.
    destruct (var_count (var v)); [done|].
    do 3 (apply aborts_bind; intros _ ? _). by eexists _, _.
  - destruct (encode_CompiledString _ s) eqn:E; [done|].
    unfold encode_CompiledString in E. unfold generate_code_CompiledString.
    destruct (string_type s); try done;
      destruct (bool_decide _); try done; by eexists _, _.
Qed.

Lemma aborts_for_each_ArgVariant labels script xs :
  forall cg,
  encode_all (encode_ArgVariant (opt (program cg)) labels script) xs = None ->
  exists why cg', for_each (generate_code_ArgVariant labels script) xs cg = Abort why cg'.
Proof.
  induction xs as [|x rest IH]; intros cg Henc; [done|].
  cbn [encode_all for_each] in *.
  destruct (encode_ArgVariant _ _ _ x) as [[b1 e1]|] eqn:E1.
  - apply aborts_bind. intros [] cg1 Hcg1. apply IH.
    destruct (grows_generate_code_ArgVariant (opt (program cg)) labels script x
                cg tt cg1 eq_refl Hcg1) as (_ & _ & -> & _).
    by destruct (encode_all _ rest) as [[b2 e2]|].
  - destruct (aborts_generate_code_ArgVariant labels script x cg E1) as (why & cg' & H).
    exists why, cg'. by apply bind_Abort.
Qed.

Lemma aborts_generate_code labels script d cg :
  encode (opt (program cg)) labels script d = None ->
  exists why cg', generate_code labels script d cg = Abort why cg'.
Proof.
  unfold encode, generate_code. intros Henc.
  destruct (data d) as [|cmd|v|v|v|f|p|v|s|ld|h]; try done.
  all: try match type of Henc with
           | encode_ArgVariant _ _ _ ?a = _ =>
               exact (aborts_generate_code_ArgVariant labels script a cg Henc)
           end.
  destruct (encode_all _ (args cmd)) as [[b e]|] eqn:E; [done|].
  unfold generate_code_CompiledCommand.
  apply aborts_bind. intros [] cg1 Hcg1. apply aborts_for_each_ArgVariant.
  destruct (grows_emplace_u16 (opt (program cg)) (id cmd) cg tt cg1 eq_refl Hcg1)
    as (_ & _ & -> & _).
  done.
Qed.

Lemma max_offset_fresh_buffer o n : max_offset (fresh_buffer o n) = n.
Proof. unfold max_offset, fresh_buffer. simpl. apply length_replicate. Qed.

Lemma length_encode o labels script d bs errs :
  encode o labels script d = Some (bs, errs) -> length bs = compiled_size d o.
Proof.
  intros Henc.
  destruct (emits_encode labels script d bs errs (fresh_buffer o (length bs)))
    as [_ Hrun]; [done|by rewrite max_offset_fresh_buffer|].
  destruct (grows_generate_code o labels script d (fresh_buffer o (length bs)) _ _
              eq_refl Hrun) as (Hoff & _).
  rewrite offset_after in Hoff. simpl in Hoff. done.
Qed.

Lemma generate_code_Done_encode labels script d cg cg' :
  offset cg <= max_offset cg ->
  generate_code labels script d cg = Done tt cg' ->
  exists bs errs,
    encode (opt (program cg)) labels script d = Some (bs, errs) /\
    cg' = after cg bs errs.
Proof.
  intros Hin Hrun.
  destruct (encode (opt (program cg)) labels script d) as [[bs errs]|] eqn:Henc.
  - exists bs, errs. split; [done|].
    pose proof (length_encode _ _ _ _ _ _ Henc) as Hlen.
    destruct (grows_generate_code _ labels script d _ _ _ eq_refl Hrun)
      as (_ & _ & _ & _ & Hroom).
    destruct (emits_encode labels script d bs errs cg Henc) as [_ Hrun'].
    { destruct (compiled_size d (opt (program cg))); lia. }
    congruence.
  - destruct (aborts_generate_code labels script d cg Henc) as (why & cg'' & H).
    congruence.
Qed.

(** X4. What a node emits does not depend on where it is emitted.  If
    [generate_code] completes for a node in one state, then in every state
    with the same options and room for [compiled_size] bytes it completes
    too, and both runs store the same bytes at their cursor and report the
    same diagnostics: neither the cursor position nor the bytes already in
    the buffer enter the encoding. *)
Theorem generate_code_position_independent labels script d cg1 cg1' cg2 :
  offset cg1 <= max_offset cg1 ->
  generate_code labels script d cg1 = Done tt cg1' ->
  opt (program cg2) = opt (program cg1) ->
  offset cg2 + compiled_size d (opt (program cg1)) <= max_offset cg2 ->
  exists bs errs,
    length bs = compiled_size d (opt (program cg1)) /\
    cg1' = after cg1 bs errs /\
    generate_code labels script d cg2 = Done tt (after cg2 bs errs).
Proof.
  intros Hin Hrun Hopt Hroom.
  destruct (generate_code_Done_encode _ _ _ _ _ Hin Hrun) as (bs & errs & Henc & ->).
  pose proof (length_encode _ _ _ _ _ _ Henc) as Hlen.
  exists bs, errs. split; [done|]. split; [done|].
  apply emits_encode; [by rewrite Hopt|lia].
Qed.

(** ** One script: the two passes together *)

Lemma script_bytes_compiled_size o ops :
  sum_list_with (fun d => compiled_size d o) ops = script_bytes o ops.
Proof.
  unfold script_bytes. induction ops as [|op rest IH]; [done|].
  cbn [sum_list_with]. rewrite IH. f_equal.
  unfold emitted_size, compiled_size. by destruct (data op).
Qed.

Lemma grows_script o labels script ops :
  grows o (for_each (generate_code labels script) ops) (script_bytes o ops).
Proof.
  rewrite <- script_bytes_compiled_size.
  apply grows_for_each. intros d. apply grows_generate_code.
Qed.

Lemma writes_script labels script ops cg :
  Forall (wf_CompiledData (opt (program cg)) labels script) ops ->
  offset cg + script_bytes (opt (program cg)) ops <= max_offset cg ->
  writes (for_each (generate_code labels script) ops) cg tt
         (script_bytes (opt (program cg)) ops).
Proof.
  rewrite <- script_bytes_compiled_size. intros Hwf Hroom.
  apply (writes_for_each _ (fun d => compiled_size d (opt (program cg)))); [|done].
  intros d cg' Hd Hmax Hopt Hroom'. rewrite <- Hopt.
  apply writes_generate_code; [|by rewrite Hopt].
  rewrite Hopt. rewrite Forall_forall in Hwf. apply Hwf. by apply list_elem_of_In.
Qed.

Lemma compute_labels_size cg labels :
  (Z.of_nat (script_bytes (opt (program (base cg))) (compiled cg)) < 2 ^ 32)%Z ->
  fst (compute_labels cg labels)
  = Z.of_nat (script_bytes (opt (program (base cg))) (compiled cg)).
Proof.
  intros Hsmall. unfold compute_labels.
  rewrite compute_labels_from_fst by done.
  rewrite Z.add_0_l. apply cast_u32_small. lia.
Qed.

(** X5. [compute_labels] and [generate] fit together: when the script's
    size is the value [compute_labels] returned (whatever label store it
    was run on), for a script below 2^32 bytes whose nodes meet the
    emitters' own conditions, [CodeGenerator::generate] completes and the
    buffer it allocated is filled to the last byte: the cursor ends at the
    capacity, which is the sum of the node sizes. *)
Theorem generate_fills_computed_size junk labels0 labels cg :
  let o := opt (program (base cg)) in
  (Z.of_nat (script_bytes o (compiled cg)) < 2 ^ 32)%Z ->
  script_size (script cg) = Some (fst (compute_labels cg labels0)) ->
  Forall (wf_CompiledData o labels (script cg)) (compiled cg) ->
  exists cg',
    CodeGenerator_generate junk labels cg = Done tt cg' /\
    offset cg' = max_offset cg' /\
    max_offset cg' = script_bytes o (compiled cg).
Proof.
  intros o Hsmall Hsize Hwf.
  rewrite compute_labels_size in Hsize by done. fold o in Hsize.
  unfold CodeGenerator_generate. rewrite Hsize.
  set (cg0 := setup_buffer junk (Z.to_nat (Z.of_nat (script_bytes o (compiled cg))))
                (base cg)).
  change (exists cg',
    for_each (generate_code labels (script cg)) (compiled cg) cg0 = Done tt cg' /\
    offset cg' = max_offset cg' /\ max_offset cg' = script_bytes o (compiled cg)).
  assert (Hmax0 : max_offset cg0 = script_bytes o (compiled cg)).
  { unfold cg0. by rewrite max_offset_setup_buffer, Nat2Z.id. }
  destruct (writes_offset (for_each (generate_code labels (script cg)) (compiled cg))
              cg0 tt (script_bytes o (compiled cg))) as (cg' & Hrun & Hoff & Hmax).
  { apply (writes_script labels (script cg) (compiled cg) cg0); [done|].
    change (opt (program cg0)) with o. simpl. lia. }
  exists cg'. split; [exact Hrun|]. simpl in Hoff. lia.
Qed.

(** X6. The edges of [CodeGenerator::generate].  A script whose size has
    not been set stops the run on [size.value()] before a buffer is
    allocated: the generator is left as it was.  Whenever the run
    completes, the sum of the node sizes fits the declared size, the cursor
    stands at that sum, the capacity is the declared size, and the bytes
    from the cursor to the end of the buffer are the ones the allocator
    left there, since [setup_buffer] does not clear it: a declared size
    that is too small never completes, one that is too large leaves an
    uninitialised tail. *)
Theorem generate_declared_size_edges junk labels cg :
  let o := opt (program (base cg)) in
  (script_size (script cg) = None ->
   CodeGenerator_generate junk labels cg = Abort BadOptionalAccess (base cg)) /\
  (forall sz cg',
     script_size (script cg) = Some sz ->
     CodeGenerator_generate junk labels cg = Done tt cg' ->
     script_bytes o (compiled cg) <= Z.to_nat sz /\
     offset cg' = script_bytes o (compiled cg) /\
     max_offset cg' = Z.to_nat sz /\
     drop (offset cg') (bytecode cg')
     = map junk (seq (script_bytes o (compiled cg))
                     (Z.to_nat sz - script_bytes o (compiled cg)))).
Proof.
  intros o. split.
  - intros Hsize. unfold CodeGenerator_generate. by rewrite Hsize.
  - intros sz cg' Hsize Hrun. unfold CodeGenerator_generate in Hrun.
    rewrite Hsize in Hrun.
    set (cg0 := setup_buffer junk (Z.to_nat sz) (base cg)) in *.
    change (for_each (generate_code labels (script cg)) (compiled cg) cg0 = Done tt cg')
      in Hrun.
    assert (Hmax0 : max_offset cg0 = Z.to_nat sz) by apply max_offset_setup_buffer.
    destruct (grows_script o labels (script cg) (compiled cg) cg0 tt cg' eq_refl Hrun)
      as (Hoff & Hmax & _ & _ & Hroom).
    simpl in Hoff.
    assert (Hin : within cg0 (final_state
              (for_each (generate_code labels (script cg)) (compiled cg) cg0))).
    { apply keeps_within_for_each; [|simpl; lia].
      intros d. apply keeps_within_generate_code. }
    rewrite Hrun in Hin. destruct Hin as (_ & _ & _ & Hdrop & _).
    cbn [final_state] in Hdrop.
    assert (Hfit : script_bytes o (compiled cg) <= Z.to_nat sz).
    { destruct (script_bytes o (compiled cg)) as [|k] eqn:E; [lia|].
      simpl in Hroom. lia. }
    repeat split; [done|done|congruence|].
    rewrite Hdrop, Hoff. simpl.
    by rewrite skipn_map, skipn_seq.
Qed.

(** X7. The offset [compute_labels] gives a label is the position the
    emitter is at when it reaches the label's definition: if the nodes in
    front of the definition are emitted from the start of the buffer, the
    cursor they leave is the label's [local_offset].  (Script below 2^32
    bytes, label not defined again further on.) *)
Theorem label_offset_is_emitter_position labels0 labels cg pre d post cg0 cg1 :
  let o := opt (program (base cg)) in
  (Z.of_nat (script_bytes o (compiled cg)) < 2 ^ 32)%Z ->
  compiled cg = pre ++ {| data := Data_LabelDef d |} :: post ->
  label d ∉ defined_labels post ->
  opt (program cg0) = o ->
  offset cg0 = 0 ->
  for_each (generate_code labels (script cg)) pre cg0 = Done tt cg1 ->
  local_offset (snd (compute_labels cg labels0) (label d))
  = Some (Z.of_nat (offset cg1)).
Proof.
  intros o Hsmall Heq Hpost Hopt Hstart Hrun.
  destruct (grows_script o labels (script cg) pre cg0 tt cg1 Hopt Hrun) as (Hoff & _).
  unfold compute_labels. fold o. rewrite Heq in *.
  rewrite compute_labels_from_at by done.
  rewrite script_bytes_app in Hsmall.
  rewrite Z.add_0_l, cast_u32_small by lia.
  rewrite Hoff, Hstart. done.
Qed.

(** ** [compute_labels] run again *)

Lemma compute_labels_from_fst_any o ops off labels1 labels2 :
  fst (compute_labels_from o ops off labels1)
  = fst (compute_labels_from o ops off labels2).
Proof.
  revert off labels1 labels2.
  induction ops as [|op rest IH]; intros off labels1 labels2; [done|].
  rewrite !compute_labels_from_step. destruct (data op); apply IH.
Qed.

Lemma set_local_offset_script p q off (labels : LabelStore) :
  label_script (set_local_offset p off labels q) = label_script (labels q).
Proof.
  destruct (decide (p = q)) as [->|Hne].
  - by rewrite set_local_offset_at.
  - by rewrite set_local_offset_other.
Qed.

Lemma compute_labels_from_script o ops off labels p :
  label_script (snd (compute_labels_from o ops off labels) p) = label_script (labels p).
Proof.
  revert off labels. induction ops as [|op rest IH]; intros off labels; [done|].
  rewrite compute_labels_from_step. destruct (data op); try apply IH.
  rewrite IH. apply set_local_offset_script.
Qed.

Lemma compute_labels_from_agree o ops off labels1 labels2 p :
  label_script (labels1 p) = label_script (labels2 p) ->
  (p ∉ defined_labels ops -> labels1 p = labels2 p) ->
  snd (compute_labels_from o ops off labels1) p
  = snd (compute_labels_from o ops off labels2) p.
Proof.
  revert off labels1 labels2.
  induction ops as [|op rest IH]; intros off labels1 labels2 Hscript Hout.
  - apply Hout. simpl. apply not_elem_of_nil.
  - rewrite !compute_labels_from_step. simpl in Hout.
    destruct (data op) as [| | | | | | | | |d|]; try (by apply IH).
    apply IH.
    + by rewrite !set_local_offset_script.
    + intros Hrest. destruct (decide (label d = p)) as [<-|Hne].
      * rewrite !set_local_offset_at. by rewrite Hscript.
      * rewrite !set_local_offset_other by done. apply Hout.
        rewrite not_elem_of_cons. split; [congruence|done].
Qed.

(** X8. [compute_labels] can be run again without harm.  The size it
    returns does not depend on the label store it is given; it never
    changes the script a label belongs to; and a second run over the store
    the first one produced returns the same size and leaves every label as
    the first run left it. *)
Theorem compute_labels_idempotent (cg : CodeGenerator) (labels : LabelStore) :
  let first := compute_labels cg labels in
  let second := compute_labels cg (snd first) in
  (forall labels', fst (compute_labels cg labels') = fst first) /\
  (forall p, label_script (snd first p) = label_script (labels p)) /\
  fst second = fst first /\
  (forall p, snd second p = snd first p).
Proof.
  cbv zeta. unfold compute_labels. repeat split.
  - intros labels'. apply compute_labels_from_fst_any.
  - intros p. apply compute_labels_from_script.
  - apply compute_labels_from_fst_any.
  - intros p. apply compute_labels_from_agree.
    + apply compute_labels_from_script.
    + intros Hout. by apply compute_labels_from_untouched.
Qed.

(** ** The header: what the loop over the scripts adds up *)

Lemma scan_script_totals t sc cg t' cg' :
  scan_script t sc cg = Done t' cg' ->
  exists sz, script_size sc = Some sz /\
  main_size t' = (if decide (is_main_block sc)
                  then u32_add (main_size t) sz else main_size t) /\
  multifile_size t' = (if decide (script_type sc = StreamedScript)
                       then multifile_size t else u32_add (multifile_size t) sz) /\
  largest_mission_size t' = (if decide (script_type sc = Mission)
                             then Z.max (largest_mission_size t) sz
                             else largest_mission_size t) /\
  largest_streamed_size t' = (if decide (script_type sc = StreamedScript)
                              then Z.max (largest_streamed_size t) sz
                              else largest_streamed_size t).
Proof.
  unfold scan_script, is_main_block. intros H.
  destruct (script_size sc) as [sz|]; [|by repeat destruct (decide _)].
  exists sz. split; [done|].
  destruct (decide (script_type sc = Mission)) as [Hm|Hm].
  - injection H as <- <-. cbn [main_size multifile_size largest_mission_size
                                largest_streamed_size].
    rewrite Hm. repeat destruct (decide _); try done; try lia; intuition congruence.
  - destruct (decide (script_type sc = StreamedScript)) as [Hs|Hs].
    + injection H as <- <-. cbn [main_size multifile_size largest_mission_size
                                  largest_streamed_size].
      repeat destruct (decide _); try done; try lia; intuition congruence.
    + injection H as <- <-. cbn [main_size multifile_size largest_mission_size
                                  largest_streamed_size].
      repeat destruct (decide _); try done; try lia; intuition congruence.
Qed.

Lemma largest_size_nonneg scs : (0 <= largest_size scs)%Z.
Proof. induction scs as [|sc rest IH]; simpl; lia. Qed.

Lemma scan_scripts_totals scs :
  forall t cg t' cg',
  cast_u32 (main_size t) = main_size t ->
  cast_u32 (multifile_size t) = multifile_size t ->
  (0 <= largest_mission_size t)%Z ->
  (0 <= largest_streamed_size t)%Z ->
  scan_scripts t scs cg = Done t' cg' ->
  Forall (fun sc => is_Some (script_size sc)) scs /\
  main_size t' = cast_u32 (main_size t + total_size (filter is_main_block scs)) /\
  multifile_size t'
  = cast_u32 (multifile_size t
              + total_size (filter (fun sc => script_type sc ≠ StreamedScript) scs)) /\
  largest_mission_size t'
  = Z.max (largest_mission_size t)
          (largest_size (filter (fun sc => script_type sc = Mission) scs)) /\
  largest_streamed_size t'
  = Z.max (largest_streamed_size t)
          (largest_size (filter (fun sc => script_type sc = StreamedScript) scs)).
Proof.
  induction scs as [|sc rest IH]; intros t cg t' cg' Hmain0 Hmulti0 Hlm0 Hls0 H.
  - injection H as <- <-. simpl. rewrite !Z.add_0_r.
    repeat split; try done; try lia.
  - cbn [scan_scripts] in H. apply bind_inv in H as (t1 & cg1 & H1 & H2).
    apply scan_script_totals in H1 as (sz & Hsz & Hmain & Hmulti & Hlm & Hls).
    assert (Hmain1 : cast_u32 (main_size t1) = main_size t1).
    { rewrite Hmain. destruct (decide (is_main_block sc));
        [apply cast_u32_idemp|exact Hmain0]. }
    assert (Hmulti1 : cast_u32 (multifile_size t1) = multifile_size t1).
    { rewrite Hmulti. destruct (decide (script_type sc = StreamedScript));
        [exact Hmulti0|apply cast_u32_idemp]. }
    assert (Hlm1 : (0 <= largest_mission_size t1)%Z)
      by (rewrite Hlm; destruct (decide (script_type sc = Mission)); lia).
    assert (Hls1 : (0 <= largest_streamed_size t1)%Z)
      by (rewrite Hls; destruct (decide (script_type sc = StreamedScript)); lia).
    destruct (IH _ _ _ _ Hmain1 Hmulti1 Hlm1 Hls1 H2)
      as (Hall & Hmain2 & Hmulti2 & Hlm2 & Hls2).
    assert (Hd : declared_size sc = sz) by (unfold declared_size; by rewrite Hsz).
    split; [constructor; [by rewrite Hsz|done]|].
    rewrite !filter_cons.
    rewrite Hlm2, Hls2, Hlm, Hls, Hmain2, Hmulti2, Hmain, Hmulti.
    clear Hlm2 Hls2 Hlm Hls Hmain2 Hmulti2 Hmain Hmulti.
    unfold u32_add.
    repeat split.
    + destruct (decide (is_main_block sc)); simpl; [|done].
      rewrite Hd, cast_u32_add_l. f_equal. lia.
    + destruct (decide (script_type sc = StreamedScript)); simpl.
      * rewrite decide_False by tauto. done.
      * rewrite decide_True by done. simpl.
        rewrite Hd, cast_u32_add_l. f_equal. lia.
    + destruct (decide (script_type sc = Mission)); simpl; [rewrite Hd|]; lia.
    + destruct (decide (script_type sc = StreamedScript)); simpl; [rewrite Hd|]; lia.
Qed.

(** X9. What the loop over [header.scripts] adds up.  When every script
    has its size the loop completes without touching the buffer, and:
    [main_size] is the header size plus the sizes of the scripts that are
    neither missions nor streamed, [multifile_size] the header size plus
    the sizes of all scripts but the streamed ones (both modulo 2^32, the
    counters being [uint32_t]); [largest_mission_size] and
    [largest_streamed_size] are the largest size among the missions and
    among the streamed scripts, 0 when there is none; and [missions] and
    [streameds] list these scripts in the order of [header.scripts]. *)
Theorem scan_scripts_accumulates (head_size : Z) (scs : list Script)
    (cg : CodeGeneratorBase) :
  (0 <= head_size < 2 ^ 32)%Z ->
  Forall (fun sc => is_Some (script_size sc)) scs ->
  exists t,
    scan_scripts (initial_totals head_size) scs cg = Done t cg /\
    main_size t = cast_u32 (head_size + total_size (filter is_main_block scs)) /\
    multifile_size t
    = cast_u32 (head_size
                + total_size (filter (fun sc => script_type sc ≠ StreamedScript) scs)) /\
    largest_mission_size t
    = largest_size (filter (fun sc => script_type sc = Mission) scs) /\
    largest_streamed_size t
    = largest_size (filter (fun sc => script_type sc = StreamedScript) scs) /\
    missions t = filter (fun sc => script_type sc = Mission) scs /\
    streameds t = filter (fun sc => script_type sc = StreamedScript) scs.
Proof.
  intros Hhead Hsizes.
  destruct (scan_scripts_run (initial_totals head_size) scs cg Hsizes) as [t Hrun].
  exists t. split; [done|].
  destruct (scan_scripts_totals scs (initial_totals head_size) cg t cg
              (cast_u32_small head_size Hhead) (cast_u32_small head_size Hhead)
              (Z.le_refl 0) (Z.le_refl 0) Hrun)
    as (_ & Hmain & Hmulti & Hlm & Hls).
  destruct (scan_scripts_inv _ _ _ _ _ Hrun) as (_ & Hms & Hss).
  cbn [initial_totals main_size multifile_size largest_mission_size
       largest_streamed_size missions streameds] in *.
  repeat split; try done.
  - rewrite Hlm. pose proof (largest_size_nonneg
      (filter (fun sc => script_type sc = Mission) scs)). lia.
  - rewrite Hls. pose proof (largest_size_nonneg
      (filter (fun sc => script_type sc = StreamedScript) scs)). lia.
Qed.

Lemma scan_scripts_missing_size scs :
  forall t cg,
  Exists (fun sc => script_size sc = None) scs ->
  scan_scripts t scs cg = Abort BadOptionalAccess cg.
Proof.
  induction scs as [|sc rest IH]; intros t cg Hex; [by apply Exists_nil in Hex|].
  cbn [scan_scripts].
  destruct (script_size sc) as [sz|] eqn:Hsz.
  - destruct (scan_script_run t sc cg) as [t1 H1]; [by rewrite Hsz|].
    rewrite (bind_Done _ _ _ _ _ H1). apply IH.
    apply Exists_cons in Hex as [Hex|Hex]; [congruence|done].
  - apply bind_Abort. unfold scan_script. rewrite Hsz.
    by repeat destruct (decide _).
Qed.

(** X10. A script without a size stops the header before a byte is
    stored.  If any script of [header.scripts], of whatever type, has no
    size, [generate_code] of the header stops on [size.value()] in the loop
    over the scripts, which runs before the first segment: the failure is
    the bad optional access and the buffer, the cursor and the diagnostics
    are as they were. *)
Theorem header_missing_size_stores_nothing (header : CompiledScmHeader)
    (sc : Script) (cg : CodeGeneratorBase) :
  sc ∈ scripts header ->
  script_size sc = None ->
  generate_code_CompiledScmHeader header cg = Abort BadOptionalAccess cg.
Proof.
  intros Hin Hsz. unfold generate_code_CompiledScmHeader.
  apply bind_Abort. apply scan_scripts_missing_size.
  apply Exists_exists. exists sc. split; [by apply list_elem_of_In|done].
Qed.

(** ** The table of the streamed scripts *)

Lemma length_streamed_entry sc vo : length (streamed_entry sc vo) = 28.
Proof.
  unfold streamed_entry. by rewrite !length_app, length_strncpy, !length_le_bytes.
Qed.

Lemma length_streamed_table scs vo : length (streamed_table scs vo) = 28 * length scs.
Proof.
  revert vo. induction scs as [|sc rest IH]; intros vo; [done|].
  cbn [streamed_table length]. rewrite length_app, length_streamed_entry, IH. lia.
Qed.

Lemma streamed_table_congr scs vo vo' :
  (vo mod 2 ^ 32 = vo' mod 2 ^ 32)%Z -> streamed_table scs vo = streamed_table scs vo'.
Proof.
  revert vo vo'. induction scs as [|sc rest IH]; intros vo vo' H; [done|].
  cbn [streamed_table]. unfold streamed_entry.
  rewrite (le_bytes_4_congr vo vo' H). f_equal.
  apply IH. by rewrite <- Zplus_mod_idemp_l, H, Zplus_mod_idemp_l.
Qed.

Lemma streamed_table_app pre post vo :
  streamed_table (pre ++ post) vo
  = streamed_table pre vo ++ streamed_table post (vo + total_size pre).
Proof.
  revert vo. induction pre as [|sc pre IH]; intros vo.
  - simpl. by rewrite Z.add_0_r.
  - cbn [app streamed_table total_size foldr]. rewrite IH, <- app_assoc.
    do 3 f_equal. unfold total_size. lia.
Qed.

Lemma emits_streamed_entries scs :
  forall vo cg,
  Forall (fun sc => is_Some (script_size sc)) scs ->
  offset cg + 28 * length scs <= max_offset cg ->
  emits (streamed_entries scs vo) cg tt (streamed_table scs vo) [].
Proof.
  induction scs as [|sc rest IH]; intros vo cg Hsizes Hroom.
  - apply emits_ret. simpl in Hroom. lia.
  - apply list.Forall_cons in Hsizes as [[sz Hsz] Hrest].
    cbn [streamed_entries streamed_table length] in *.
    unfold streamed_entry, declared_size. rewrite Hsz. cbn [default].
    eapply emits_eq.
    { eapply emits_bind_state; [apply emits_emplace_chars; lia|].
      intros cg1 Ho1 Hm1 _. rewrite length_strncpy in Ho1.
      eapply emits_bind_state; [apply emits_emplace_u32; lia|].
      intros cg2 Ho2 Hm2 _. rewrite length_le_bytes in Ho2.
      apply (emits_value (Some sz) sz); [done|].
      eapply emits_bind_state; [apply emits_emplace_u32; lia|].
      intros cg3 Ho3 Hm3 _. rewrite length_le_bytes in Ho3.
      apply IH; [done|lia]. }
    + rewrite <- !app_assoc. do 3 f_equal.
      apply streamed_table_congr. unfold u32_add, cast_u32. apply Z.mod_mod. lia.
    + done.
Qed.

(** X11. The table of the streamed scripts.  For streamed scripts that
    all have their size and a buffer with room for 28 bytes each, the loop
    over [streameds] completes and stores one 28-byte entry per script, in
    order: the script's name in upper case, cut or zero-padded to 20 bytes,
    then its virtual offset and its size as 32-bit little-endian numbers.
    The virtual offset of an entry is the starting offset plus the sizes of
    all entries in front of it (modulo 2^32): the entries tile the address
    space after [multifile_size] without gap or overlap. *)
Theorem streamed_entries_tile (scs : list Script) (virtual_offset : Z)
    (cg : CodeGeneratorBase) :
  Forall (fun sc => is_Some (script_size sc)) scs ->
  offset cg + 28 * length scs <= max_offset cg ->
  exists cg',
    streamed_entries scs virtual_offset cg = Done tt cg' /\
    offset cg' = offset cg + 28 * length scs /\
    forall pre sc post,
      scs = pre ++ sc :: post ->
      take 28 (drop (28 * length pre) (emitted cg cg'))
      = strncpy 20 (map toupper (path_stem sc))
        ++ le_bytes 4 (virtual_offset + total_size pre)
        ++ le_bytes 4 (declared_size sc).
Proof.
  intros Hsizes Hroom.
  destruct (emits_streamed_entries scs virtual_offset cg Hsizes) as [Hroom' Hrun];
    [done|].
  exists (after cg (streamed_table scs virtual_offset) []).
  split; [done|]. split.
  { by rewrite offset_after, length_streamed_table. }
  intros pre sc post ->. rewrite emitted_after by done.
  rewrite streamed_table_app.
  rewrite drop_app_length' by (by rewrite length_streamed_table).
  cbn [streamed_table].
  rewrite take_app_length' by (by rewrite length_streamed_entry).
  done.
Qed.

(** ** Floats that compare equal to zero *)

Lemma float_is_zero_bits f :
  (0 <= f < 2 ^ 32)%Z ->
  float_is_zero f = true <-> (f = 0 \/ f = 0x80000000)%Z.
Proof.
  intros Hf. rewrite float_of_bits_zero.
  change 0xFF%Z with (Z.ones 8). change 0x7FFFFF%Z with (Z.ones 23).
  rewrite !Z.land_ones, Z.shiftr_div_pow2 by lia.
  split.
  - intros [He Hm].
    pose proof (Z.div_mod f (2 ^ 23) ltac:(lia)) as Hdm.
    pose proof (Z.div_mod (f / 2 ^ 23) (2 ^ 8) ltac:(lia)) as Hdm'.
    assert (0 <= f / 2 ^ 23 < 2 ^ 9)%Z.
    { split; [apply Z.div_pos; lia|apply Z.div_lt_upper_bound; lia]. }
    assert (0 <= f / 2 ^ 23 / 2 ^ 8 < 2)%Z.
    { split; [apply Z.div_pos; lia|apply Z.div_lt_upper_bound; lia]. }
    lia.
  - by intros [->| ->].
Qed.

(** X12. Which floats the zero optimisation catches.  With
    [optimize_zero_floats], a float is emitted as the two bytes 04 00 of an
    8-bit zero exactly when its bit pattern is 0x00000000 or 0x80000000:
    the test is the comparison [== 0.0f], so negative zero is caught as
    well and its sign is not kept; every other pattern, denormals
    included, is emitted with the float tag. *)
Theorem zero_floats_lose_their_sign (f : float) (cg : CodeGeneratorBase) :
  (0 <= f < 2 ^ 32)%Z ->
  optimize_zero_floats (opt (program cg)) = true ->
  offset cg + 2 <= max_offset cg ->
  (generate_code_float f cg = Done tt (after cg [4; 0]%Z [])
   <-> (f = 0 \/ f = 0x80000000)%Z) /\
  ((f <> 0 /\ f <> 0x80000000)%Z ->
   forall cg', generate_code_float f cg = Done tt cg' ->
   take 1 (emitted cg cg') = [6%Z]).
Proof.
  intros Hf Hopt Hroom.
  pose proof (float_is_zero_bits f Hf) as Hzero.
  split; [split|].
  - intros Hrun.
    destruct (float_is_zero f) eqn:Hz; [by apply Hzero|].
    destruct (grows_generate_code_float (opt (program cg)) f cg tt _ eq_refl Hrun)
      as (Hoff & _).
    unfold compiled_size_float in Hoff. rewrite Hopt, Hz in Hoff.
    rewrite offset_after in Hoff. simpl in Hoff.
    destruct (use_half_float _); lia.
  - intros Hbits. apply Hzero in Hbits.
    apply emits_generate_code_float_zero; [by rewrite Hopt, Hbits|done].
  - intros [Hne1 Hne2] cg' Hrun.
    assert (Hz : float_is_zero f = false).
    { destruct (float_is_zero f); [|done]. destruct Hzero as [Hzero _].
      destruct (Hzero eq_refl); done. }
    assert (Hin : offset cg <= max_offset cg) by lia.
    destruct (generate_code_Done_encode (fun _ => {| label_script := main_script;
                                                     local_offset := None |})
                main_script {| data := Data_float f |} cg cg' Hin Hrun)
      as (bs & errs & Henc & ->).
    pose proof (length_encode _ _ _ _ _ _ Henc) as Hlen.
    destruct (grows_generate_code_float (opt (program cg)) f cg tt _ eq_refl Hrun)
      as (_ & _ & _ & _ & Hfit).
    rewrite emitted_after.
    2:{ rewrite Hlen. apply Hfit. unfold compiled_size_float.
        repeat case_match; lia. }
    unfold encode in Henc. cbn [data encode_ArgVariant] in Henc.
    unfold encode_float in Henc. rewrite Hopt, Hz in Henc. cbn [andb] in Henc.
    destruct (use_half_float _).
    + destruct (float_to_int16 _); [|done]. by apply Some_pair_inv in Henc as [<- _].
    + by apply Some_pair_inv in Henc as [<- _].
Qed.

(** ** Strings that do not fit *)

Lemma strncpy_truncates count src :
  count <= strlen src ->
  strncpy count src = take count src /\ Forall (fun c => c <> 0%Z) (take count src).
Proof.
  revert src. induction count as [|c IH]; intros src Hlen; [by rewrite take_0|].
  destruct src as [|ch rest]; [simpl in Hlen; lia|].
  cbn [strncpy strlen] in *. destruct (decide (ch = 0%Z)); [lia|].
  destruct (IH rest ltac:(lia)) as [-> Hnz]. split; [done|].
  cbn [take]. by constructor.
Qed.

(** X13. [emplace_chars] cuts a string that is too long.  When [s] has at
    least [n] characters in front of its first NUL, [emplace_chars(n, s)]
    stores the first [n] characters of [s] and nothing else: none of the
    [n] bytes is a NUL, so what is stored is not terminated. *)
Theorem emplace_chars_truncates (n : nat) (s : list Z) (cg : CodeGeneratorBase) :
  n <= strlen s ->
  offset cg + n <= max_offset cg ->
  exists cg',
    emplace_chars n s cg = Done tt cg' /\
    offset cg' = offset cg + n /\
    emitted cg cg' = take n s /\
    Forall (fun c => c <> 0%Z) (emitted cg cg').
Proof.
  intros Hlen Hroom.
  destruct (emits_emplace_chars n s cg Hroom) as [Hroom' Hrun].
  exists (after cg (strncpy n s) []). split; [done|].
  rewrite offset_after, emitted_after, length_strncpy by done.
  destruct (strncpy_truncates n s Hlen) as [-> Hnz]. done.
Qed.

(** X14. The length contracts of the string emitter.  A text label of
    more than 8 characters, a 16-byte text label of more than 16 and a
    variable-length string of more than 127 stop on [Expects] before
    anything is stored, whatever room the buffer has: the failure is the
    contract violation and the state is untouched.  A string within its
    bound is emitted when there is room for it.  A 128-byte string has no
    contract: one with 128 characters or more is stored as its first 128
    characters. *)
Theorem string_length_contracts (s : CompiledString) (cg : CodeGeneratorBase) :
  let size := compiled_size_CompiledString s (opt (program cg)) in
  (~ wf_CompiledString s ->
   generate_code_CompiledString s cg = Abort ContractViolation cg) /\
  (wf_CompiledString s -> offset cg + size <= max_offset cg ->
   exists cg', generate_code_CompiledString s cg = Done tt cg' /\
               offset cg' = offset cg + size) /\
  (string_type s = StrString128 -> 128 <= strlen (storage s) ->
   offset cg + 128 <= max_offset cg ->
   exists cg', generate_code_CompiledString s cg = Done tt cg' /\
               emitted cg cg' = take 128 (storage s)).
Proof.
  intros size. repeat split.
  - unfold wf_CompiledString, generate_code_CompiledString.
    destruct (string_type s); intros Hwf; try tauto;
      rewrite bool_decide_eq_false_2 by done; done.
  - intros Hwf Hroom.
    destruct (encode_CompiledString (opt (program cg)) s) as [bs|] eqn:Henc.
    + assert (Hlen : length bs = size).
      { apply (length_encode (opt (program cg))
                 (fun _ => {| label_script := main_script; local_offset := None |})
                 main_script {| data := Data_String s |} bs []).
        unfold encode. cbn [data encode_ArgVariant]. by rewrite Henc. }
      destruct (emits_encode_CompiledString s bs cg Henc) as [_ Hrun]; [lia|].
      exists (after cg bs []). split; [done|]. by rewrite offset_after, Hlen.
    + unfold encode_CompiledString, wf_CompiledString in *.
      destruct (string_type s); try done;
        rewrite bool_decide_eq_true_2 in Henc by done; done.
  - intros Htype Hlen Hroom. unfold generate_code_CompiledString. rewrite Htype.
    destruct (emits_emplace_chars 128 (storage s) cg Hroom) as [Hroom' Hrun].
    exists (after cg (strncpy 128 (storage s)) []). split; [done|].
    rewrite emitted_after by done. by apply strncpy_truncates.
Qed.

(** ** Arrays and their indices *)

(** X15. How an array index is emitted.  An element selected by the
    constant index 0 is emitted byte for byte like the plain variable.  For
    an array indexed by a variable, the element count is read after the
    tag and the two 16-bit operands have been stored: when the count is not
    set the run stops on [count.value()] with these 5 bytes already in the
    buffer; when it is set, 7 bytes are stored and bit 7 of the last one
    tells whether the index variable is global. *)
Theorem array_index_encoding (v : CompiledVar) (cg : CodeGeneratorBase) :
  offset cg + 7 <= max_offset cg ->
  (index v = Some (Index_int32 0) ->
   generate_code_CompiledVar v cg
   = generate_code_CompiledVar {| var := var v; index := None |} cg) /\
  (forall indexVar,
     index v = Some (Index_Var indexVar) -> var_count (var v) = None ->
     exists cg',
       generate_code_CompiledVar v cg = Abort BadOptionalAccess cg' /\
       offset cg' = offset cg + 5) /\
  (forall indexVar count,
     index v = Some (Index_Var indexVar) -> var_count (var v) = Some count ->
     exists cg' b,
       generate_code_CompiledVar v cg = Done tt cg' /\
       length (emitted cg cg') = 7 /\
       list.last (emitted cg cg') = Some b /\
       Z.testbit b 7 = global indexVar).
Proof.
  intros Hroom. repeat split.
  - intros Hidx. unfold generate_code_CompiledVar. rewrite Hidx. cbn [index var].
    by rewrite Z.mul_0_l, !Z.add_0_r.
  - intros indexVar Hidx Hcount. unfold generate_code_CompiledVar.
    rewrite Hidx, Hcount.
    set (tag := var_tag _ _ _ _ _). set (a1 := if global (var v) then _ else _).
    set (a2 := if global indexVar then _ else _).
    destruct (emits_emplace_u8 tag cg ltac:(lia)) as [_ H1].
    rewrite (bind_Done _ _ _ _ _ H1).
    set (cg1 := after cg [cast_u8 tag] []) in *.
    assert (Hmax1 : max_offset cg1 = max_offset cg)
      by (apply max_offset_after; simpl; lia).
    destruct (emits_emplace_u16 a1 cg1) as [_ H2];
      [rewrite Hmax1; unfold cg1; rewrite offset_after; simpl; lia|].
    rewrite (bind_Done _ _ _ _ _ H2).
    set (cg2 := after cg1 (le_bytes 2 a1) []) in *.
    assert (Hmax2 : max_offset cg2 = max_offset cg).
    { unfold cg2. rewrite max_offset_after; [done|].
      rewrite Hmax1. unfold cg1. rewrite offset_after, length_le_bytes. simpl. lia. }
    destruct (emits_emplace_u16 a2 cg2) as [_ H3].
    { rewrite Hmax2. unfold cg2, cg1. rewrite !offset_after, length_le_bytes.
      simpl. lia. }
    rewrite (bind_Done _ _ _ _ _ H3).
    eexists. split; [reflexivity|].
    unfold cg2, cg1. rewrite !offset_after, !length_le_bytes. simpl. lia.
  - intros indexVar count Hidx Hcount.
    assert (Henc : encode_CompiledVar v = Some
      (var_tag (var_type (var v)) (global (var v)) (0x7, 0x8)%Z (0xC, 0xD)%Z
               (0x12, 0x13)%Z
         :: le_bytes 2 (if global (var v) then var_offset (var v) else var_index (var v))
         ++ le_bytes 2 (if global indexVar then var_offset indexVar
                        else var_index indexVar)
         ++ [(count mod 256)%Z; type_packed (var_type (var v)) (global indexVar)])).
    { unfold encode_CompiledVar. by rewrite Hidx, Hcount. }
    destruct (emits_encode_CompiledVar v _ cg Henc) as [Hroom' Hrun].
    { cbn [length]. rewrite !length_app, !length_le_bytes. simpl. lia. }
    eexists _, (type_packed (var_type (var v)) (global indexVar)).
    split; [exact Hrun|]. rewrite emitted_after by done.
    split; [|split].
    + cbn [length]. by rewrite !length_app, !length_le_bytes.
    + rewrite !app_comm_cons, !app_assoc.
      change [(count mod 256)%Z; type_packed (var_type (var v)) (global indexVar)]
        with ([(count mod 256)%Z] ++ [type_packed (var_type (var v)) (global indexVar)]).
      rewrite app_assoc. apply last_snoc.
    + by destruct (var_type (var v)), (global indexVar).
Qed.

(** ** Following the jumps of the header *)

Lemma read_jump_trampoline bc pos target :
  take 7 (drop pos bc) = [2; 0; 1]%Z ++ le_bytes 4 (Z.of_nat target) ->
  (Z.of_nat target < 2 ^ 32)%Z ->
  read_jump bc pos = Some target.
Proof.
  intros Hbytes Hsmall. unfold read_jump. rewrite Hbytes.
  rewrite decide_True by (split; [done|by rewrite length_app, length_le_bytes]).
  change (drop 3 ([2; 0; 1]%Z ++ le_bytes 4 (Z.of_nat target)))
    with (le_bytes 4 (Z.of_nat target)).
  rewrite le_value_le_bytes_small, Nat2Z.id; [done|].
  change (256 ^ Z.of_nat 4)%Z with (2 ^ 32)%Z. lia.
Qed.

Lemma read_jump_frame bc1 bc2 pos k :
  take k bc2 = take k bc1 -> pos + 7 <= k -> read_jump bc2 pos = read_jump bc1 pos.
Proof.
  intros Hframe Hk. unfold read_jump.
  assert (Hwin : take 7 (drop pos bc2) = take 7 (drop pos bc1)).
  { rewrite !take_drop_commute.
    rewrite <- (take_prefix bc2 (pos + 7) k), <- (take_prefix bc1 (pos + 7) k) by done.
    by rewrite Hframe. }
  by rewrite Hwin.
Qed.

Lemma read_jump_end bc pos : length bc <= pos -> read_jump bc pos = None.
Proof.
  intros H. unfold read_jump. rewrite drop_ge by done.
  apply decide_False. by intros [? _].
Qed.

Lemma jump_path_frame bc1 bc2 stops :
  forall start k,
  take k bc2 = take k bc1 ->
  path_end start stops <= k ->
  jump_path bc1 start stops -> jump_path bc2 start stops.
Proof.
  induction stops as [|next rest IH]; intros start k Hframe Hend Hpath; [done|].
  destruct Hpath as (Hjump & Hfwd & Hrest).
  assert (Hmono : forall s ss, jump_path bc1 s ss -> s <= path_end s ss).
  { clear. intros s ss. revert s. induction ss as [|q ss IH]; intros s Hp; [done|].
    destruct Hp as (_ & Hq & Hp). specialize (IH q Hp).
    unfold path_end in *. rewrite last_cons. destruct (list.last ss); simpl in *; lia. }
  assert (Hend' : path_end next rest <= k).
  { unfold path_end in *. rewrite last_cons in Hend.
    destruct (list.last rest); simpl in *; lia. }
  pose proof (Hmono next rest Hrest).
  split; [|split; [done|by apply (IH next k)]].
  rewrite <- Hjump. apply (read_jump_frame bc1 bc2 start k); [done|lia].
Qed.

Lemma jump_path_snoc bc stops :
  forall start next,
  jump_path bc start stops ->
  read_jump bc (path_end start stops) = Some next ->
  path_end start stops + 7 <= next ->
  jump_path bc start (stops ++ [next]) /\ path_end start (stops ++ [next]) = next.
Proof.
  intros start next Hpath Hjump Hfwd. split; [|unfold path_end; by rewrite last_snoc].
  revert start Hpath Hjump Hfwd.
  induction stops as [|q rest IH]; intros start Hpath Hjump Hfwd.
  - by repeat split.
  - destruct Hpath as (Hq & Hq' & Hpath). simpl. repeat split; [done..|].
    apply IH; [done| |].
    + unfold path_end in *. rewrite last_cons in Hjump.
      by destruct (list.last rest).
    + unfold path_end in *. rewrite last_cons in Hfwd.
      by destruct (list.last rest).
Qed.

Lemma follow_jump_path bc stops :
  forall fuel start,
  jump_path bc start stops ->
  read_jump bc (path_end start stops) = None ->
  length stops <= fuel ->
  follow_jumps fuel bc start = start :: stops.
Proof.
  induction stops as [|q rest IH]; intros fuel start Hpath Hend Hfuel.
  - destruct fuel as [|fuel]; [done|]. simpl. unfold path_end in Hend. simpl in Hend.
    by rewrite Hend.
  - destruct fuel as [|fuel]; [simpl in Hfuel; lia|].
    destruct Hpath as (Hq & _ & Hpath). cbn [follow_jumps]. rewrite Hq. f_equal.
    apply IH; [done| |simpl in Hfuel; lia].
    unfold path_end in *. rewrite last_cons in Hend. by destruct (list.last rest).
Qed.

(** one more segment: the path that led to the cursor leads on to the new cursor *)
Lemma segment_extends_path {A} (seg : M A) n cg x cg' start stops :
  segment_shape seg n ->
  seg cg = Done x cg' ->
  (Z.of_nat (offset cg') < 2 ^ 32)%Z ->
  jump_path (bytecode cg) start stops ->
  path_end start stops = offset cg ->
  jump_path (bytecode cg') start (stops ++ [offset cg + n]) /\
  path_end start (stops ++ [offset cg + n]) = offset cg' /\
  offset cg' = offset cg + n /\
  max_offset cg' = max_offset cg /\
  offset cg' <= max_offset cg'.
Proof.
  intros Hshape Hrun Hsmall Hpath Hend.
  destruct (segment_shape_opens seg n cg x cg' Hshape Hrun) as [Hopen Hoff].
  destruct (segment_shape_grows seg n (opt (program cg)) Hshape cg x cg' eq_refl Hrun)
    as (_ & Hmax & _ & Hframe & Hroom).
  destruct Hshape as (skip & rest & k & _ & _ & _ & Hn).
  assert (Hjump : read_jump (bytecode cg') (offset cg) = Some (offset cg')).
  { apply read_jump_trampoline; [|done]. rewrite <- Hopen. unfold emitted.
    rewrite take_take. f_equal. lia. }
  destruct (jump_path_snoc (bytecode cg') stops start (offset cg')) as [Hpath' Hend'].
  - apply (jump_path_frame (bytecode cg) _ _ _ (offset cg)); [done|lia|done].
  - by rewrite Hend.
  - lia.
  - rewrite <- Hoff. repeat split; [done|done|done|lia].
Qed.

Lemma header_segments_path h t cg cg' :
  header_segments h t cg = Done tt cg' ->
  (Z.of_nat (offset cg') < 2 ^ 32)%Z ->
  let sizes :=
    [variables_segment_bytes h; models_segment_bytes h;
     scm_info_segment_bytes h (length (missions t))]
    ++ (if decide (version h = SanAndreas)
        then [streamed_segment_bytes (length (streameds t));
              unknown_segment_bytes; unknown_segment_2_bytes]
        else []) in
  jump_path (bytecode cg') (offset cg) (boundaries (offset cg) sizes) /\
  path_end (offset cg) (boundaries (offset cg) sizes) = offset cg' /\
  max_offset cg' = max_offset cg /\
  offset cg' <= max_offset cg'.
Proof.
  intros Hrun Hsmall sizes. unfold header_segments in Hrun.
  apply bind_inv in Hrun as ([] & cg1 & Hvar & Hrun).
  apply bind_inv in Hrun as (s1 & cg2 & Hmod & Hrun).
  apply bind_inv in Hrun as (s2 & cg3 & Hinfo & Hrun).
  pose proof (segment_shape_opens _ _ _ _ _ (variables_segment_shape h) Hvar) as [_ Ho1].
  pose proof (segment_shape_opens _ _ _ _ _ (models_segment_shape h 0) Hmod) as [_ Ho2].
  pose proof (segment_shape_opens _ _ _ _ _ (scm_info_segment_shape h t s1) Hinfo)
    as [_ Ho3].
  unfold sizes. destruct (decide (version h = SanAndreas)) as [Hsa|Hsa].
  - apply bind_inv in Hrun as (s3 & cg4 & Hstr & Hrun).
    apply bind_inv in Hrun as (s4 & cg5 & Hunk & Hrun).
    apply bind_inv in Hrun as (s5 & cg6 & Hunk2 & Hrun).
    injection Hrun as <-.
    pose proof (segment_shape_opens _ _ _ _ _ (streamed_segment_shape h t s2) Hstr)
      as [_ Ho4].
    pose proof (segment_shape_opens _ _ _ _ _ (unknown_segment_shape h s3) Hunk)
      as [_ Ho5].
    pose proof (segment_shape_opens _ _ _ _ _ (unknown_segment_2_shape h s4) Hunk2)
      as [_ Ho6].
    destruct (segment_extends_path _ _ _ _ _ (offset cg) [] (variables_segment_shape h)
                Hvar ltac:(lia) I eq_refl) as (P1 & E1 & _ & M1 & _).
    destruct (segment_extends_path _ _ _ _ _ _ _ (models_segment_shape h 0)
                Hmod ltac:(lia) P1 E1) as (P2 & E2 & _ & M2 & _).
    destruct (segment_extends_path _ _ _ _ _ _ _ (scm_info_segment_shape h t s1)
                Hinfo ltac:(lia) P2 E2) as (P3 & E3 & _ & M3 & _).
    destruct (segment_extends_path _ _ _ _ _ _ _ (streamed_segment_shape h t s2)
                Hstr ltac:(lia) P3 E3) as (P4 & E4 & _ & M4 & _).
    destruct (segment_extends_path _ _ _ _ _ _ _ (unknown_segment_shape h s3)
                Hunk ltac:(lia) P4 E4) as (P5 & E5 & _ & M5 & _).
    destruct (segment_extends_path _ _ _ _ _ _ _ (unknown_segment_2_shape h s4)
                Hunk2 ltac:(lia) P5 E5) as (P6 & E6 & _ & M6 & R6).
    rewrite Ho5, Ho4, Ho3, Ho2, Ho1 in P6, E6.
    cbn [app boundaries] in *.
    split; [exact P6|split; [exact E6|split; [congruence|done]]].
  - injection Hrun as <-.
    destruct (segment_extends_path _ _ _ _ _ (offset cg) [] (variables_segment_shape h)
                Hvar ltac:(lia) I eq_refl) as (P1 & E1 & _ & M1 & _).
    destruct (segment_extends_path _ _ _ _ _ _ _ (models_segment_shape h 0)
                Hmod ltac:(lia) P1 E1) as (P2 & E2 & _ & M2 & _).
    destruct (segment_extends_path _ _ _ _ _ _ _ (scm_info_segment_shape h t s1)
                Hinfo ltac:(lia) P2 E2) as (P3 & E3 & _ & M3 & R3).
    rewrite Ho2, Ho1 in P3, E3.
    cbn [app boundaries] in *.
    split; [exact P3|split; [exact E3|split; [congruence|done]]].
Qed.

(** X16. The jumps of the header lead through its segments.  For a
    header that meets the emitter's conditions, whose counters agree with
    its script list and whose size is below 2^32, [generate] completes, and
    a reader that starts at byte 0 of the buffer and takes each jump it
    finds stops after 3 jumps (6 for SanAndreas): it lands on the first byte
    of every segment in turn and the last jump leads to the end of the
    buffer, which is [compiled_size()], where the code of the main script
    will follow. *)
Theorem header_jumps_lead_to_the_end (junk : nat -> Z) (cg : CodeGeneratorData) :
  let h := data_compiled cg in
  wf_header h ->
  counts_agree h ->
  (Z.of_nat (header_bytes h) < 2 ^ 32)%Z ->
  exists cg',
    CodeGeneratorData_generate junk cg = Done tt cg' /\
    follow_jumps 6 (bytecode cg') 0 = 0 :: boundaries 0 (segment_sizes h) /\
    list.last (boundaries 0 (segment_sizes h)) = Some (CompiledScmHeader_compiled_size h) /\
    max_offset cg' = CompiledScmHeader_compiled_size h.
Proof.
  intros h Hwf Hcounts Hsmall. pose proof Hwf as (H8 & H32 & Hsizes & _).
  pose proof (compiled_size_vs_entries h H8 H32) as Hsize.
  apply counts_agree_entries in Hcounts.
  unfold CodeGeneratorData_generate. fold h.
  set (cg0 := setup_buffer junk (CompiledScmHeader_compiled_size h) (data_base cg)).
  assert (Hmax0 : max_offset cg0 = CompiledScmHeader_compiled_size h)
    by apply max_offset_setup_buffer.
  destruct (writes_offset (generate_code_CompiledScmHeader h) cg0 tt (header_bytes h))
    as (cg' & Hrun & Hoff & Hmax).
  { apply writes_generate_code_CompiledScmHeader; [done|].
    rewrite Hmax0. change (offset cg0) with 0. lia. }
  change (offset cg0) with 0 in Hoff.
  exists cg'. split; [done|].
  unfold generate_code_CompiledScmHeader in Hrun.
  apply bind_inv in Hrun as (t & cg1 & Hscan & Hrun).
  apply scan_scripts_inv in Hscan as (-> & Hm & Hs). cbn in Hm, Hs.
  fold (mission_scripts h) in Hm. fold (streamed_scripts h) in Hs.
  destruct (header_segments_path h t cg0 cg' Hrun ltac:(lia)) as (Hpath & Hend & _ & _).
  rewrite Hm, Hs in Hpath, Hend. change (offset cg0) with 0 in Hpath, Hend.
  fold (segment_sizes h) in Hpath, Hend.
  split; [|split].
  - apply follow_jump_path; [done| |].
    + rewrite Hend. apply read_jump_end. unfold max_offset in *. lia.
    + unfold segment_sizes. destruct (decide _); simpl; lia.
  - unfold path_end in Hend.
    destruct (list.last (boundaries 0 (segment_sizes h))) as [stop|] eqn:Hlast.
    + change (stop = offset cg') in Hend. f_equal. lia.
    + apply last_None in Hlast. done.
  - lia.
Qed.

(** ** The identifier byte of each segment *)

Lemma lookup_frame (bc1 bc2 : list Z) k q :
  take k bc2 = take k bc1 -> q < k -> bc2 !! q = bc1 !! q.
Proof.
  intros Hframe Hq.
  rewrite <- (lookup_take_lt bc2 k q), <- (lookup_take_lt bc1 k q) by done.
  by rewrite Hframe.
Qed.

Lemma segment_id_byte {A} skip sid (rest : M A) cg x cg' :
  keeps_within rest ->
  (goto_rel skip ≫= λ _, emplace_u8 sid ≫= λ _, rest) cg = Done x cg' ->
  bytecode cg' !! (offset cg + 7) = Some (cast_u8 sid).
Proof.
  intros Hrest Hrun.
  apply bind_inv in Hrun as ([] & cg1 & Hgoto & Hrun).
  apply bind_inv in Hrun as ([] & cg2 & Hid & Hrun).
  destruct (grows_goto_rel _ skip cg tt cg1 eq_refl Hgoto) as (Ho1 & _).
  unfold emplace_u8 in Hid. destruct (decide _) as [Hroom|]; [|done].
  injection Hid as <-.
  match type of Hrun with rest ?c = _ => specialize (Hrest c) end.
  rewrite Hrun in Hrest. cbn [final_state] in Hrest.
  destruct Hrest as (_ & _ & Hframe & _).
  { unfold max_offset in *. cbn [offset bytecode]. rewrite length_insert. lia. }
  cbn [offset bytecode] in Hframe.
  rewrite (lookup_frame _ _ _ (offset cg + 7) Hframe) by lia.
  rewrite <- Ho1. apply list_lookup_insert_eq. unfold max_offset in Hroom. lia.
Qed.

Lemma variables_segment_id h cg cg' :
  variables_segment h cg = Done tt cg' ->
  bytecode cg' !! (offset cg + 7) = Some (target_id (version h)).
Proof.
  intros Hrun. unfold variables_segment, emplace_i8 in Hrun.
  erewrite (fun H => segment_id_byte _ _ _ _ _ _ H Hrun) by keeps_within.
  by destruct (version h).
Qed.

Lemma models_segment_id h segid cg s cg' :
  models_segment h segid cg = Done s cg' ->
  bytecode cg' !! (offset cg + 7) = Some (cast_u8 (nextseg_id (version h) segid).1) /\
  s = (nextseg_id (version h) segid).2.
Proof.
  intros Hrun. unfold models_segment in Hrun.
  destruct (nextseg_id (version h) segid) as [sid segid']. cbn [fst snd]. split.
  - refine (segment_id_byte _ _ _ _ _ _ _ Hrun). keeps_within.
  - repeat (apply bind_inv in Hrun as (? & ? & _ & Hrun)). by injection Hrun.
Qed.

Lemma scm_info_segment_id h t segid cg s cg' :
  scm_info_segment h t segid cg = Done s cg' ->
  bytecode cg' !! (offset cg + 7) = Some (cast_u8 (nextseg_id (version h) segid).1) /\
  s = (nextseg_id (version h) segid).2.
Proof.
  intros Hrun. unfold scm_info_segment in Hrun.
  destruct (nextseg_id (version h) segid) as [sid segid']. cbn [fst snd]. split.
  - refine (segment_id_byte _ _ _ _ _ _ _ Hrun). keeps_within.
  - repeat (apply bind_inv in Hrun as (? & ? & _ & Hrun)). by injection Hrun.
Qed.

Lemma streamed_segment_id h t segid cg s cg' :
  streamed_segment h t segid cg = Done s cg' ->
  bytecode cg' !! (offset cg + 7) = Some (cast_u8 (nextseg_id (version h) segid).1) /\
  s = (nextseg_id (version h) segid).2.
Proof.
  intros Hrun. unfold streamed_segment in Hrun.
  destruct (nextseg_id (version h) segid) as [sid segid']. cbn [fst snd]. split.
  - refine (segment_id_byte _ _ _ _ _ _ _ Hrun).
    repeat first [apply keeps_within_bind | apply keeps_within_streamed_entries
                 | progress auto with within | intros ? ].
  - repeat (apply bind_inv in Hrun as (? & ? & _ & Hrun)). by injection Hrun.
Qed.

Lemma unknown_segment_id h segid cg s cg' :
  unknown_segment h segid cg = Done s cg' ->
  bytecode cg' !! (offset cg + 7) = Some (cast_u8 (nextseg_id (version h) segid).1) /\
  s = (nextseg_id (version h) segid).2.
Proof.
  intros Hrun. unfold unknown_segment in Hrun.
  destruct (nextseg_id (version h) segid) as [sid segid']. cbn [fst snd]. split.
  - refine (segment_id_byte _ _ _ _ _ _ _ Hrun). keeps_within.
  - repeat (apply bind_inv in Hrun as (? & ? & _ & Hrun)). by injection Hrun.
Qed.

Lemma unknown_segment_2_id h segid cg s cg' :
  unknown_segment_2 h segid cg = Done s cg' ->
  bytecode cg' !! (offset cg + 7) = Some (cast_u8 (nextseg_id (version h) segid).1) /\
  s = (nextseg_id (version h) segid).2.
Proof.
  intros Hrun. unfold unknown_segment_2 in Hrun.
  destruct (nextseg_id (version h) segid) as [sid segid']. cbn [fst snd]. split.
  - refine (segment_id_byte _ _ _ _ _ _ _ Hrun). keeps_within.
  - repeat (apply bind_inv in Hrun as (? & ? & _ & Hrun)). by injection Hrun.
Qed.

Lemma segment_keeps_byte {A} (seg : M A) n cg x cg' q :
  segment_shape seg n -> seg cg = Done x cg' -> q < offset cg ->
  bytecode cg' !! q = bytecode cg !! q.
Proof.
  intros Hshape Hrun Hq.
  destruct (segment_shape_grows seg n (opt (program cg)) Hshape cg x cg' eq_refl Hrun)
    as (_ & _ & _ & Hframe & _).
  by apply (lookup_frame _ _ (offset cg)).
Qed.

Lemma header_segments_ids h t cg cg' :
  header_segments h t cg = Done tt cg' ->
  let sizes :=
    [variables_segment_bytes h; models_segment_bytes h;
     scm_info_segment_bytes h (length (missions t))]
    ++ (if decide (version h = SanAndreas)
        then [streamed_segment_bytes (length (streameds t));
              unknown_segment_bytes; unknown_segment_2_bytes]
        else []) in
  Forall2 (fun start sid => bytecode cg' !! (start + 7) = Some sid)
          (offset cg :: boundaries (offset cg) (removelast sizes))
          (segment_ids (version h)).
Proof.
  intros Hrun sizes. unfold header_segments in Hrun.
  apply bind_inv in Hrun as ([] & cg1 & Hvar & Hrun).
  apply bind_inv in Hrun as (s1 & cg2 & Hmod & Hrun).
  apply bind_inv in Hrun as (s2 & cg3 & Hinfo & Hrun).
  pose proof (segment_shape_opens _ _ _ _ _ (variables_segment_shape h) Hvar) as [_ Ho1].
  pose proof (segment_shape_opens _ _ _ _ _ (models_segment_shape h 0) Hmod) as [_ Ho2].
  pose proof (segment_shape_opens _ _ _ _ _ (scm_info_segment_shape h t s1) Hinfo)
    as [_ Ho3].
  pose proof (variables_segment_id _ _ _ Hvar) as I0.
  pose proof (models_segment_id _ _ _ _ _ Hmod) as [I1 ->].
  pose proof (scm_info_segment_id _ _ _ _ _ _ Hinfo) as [I2 ->].
  assert (Hv : 8 <= variables_segment_bytes h) by (unfold variables_segment_bytes; lia).
  assert (Hm : 8 <= models_segment_bytes h) by (unfold models_segment_bytes; lia).
  assert (Hi : 8 <= scm_info_segment_bytes h (length (missions t)))
    by (unfold scm_info_segment_bytes; lia).
  unfold sizes, segment_ids.
  destruct (decide (version h = SanAndreas)) as [Hsa|Hsa].
  - apply bind_inv in Hrun as (s3 & cg4 & Hstr & Hrun).
    apply bind_inv in Hrun as (s4 & cg5 & Hunk & Hrun).
    apply bind_inv in Hrun as (s5 & cg6 & Hunk2 & Hrun).
    injection Hrun as <-.
    pose proof (segment_shape_opens _ _ _ _ _ (streamed_segment_shape h t _) Hstr)
      as [_ Ho4].
    pose proof (segment_shape_opens _ _ _ _ _ (unknown_segment_shape h s3) Hunk)
      as [_ Ho5].
    pose proof (streamed_segment_id _ _ _ _ _ _ Hstr) as [I3 ->].
    pose proof (unknown_segment_id _ _ _ _ _ Hunk) as [I4 ->].
    pose proof (unknown_segment_2_id _ _ _ _ _ Hunk2) as [I5 _].
    assert (Hs : 8 <= streamed_segment_bytes (length (streameds t)))
      by (unfold streamed_segment_bytes; lia).
    assert (Hu : 8 <= unknown_segment_bytes) by (unfold unknown_segment_bytes; lia).
    rewrite Hsa in I1, I2, I3, I4, I5. cbn in I1, I2, I3, I4, I5.
    cbn [app removelast boundaries].
    rewrite <- Ho1, <- Ho2, <- Ho3, <- Ho4, <- Ho5.
    repeat constructor.
    + rewrite (segment_keeps_byte _ _ _ _ _ _ (unknown_segment_2_shape h _) Hunk2) by lia.
      rewrite (segment_keeps_byte _ _ _ _ _ _ (unknown_segment_shape h _) Hunk) by lia.
      rewrite (segment_keeps_byte _ _ _ _ _ _ (streamed_segment_shape h t _) Hstr) by lia.
      rewrite (segment_keeps_byte _ _ _ _ _ _ (scm_info_segment_shape h t _) Hinfo) by lia.
      rewrite (segment_keeps_byte _ _ _ _ _ _ (models_segment_shape h _) Hmod) by lia.
      done.
    + rewrite (segment_keeps_byte _ _ _ _ _ _ (unknown_segment_2_shape h _) Hunk2) by lia.
      rewrite (segment_keeps_byte _ _ _ _ _ _ (unknown_segment_shape h _) Hunk) by lia.
      rewrite (segment_keeps_byte _ _ _ _ _ _ (streamed_segment_shape h t _) Hstr) by lia.
      rewrite (segment_keeps_byte _ _ _ _ _ _ (scm_info_segment_shape h t _) Hinfo) by lia.
      done.
    + rewrite (segment_keeps_byte _ _ _ _ _ _ (unknown_segment_2_shape h _) Hunk2) by lia.
      rewrite (segment_keeps_byte _ _ _ _ _ _ (unknown_segment_shape h _) Hunk) by lia.
      rewrite (segment_keeps_byte _ _ _ _ _ _ (streamed_segment_shape h t _) Hstr) by lia.
      done.
    + rewrite (segment_keeps_byte _ _ _ _ _ _ (unknown_segment_2_shape h _) Hunk2) by lia.
      rewrite (segment_keeps_byte _ _ _ _ _ _ (unknown_segment_shape h _) Hunk) by lia.
      done.
    + rewrite (segment_keeps_byte _ _ _ _ _ _ (unknown_segment_2_shape h _) Hunk2) by lia.
      done.
    + done.
  - injection Hrun as <-.
    assert (Hid : forall segid, nextseg_id (version h) segid = (0%Z, segid))
      by (intros segid; by destruct (version h)).
    rewrite Hid in I1, I2. cbn in I1, I2.
    cbn [app removelast boundaries].
    rewrite <- Ho1, <- Ho2.
    repeat constructor.
    + rewrite (segment_keeps_byte _ _ _ _ _ _ (scm_info_segment_shape h t _) Hinfo) by lia.
      rewrite (segment_keeps_byte _ _ _ _ _ _ (models_segment_shape h _) Hmod) by lia.
      done.
    + rewrite (segment_keeps_byte _ _ _ _ _ _ (scm_info_segment_shape h t _) Hinfo) by lia.
      done.
    + done.
Qed.

(** X17. The identifier byte of each segment.  In the header that
    [generate] produces (conditions as for the emitter, counters agreeing
    with the script list), the byte that follows the jump of the variables
    segment is the [target_id] of the dialect, and the byte that follows
    the jump of each later segment is what [nextseg_id] handed out: 0, 1,
    2, 3, 4 in this order for SanAndreas, and 0 for both the models and the
    SCM info segment in Liberty and Miami. *)
Theorem header_segment_identifiers (junk : nat -> Z) (cg : CodeGeneratorData) :
  let h := data_compiled cg in
  wf_header h ->
  counts_agree h ->
  exists cg',
    CodeGeneratorData_generate junk cg = Done tt cg' /\
    Forall2 (fun start sid => bytecode cg' !! (start + 7) = Some sid)
            (segment_starts h) (segment_ids (version h)).
Proof.
  intros h Hwf Hcounts. pose proof Hwf as (H8 & H32 & Hsizes & _).
  pose proof (compiled_size_vs_entries h H8 H32) as Hsize.
  apply counts_agree_entries in Hcounts.
  unfold CodeGeneratorData_generate. fold h.
  set (cg0 := setup_buffer junk (CompiledScmHeader_compiled_size h) (data_base cg)).
  assert (Hmax0 : max_offset cg0 = CompiledScmHeader_compiled_size h)
    by apply max_offset_setup_buffer.
  destruct (writes_offset (generate_code_CompiledScmHeader h) cg0 tt (header_bytes h))
    as (cg' & Hrun & _).
  { apply writes_generate_code_CompiledScmHeader; [done|].
    rewrite Hmax0. change (offset cg0) with 0. lia. }
  exists cg'. split; [done|].
  unfold generate_code_CompiledScmHeader in Hrun.
  apply bind_inv in Hrun as (t & cg1 & Hscan & Hrun).
  apply scan_scripts_inv in Hscan as (-> & Hm & Hs). cbn in Hm, Hs.
  fold (mission_scripts h) in Hm. fold (streamed_scripts h) in Hs.
  pose proof (header_segments_ids h t cg0 cg' Hrun) as Hids.
  cbv zeta in Hids. rewrite Hm, Hs in Hids. exact Hids.
Qed.

(** ** The tables of the models and of the missions *)

Lemma emits_for_each_bytes {A} (body : A -> M unit) (enc : A -> list Z) xs :
  forall cg,
  (forall x cg', x ∈ xs -> offset cg' + length (enc x) <= max_offset cg' ->
                 emits (body x) cg' tt (enc x) []) ->
  offset cg + length (concat (map enc xs)) <= max_offset cg ->
  emits (for_each body xs) cg tt (concat (map enc xs)) [].
Proof.
  induction xs as [|x rest IH]; intros cg Hbody Hroom.
  - apply emits_ret. simpl in Hroom. lia.
  - cbn [map concat for_each] in *. rewrite length_app in Hroom.
    eapply emits_eq.
    { eapply emits_bind_state; [apply Hbody; [left|lia]|].
      intros cg1 Ho Hm _. apply IH; [|lia].
      intros y cg' Hy. apply Hbody. by right. }
    all: done.
Qed.

Lemma length_concat_const {A} (enc : A -> list Z) n xs :
  (forall x, length (enc x) = n) -> length (concat (map enc xs)) = n * length xs.
Proof.
  intros Hn. induction xs as [|x rest IH]; [simpl; lia|].
  cbn [map concat length]. rewrite length_app, Hn, IH. lia.
Qed.

(** X18. The models segment.  With room for it, the segment is emitted
    as: the jump over the segment, the identifier byte, the 32-bit count
    [1 + models.size()], one entry of 24 zero bytes (the first model is
    always empty), and one 24-byte entry per model name in the order of the
    list, each name cut to 24 characters or zero-padded.  The segment
    counter is handed on as [nextseg_id] left it. *)
Theorem models_segment_layout (h : CompiledScmHeader) (segid : Z)
    (cg : CodeGeneratorBase) :
  offset cg + models_segment_bytes h <= max_offset cg ->
  exists cg',
    models_segment h segid cg = Done (nextseg_id (version h) segid).2 cg' /\
    emitted cg cg'
    = trampoline (Z.of_nat (offset cg + models_segment_bytes h))
      ++ [cast_u8 (nextseg_id (version h) segid).1]
      ++ le_bytes 4 (Z.of_nat (1 + length (models h)))
      ++ replicate 24 0%Z
      ++ concat (map (strncpy 24) (models h)).
Proof.
  unfold models_segment, models_segment_bytes. intros Hroom.
  destruct (nextseg_id (version h) segid) as [sid segid']. cbn [fst snd].
  pose proof (length_concat_const (strncpy 24) 24 (models h)
                (fun x => length_strncpy 24 x)) as Hlen.
  assert (Hrun : emits
    (goto_rel (Z.of_nat (4 + 24 * (1 + length (models h)))) ≫= λ _,
     emplace_u8 sid ≫= λ _,
     emplace_u32 (Z.of_nat (1 + length (models h))) ≫= λ _,
     emplace_chars 24 [] ≫= λ _,
     for_each (fun model => emplace_chars 24 model) (models h) ≫= λ _, mret segid')
    cg segid'
    (trampoline (8 + Z.of_nat (4 + 24 * (1 + length (models h))) + Z.of_nat (offset cg))
       ++ [cast_u8 sid] ++ le_bytes 4 (Z.of_nat (1 + length (models h)))
       ++ strncpy 24 [] ++ concat (map (strncpy 24) (models h)) ++ []) []).
  { eapply emits_eq.
    { eapply emits_bind_state; [apply emits_goto_rel; lia|].
      intros cg1 Ho1 Hm1 _. change (length (trampoline _)) with 7 in Ho1.
      eapply emits_bind_state; [apply emits_emplace_u8; lia|].
      intros cg2 Ho2 Hm2 _. simpl in Ho2.
      eapply emits_bind_state; [apply emits_emplace_u32; lia|].
      intros cg3 Ho3 Hm3 _. rewrite length_le_bytes in Ho3.
      eapply emits_bind_state; [apply emits_emplace_chars; lia|].
      intros cg4 Ho4 Hm4 _. rewrite length_strncpy in Ho4.
      eapply emits_bind_state.
      - apply emits_for_each_bytes; [|rewrite Hlen; lia].
        intros x cg' _ Hx. apply emits_emplace_chars. by rewrite length_strncpy in Hx.
      - intros cg5 Ho5 Hm5 _. apply emits_ret. lia. }
    all: done. }
  destruct Hrun as [Hroom' Hrun]. eexists. split; [exact Hrun|].
  rewrite emitted_after by done. rewrite app_nil_r. do 2 f_equal. lia.
Qed.

(** X19. The SCM info segment.  With room for it and every mission
    placed, the segment is emitted as: the jump over the segment, the
    identifier byte, [main_size] and [largest_mission_size] as 32-bit
    numbers, the number of missions as a 16-bit number (its residue modulo
    2^16), a 16-bit zero, for SanAndreas a 32-bit zero, and then the offset
    of each mission as a 32-bit number, in the order the missions have in
    the script list. *)
Theorem scm_info_segment_layout (h : CompiledScmHeader) (t : ScriptTotals)
    (segid : Z) (cg : CodeGeneratorBase) :
  Forall (fun sc => is_Some (script_offset sc)) (missions t) ->
  offset cg + scm_info_segment_bytes h (length (missions t)) <= max_offset cg ->
  exists cg',
    scm_info_segment h t segid cg = Done (nextseg_id (version h) segid).2 cg' /\
    emitted cg cg'
    = trampoline (Z.of_nat (offset cg + scm_info_segment_bytes h (length (missions t))))
      ++ [cast_u8 (nextseg_id (version h) segid).1]
      ++ le_bytes 4 (main_size t)
      ++ le_bytes 4 (largest_mission_size t)
      ++ le_bytes 2 (Z.of_nat (length (missions t)))
      ++ [0; 0]%Z
      ++ (if decide (version h = SanAndreas) then [0; 0; 0; 0]%Z else [])
      ++ concat (map (fun sc => le_bytes 4 (default 0%Z (script_offset sc))) (missions t)).
Proof.
  unfold scm_info_segment, scm_info_segment_bytes. intros Hoffs Hroom.
  destruct (nextseg_id (version h) segid) as [sid segid']. cbn [fst snd].
  set (enc := fun sc : Script => le_bytes 4 (default 0%Z (script_offset sc))).
  pose proof (length_concat_const enc 4 (missions t)
                (fun x => length_le_bytes 4 _)) as Hlen.
  set (sa := if decide (version h = SanAndreas) then 4 else 0) in *.
  set (zeros := if decide (version h = SanAndreas) then [0; 0; 0; 0]%Z else []).
  assert (Hzeros : length zeros = sa)
    by (unfold zeros, sa; by destruct (decide _)).
  set (skip := Z.of_nat (4 + 4 + 2 + 2 + 4 * length (missions t) + sa)).
  assert (Hrun : emits
    (goto_rel skip ≫= λ _,
     emplace_u8 sid ≫= λ _,
     emplace_u32 (main_size t) ≫= λ _,
     emplace_u32 (largest_mission_size t) ≫= λ _,
     emplace_u16 (Z.of_nat (length (missions t))) ≫= λ _,
     emplace_u16 0 ≫= λ _,
     (if decide (version h = SanAndreas) then emplace_u32 0 else mret tt) ≫= λ _,
     for_each (fun script_ptr => off ← value (script_offset script_ptr); emplace_i32 off)
              (missions t) ≫= λ _, mret segid')
    cg segid'
    (trampoline (8 + skip + Z.of_nat (offset cg))
       ++ [cast_u8 sid] ++ le_bytes 4 (main_size t)
       ++ le_bytes 4 (largest_mission_size t)
       ++ le_bytes 2 (Z.of_nat (length (missions t)))
       ++ le_bytes 2 0 ++ zeros ++ concat (map enc (missions t)) ++ []) []).
  { eapply emits_eq.
    { eapply emits_bind_state; [apply emits_goto_rel; lia|].
      intros cg1 Ho1 Hm1 _. change (length (trampoline _)) with 7 in Ho1.
      eapply emits_bind_state; [apply emits_emplace_u8; lia|].
      intros cg2 Ho2 Hm2 _. simpl in Ho2.
      eapply emits_bind_state; [apply emits_emplace_u32; lia|].
      intros cg3 Ho3 Hm3 _. rewrite length_le_bytes in Ho3.
      eapply emits_bind_state; [apply emits_emplace_u32; lia|].
      intros cg4 Ho4 Hm4 _. rewrite length_le_bytes in Ho4.
      eapply emits_bind_state; [apply emits_emplace_u16; lia|].
      intros cg5 Ho5 Hm5 _. rewrite length_le_bytes in Ho5.
      eapply emits_bind_state; [apply emits_emplace_u16; lia|].
      intros cg6 Ho6 Hm6 _. rewrite length_le_bytes in Ho6.
      eapply (emits_bind_state _ _ _ _ zeros []).
      { unfold zeros, sa in *. destruct (decide (version h = SanAndreas)).
        - apply (emits_emplace_u32 0). lia.
        - apply emits_ret. lia. }
      intros cg7 Ho7 Hm7 _. rewrite Hzeros in Ho7.
      eapply emits_bind_state.
      - apply (emits_for_each_bytes _ enc); [|rewrite Hlen; lia].
        intros sc cg' Hsc Hx. rewrite Forall_forall in Hoffs.
        destruct (Hoffs sc ltac:(by apply list_elem_of_In)) as [off Hoff].
        unfold enc in *. rewrite Hoff in *. cbn [default].
        apply (emits_value (Some off) off); [done|].
        apply emits_emplace_i32. by rewrite length_le_bytes in Hx.
      - intros cg8 Ho8 Hm8 _. apply emits_ret. lia. }
    all: done. }
  destruct Hrun as [Hroom' Hrun]. eexists. split; [exact Hrun|].
  rewrite emitted_after by done. rewrite app_nil_r. do 2 f_equal.
  unfold skip, sa. destruct (decide _); lia.
Qed.

(** ** The segments of SanAndreas *)

(** X21. The streamed scripts segment.  With room for it and every
    streamed script sized, the segment is emitted as: the jump over the
    segment, the identifier byte, [largest_streamed_size] and the count
    [1 + streameds.size()] as 32-bit numbers, the table of the streamed
    scripts, whose first entry is at the virtual offset [multifile_size],
    and a last entry named AAA with offset 0 and size 8, which the count
    includes. *)
Theorem streamed_segment_layout (h : CompiledScmHeader) (t : ScriptTotals)
    (segid : Z) (cg : CodeGeneratorBase) :
  Forall (fun sc => is_Some (script_size sc)) (streameds t) ->
  offset cg + streamed_segment_bytes (length (streameds t)) <= max_offset cg ->
  exists cg',
    streamed_segment h t segid cg = Done (nextseg_id (version h) segid).2 cg' /\
    emitted cg cg'
    = trampoline (Z.of_nat (offset cg + streamed_segment_bytes (length (streameds t))))
      ++ [cast_u8 (nextseg_id (version h) segid).1]
      ++ le_bytes 4 (largest_streamed_size t)
      ++ le_bytes 4 (Z.of_nat (1 + length (streameds t)))
      ++ streamed_table (streameds t) (multifile_size t)
      ++ ([65; 65; 65]%Z ++ replicate 17 0%Z)
      ++ le_bytes 4 0 ++ le_bytes 4 8.
Proof.
  unfold streamed_segment, streamed_segment_bytes. intros Hsizes Hroom.
  destruct (nextseg_id (version h) segid) as [sid segid']. cbn [fst snd].
  pose proof (length_streamed_table (streameds t) (multifile_size t)) as Hlen.
  set (skip := Z.of_nat (4 + 4 + 28 * (1 + length (streameds t)))).
  assert (Hrun : emits
    (goto_rel skip ≫= λ _,
     emplace_u8 sid ≫= λ _,
     emplace_u32 (largest_streamed_size t) ≫= λ _,
     emplace_u32 (Z.of_nat (1 + length (streameds t))) ≫= λ _,
     streamed_entries (streameds t) (multifile_size t) ≫= λ _,
     emplace_chars 20 [65; 65; 65]%Z ≫= λ _,
     emplace_u32 0 ≫= λ _,
     emplace_u32 8 ≫= λ _, mret segid')
    cg segid'
    (trampoline (8 + skip + Z.of_nat (offset cg))
       ++ [cast_u8 sid] ++ le_bytes 4 (largest_streamed_size t)
       ++ le_bytes 4 (Z.of_nat (1 + length (streameds t)))
       ++ streamed_table (streameds t) (multifile_size t)
       ++ strncpy 20 [65; 65; 65]%Z ++ le_bytes 4 0 ++ le_bytes 4 8 ++ []) []).
  { eapply emits_eq.
    { eapply emits_bind_state; [apply emits_goto_rel; lia|].
      intros cg1 Ho1 Hm1 _. change (length (trampoline _)) with 7 in Ho1.
      eapply emits_bind_state; [apply emits_emplace_u8; lia|].
      intros cg2 Ho2 Hm2 _. simpl in Ho2.
      eapply emits_bind_state; [apply emits_emplace_u32; lia|].
      intros cg3 Ho3 Hm3 _. rewrite length_le_bytes in Ho3.
      eapply emits_bind_state; [apply emits_emplace_u32; lia|].
      intros cg4 Ho4 Hm4 _. rewrite length_le_bytes in Ho4.
      eapply emits_bind_state; [apply emits_streamed_entries; [done|lia]|].
      intros cg5 Ho5 Hm5 _. rewrite Hlen in Ho5.
      eapply emits_bind_state; [apply emits_emplace_chars; lia|].
      intros cg6 Ho6 Hm6 _. rewrite length_strncpy in Ho6.
      eapply emits_bind_state; [apply emits_emplace_u32; lia|].
      intros cg7 Ho7 Hm7 _. rewrite length_le_bytes in Ho7.
      eapply emits_bind_state; [apply emits_emplace_u32; lia|].
      intros cg8 Ho8 Hm8 _. rewrite length_le_bytes in Ho8. apply emits_ret. lia. }
    all: done. }
  destruct Hrun as [Hroom' Hrun]. eexists. split; [exact Hrun|].
  rewrite emitted_after by done. rewrite app_nil_r. do 2 f_equal.
  unfold skip. lia.
Qed.

(** X22. The two unknown segments.  With room, the first is the jump,
    the identifier byte and a 32-bit zero; the second is the jump, the
    identifier byte, the size of the globals space less 8 as a 32-bit
    number, the bytes 62 and 2 and a 16-bit zero.  Each hands the segment
    counter on as [nextseg_id] left it. *)
Theorem unknown_segments_layout (h : CompiledScmHeader) (segid : Z)
    (cg : CodeGeneratorBase) :
  offset cg + unknown_segment_2_bytes <= max_offset cg ->
  (exists cg',
     unknown_segment h segid cg = Done (nextseg_id (version h) segid).2 cg' /\
     emitted cg cg'
     = trampoline (Z.of_nat (offset cg + unknown_segment_bytes))
       ++ [cast_u8 (nextseg_id (version h) segid).1] ++ [0; 0; 0; 0]%Z) /\
  (exists cg',
     unknown_segment_2 h segid cg = Done (nextseg_id (version h) segid).2 cg' /\
     emitted cg cg'
     = trampoline (Z.of_nat (offset cg + unknown_segment_2_bytes))
       ++ [cast_u8 (nextseg_id (version h) segid).1]
       ++ le_bytes 4 (size_global_vars_space h - 8)
       ++ [62; 2; 0; 0]%Z).
Proof.
  unfold unknown_segment, unknown_segment_2, unknown_segment_bytes,
    unknown_segment_2_bytes. intros Hroom.
  destruct (nextseg_id (version h) segid) as [sid segid']. cbn [fst snd]. split.
  - assert (Hrun : emits
      (goto_rel 4 ≫= λ _, emplace_u8 sid ≫= λ _, emplace_u32 0 ≫= λ _, mret segid')
      cg segid'
      (trampoline (8 + 4 + Z.of_nat (offset cg))
         ++ [cast_u8 sid] ++ le_bytes 4 0 ++ []) []).
    { eapply emits_eq.
      { eapply emits_bind_state; [apply emits_goto_rel; lia|].
        intros cg1 Ho1 Hm1 _. change (length (trampoline _)) with 7 in Ho1.
        eapply emits_bind_state; [apply emits_emplace_u8; lia|].
        intros cg2 Ho2 Hm2 _. simpl in Ho2.
        eapply emits_bind_state; [apply emits_emplace_u32; lia|].
        intros cg3 Ho3 Hm3 _. rewrite length_le_bytes in Ho3. apply emits_ret. lia. }
      all: done. }
    destruct Hrun as [Hroom' Hrun]. eexists. split; [exact Hrun|].
    rewrite emitted_after by done. do 2 f_equal. lia.
  - assert (Hrun : emits
      (goto_rel (4 + 1 + 1 + 2) ≫= λ _, emplace_u8 sid ≫= λ _,
       emplace_u32 (u32_sub (size_global_vars_space h) 8) ≫= λ _,
       emplace_u8 62 ≫= λ _, emplace_u8 2 ≫= λ _, emplace_u16 0 ≫= λ _, mret segid')
      cg segid'
      (trampoline (8 + (4 + 1 + 1 + 2) + Z.of_nat (offset cg))
         ++ [cast_u8 sid] ++ le_bytes 4 (u32_sub (size_global_vars_space h) 8)
         ++ [cast_u8 62] ++ [cast_u8 2] ++ le_bytes 2 0 ++ []) []).
    { eapply emits_eq.
      { eapply emits_bind_state; [apply emits_goto_rel; lia|].
        intros cg1 Ho1 Hm1 _. change (length (trampoline _)) with 7 in Ho1.
        eapply emits_bind_state; [apply emits_emplace_u8; lia|].
        intros cg2 Ho2 Hm2 _. simpl in Ho2.
        eapply emits_bind_state; [apply emits_emplace_u32; lia|].
        intros cg3 Ho3 Hm3 _. rewrite length_le_bytes in Ho3.
        eapply emits_bind_state; [apply emits_emplace_u8; lia|].
        intros cg4 Ho4 Hm4 _. simpl in Ho4.
        eapply emits_bind_state; [apply emits_emplace_u8; lia|].
        intros cg5 Ho5 Hm5 _. simpl in Ho5.
        eapply emits_bind_state; [apply emits_emplace_u16; lia|].
        intros cg6 Ho6 Hm6 _. rewrite length_le_bytes in Ho6. apply emits_ret. lia. }
      all: done. }
    destruct Hrun as [Hroom' Hrun]. eexists. split; [exact Hrun|].
    rewrite emitted_after by done. unfold u32_sub. rewrite le_bytes_cast_u32.
    do 2 f_equal. lia.
Qed.

(** ** Label references that are not negated, or not emitted *)

(** X20. Label references outside the negated modes.  Without
    [use_local_offsets], a reference to a label of a script that is neither
    a mission nor a streamed script is emitted as the tag 0x01 and the
    label's absolute offset as it is: nothing is reported, also when the
    offset is 0.  A reference to a label of a mission or streamed script
    from another script stops on the assertion, and one to a label of the
    script itself whose [local_offset] is not set stops on [value()]; in
    both cases the tag byte has already been stored. *)
Theorem label_reference_edges (labels : LabelStore) (script : Script) (p : LabelPtr)
    (cg : CodeGeneratorBase) :
  use_local_offsets (opt (program cg)) = false ->
  offset cg + 5 <= max_offset cg ->
  let owner := label_script (labels p) in
  let scoped := script_type owner = Mission \/ script_type owner = StreamedScript in
  (forall off, ~ scoped -> Label_offset (labels p) = Some off ->
     generate_code_Label labels script p cg
     = Done tt (after cg (1%Z :: le_bytes 4 off) [])) /\
  (scoped -> same_script owner script = false ->
     generate_code_Label labels script p cg
     = Abort AssertionFailure (after cg [1%Z] [])) /\
  (scoped -> same_script owner script = true -> local_offset (labels p) = None ->
     generate_code_Label labels script p cg
     = Abort BadOptionalAccess (after cg [1%Z] [])).
Proof.
  intros Hopt Hroom owner scoped.
  destruct (emits_emplace_u8 1 cg ltac:(lia)) as [_ Htag].
  change [cast_u8 1] with [1%Z] in Htag.
  repeat split.
  - intros off Hscope Hoff.
    apply (emits_encode_Label labels script p (1%Z :: le_bytes 4 off) [] cg).
    + unfold encode_Label. rewrite Hopt.
      rewrite bool_decide_eq_false_2 by done. by rewrite Hoff.
    + cbn [length]. rewrite length_le_bytes. lia.
  - intros Hscope Hother. unfold generate_code_Label.
    rewrite (bind_Done _ _ _ _ _ Htag).
    change ((get_opt ≫= ?k) ?c) with (k (opt (program c)) c). cbn beta.
    rewrite opt_after, Hopt. rewrite bool_decide_eq_true_2 by done.
    fold owner. by rewrite Hother.
  - intros Hscope Hsame Hunset. unfold generate_code_Label.
    rewrite (bind_Done _ _ _ _ _ Htag).
    change ((get_opt ≫= ?k) ?c) with (k (opt (program c)) c). cbn beta.
    rewrite opt_after, Hopt. rewrite bool_decide_eq_true_2 by done.
    fold owner. rewrite Hsame, Hunset. done.
Qed.

(** ** The further theorems at sample inputs *)

(** the sample command in a buffer of 4 bytes: the run stops on the
    capacity assertion, inside the buffer *)
Lemma generate_code_stays_within_witness :
  let cg := fresh_buffer options_none 4 in
  let cg' := final_state (generate_code sample_labels main_script sample_command cg) in
  max_offset cg' = max_offset cg /\
  offset cg <= offset cg' <= max_offset cg' /\
  take (offset cg) (bytecode cg') = take (offset cg) (bytecode cg) /\
  drop (offset cg') (bytecode cg') = drop (offset cg') (bytecode cg) /\
  opt (program cg') = opt (program cg) /\
  diagnostics (program cg) `prefix_of` diagnostics (program cg').
Proof.
  intros cg.
  apply (generate_code_stays_within sample_labels main_script sample_command cg).
  vm_compute. lia.
Defined.

Lemma little_endian_round_trip_witness :
  let cg := fresh_buffer options_none 4 in
  le_value (emitted cg (final_state (emplace_u16 0x1234 cg))) = 0x1234%Z /\
  le_signed (emitted cg (final_state (emplace_i32 (-2) cg))) = (-2)%Z.
Proof.
  intros cg.
  destruct (little_endian_round_trip 0x1234 cg) as (_ & _ & H16 & _);
    [vm_compute; lia|].
  destruct (little_endian_round_trip (-2) cg) as (_ & _ & _ & _ & _ & _ & H32);
    [vm_compute; lia|].
  split; [apply H16; lia|apply H32; lia].
Defined.

(** the sample command at the start of one buffer and at byte 5 of another *)
Lemma generate_code_position_independent_witness :
  let cg1 := fresh_buffer options_none 32 in
  let cg2 := {| program := program cg1; bytecode := replicate 40 0%Z; offset := 5 |} in
  exists bs errs,
    length bs = 21 /\
    final_state (generate_code sample_labels main_script sample_command cg1)
    = after cg1 bs errs /\
    generate_code sample_labels main_script sample_command cg2
    = Done tt (after cg2 bs errs).
Proof.
  intros cg1 cg2.
  refine (generate_code_position_independent sample_labels main_script sample_command
            cg1 (final_state (generate_code sample_labels main_script sample_command cg1))
            cg2 _ _ _ _).
  - vm_compute. lia.
  - reflexivity.
  - reflexivity.
  - vm_compute. lia.
Defined.

Lemma generate_fills_computed_size_witness :
  exists cg',
    CodeGenerator_generate (fun _ => 0xAA%Z) sample_labels sized_script = Done tt cg' /\
    offset cg' = max_offset cg' /\
    max_offset cg' = 23.
Proof.
  refine (generate_fills_computed_size (fun _ => 0xAA%Z) sample_labels sample_labels
            sized_script _ _ _).
  - vm_compute. reflexivity.
  - reflexivity.
  - repeat constructor; try (vm_compute; eauto; fail).
Defined.

(** label 5 is defined after the sample command, which leaves the cursor at 21 *)
Lemma label_offset_is_emitter_position_witness :
  local_offset (snd (compute_labels sized_script sample_labels) 5) = Some 21%Z.
Proof.
  refine (label_offset_is_emitter_position sample_labels sample_labels sized_script
            [sample_command] {| label := 5 |}
            [{| data := Data_LabelDef {| label := 6 |} |};
             {| data := Data_int8 5 |};
             {| data := Data_LabelDef {| label := 7 |} |}]
            (fresh_buffer options_none 23)
            (final_state (generate_code sample_labels (script sized_script) sample_command
                            (fresh_buffer options_none 23)))
            _ _ _ _ _ _).
  - vm_compute. reflexivity.
  - reflexivity.
  - vm_compute. intros H. repeat (apply elem_of_cons in H as [H|H]; [lia|]).
    by apply elem_of_nil in H.
  - reflexivity.
  - reflexivity.
  - reflexivity.
Defined.

Lemma scan_scripts_accumulates_witness :
  exists t,
    scan_scripts (initial_totals 100) [main_script; mission_script; streamed_script]
                 (fresh_buffer options_none 0)
    = Done t (fresh_buffer options_none 0) /\
    main_size t = 0xA4%Z /\
    multifile_size t = 0xC4%Z /\
    largest_mission_size t = 0x20%Z /\
    largest_streamed_size t = 0x10%Z /\
    missions t = [mission_script] /\
    streameds t = [streamed_script].
Proof.
  refine (scan_scripts_accumulates 100 [main_script; mission_script; streamed_script]
            (fresh_buffer options_none 0) _ _).
  - lia.
  - repeat constructor; vm_compute; eauto.
Defined.

Lemma header_missing_size_stores_nothing_witness :
  generate_code_CompiledScmHeader
    (sample_header Liberty [main_script; unsized_script] 0 0)
    (fresh_buffer options_none 64)
  = Abort BadOptionalAccess (fresh_buffer options_none 64).
Proof.
  apply (header_missing_size_stores_nothing
           (sample_header Liberty [main_script; unsized_script] 0 0) unsized_script).
  - simpl. right. left.
  - reflexivity.
Defined.

Lemma streamed_entries_tile_witness :
  exists cg',
    streamed_entries [streamed_script; streamed_script] 0x120
                     (fresh_buffer options_none 56) = Done tt cg' /\
    offset cg' = 56 /\
    take 28 (drop 28 (emitted (fresh_buffer options_none 56) cg'))
    = [66; 65; 82; 0; 0; 0; 0; 0; 0; 0; 0; 0; 0; 0; 0; 0; 0; 0; 0; 0;
       0x30; 0x01; 0; 0; 0x10; 0; 0; 0]%Z.
Proof.
  destruct (streamed_entries_tile [streamed_script; streamed_script] 0x120
              (fresh_buffer options_none 56)) as (cg' & Hrun & Hoff & Hentry).
  - repeat constructor; vm_compute; eauto.
  - vm_compute. lia.
  - exists cg'. split; [exact Hrun|]. split; [exact Hoff|].
    exact (Hentry [streamed_script] streamed_script [] eq_refl).
Defined.

Lemma zero_floats_lose_their_sign_witness :
  generate_code_float 0x80000000%Z (fresh_buffer options_compact 2)
  = Done tt (after (fresh_buffer options_compact 2) [4; 0]%Z []).
Proof.
  destruct (zero_floats_lose_their_sign 0x80000000%Z (fresh_buffer options_compact 2))
    as [[_ Hzero] _].
  - lia.
  - reflexivity.
  - vm_compute. lia.
  - apply Hzero. by right.
Defined.

Lemma emplace_chars_truncates_witness :
  exists cg',
    emplace_chars 3 hello (fresh_buffer options_none 3) = Done tt cg' /\
    offset cg' = 3 /\
    emitted (fresh_buffer options_none 3) cg' = [72; 69; 76]%Z /\
    Forall (fun c => c <> 0%Z) (emitted (fresh_buffer options_none 3) cg').
Proof.
  refine (emplace_chars_truncates 3 hello (fresh_buffer options_none 3) _ _).
  - vm_compute. lia.
  - vm_compute. lia.
Defined.

Lemma array_index_encoding_witness :
  exists cg' b,
    generate_code_CompiledVar sample_array (fresh_buffer options_none 7) = Done tt cg' /\
    length (emitted (fresh_buffer options_none 7) cg') = 7 /\
    list.last (emitted (fresh_buffer options_none 7) cg') = Some b /\
    Z.testbit b 7 = true.
Proof.
  destruct (array_index_encoding sample_array (fresh_buffer options_none 7))
    as (_ & _ & Hcount).
  - vm_compute. lia.
  - exact (Hcount _ 10%Z eq_refl eq_refl).
Defined.

Lemma header_jumps_lead_to_the_end_witness :
  let h := sample_header SanAndreas [main_script; mission_script; streamed_script] 1 1 in
  let cg := {| data_base := fresh_buffer options_none 0; data_compiled := h |} in
  exists cg',
    CodeGeneratorData_generate (fun _ => 0xAA%Z) cg = Done tt cg' /\
    follow_jumps 6 (bytecode cg') 0 = [0; 16; 76; 104; 176; 188; 204] /\
    list.last (boundaries 0 (segment_sizes h)) = Some 204 /\
    max_offset cg' = 204.
Proof.
  intros h cg.
  refine (header_jumps_lead_to_the_end (fun _ => 0xAA%Z) cg _ _ _).
  - unfold wf_header. simpl. split; [lia|]. split; [lia|].
    split; repeat constructor; vm_compute; eauto.
  - split; [reflexivity|]. intros _. reflexivity.
  - vm_compute. reflexivity.
Defined.

Lemma header_segment_identifiers_witness :
  let h := sample_header SanAndreas [main_script; mission_script; streamed_script] 1 1 in
  let cg := {| data_base := fresh_buffer options_none 0; data_compiled := h |} in
  exists cg',
    CodeGeneratorData_generate (fun _ => 0xAA%Z) cg = Done tt cg' /\
    Forall2 (fun start sid => bytecode cg' !! (start + 7) = Some sid)
            [0; 16; 76; 104; 176; 188] [115; 0; 1; 2; 3; 4]%Z.
Proof.
  intros h cg.
  refine (header_segment_identifiers (fun _ => 0xAA%Z) cg _ _).
  - unfold wf_header. simpl. split; [lia|]. split; [lia|].
    split; repeat constructor; vm_compute; eauto.
  - split; [reflexivity|]. intros _. reflexivity.
Defined.

Lemma models_segment_layout_witness :
  let h := sample_header Miami [] 0 0 in
  let cg := fresh_buffer options_none 60 in
  exists cg',
    models_segment h 0 cg = Done 0%Z cg' /\
    emitted cg cg'
    = [2; 0; 1; 60; 0; 0; 0; 0; 2; 0; 0; 0]%Z ++ replicate 24 0%Z
      ++ [72; 69; 76; 76; 79]%Z ++ replicate 19 0%Z.
Proof.
  intros h cg.
  refine (models_segment_layout h 0 cg _).
  vm_compute. lia.
Defined.

Lemma scm_info_segment_layout_witness :
  let h := sample_header Liberty [main_script; mission_script] 1 0 in
  let cg := fresh_buffer options_none 24 in
  exists cg',
    scm_info_segment h sample_totals 0 cg = Done 0%Z cg' /\
    emitted cg cg'
    = [2; 0; 1; 24; 0; 0; 0; 0; 0; 1; 0; 0; 0x20; 0; 0; 0; 1; 0; 0; 0;
       0x40; 0x01; 0; 0]%Z.
Proof.
  intros h cg.
  refine (scm_info_segment_layout h sample_totals 0 cg _ _).
  - repeat constructor; vm_compute; eauto.
  - vm_compute. lia.
Defined.

(** label 1 belongs to the mission: a reference from the main script stops
    after the tag; label 0 belongs to the main script *)
Lemma label_reference_edges_witness :
  let cg := fresh_buffer options_none 5 in
  generate_code_Label sample_labels main_script 0 cg
  = Done tt (after cg [1; 0x10; 0x01; 0; 0]%Z []) /\
  generate_code_Label sample_labels main_script 1 cg
  = Abort AssertionFailure (after cg [1%Z] []).
Proof.
  intros cg.
  destruct (label_reference_edges sample_labels main_script 0 cg) as (Hmain & _);
    [reflexivity|vm_compute; lia|].
  destruct (label_reference_edges sample_labels main_script 1 cg) as (_ & Hother & _);
    [reflexivity|vm_compute; lia|].
  split.
  - apply (Hmain 0x110%Z); [|reflexivity]. intros [H|H]; discriminate H.
  - apply Hother; [by left|reflexivity].
Defined.

Lemma streamed_segment_layout_witness :
  let h := sample_header SanAndreas [main_script; mission_script; streamed_script] 1 1 in
  let cg := fresh_buffer options_none 72 in
  exists cg',
    streamed_segment h sample_totals 2 cg = Done 3%Z cg' /\
    emitted cg cg'
    = [2; 0; 1; 72; 0; 0; 0; 2; 0x10; 0; 0; 0; 2; 0; 0; 0]%Z
      ++ ([66; 65; 82]%Z ++ replicate 17 0%Z ++ [0x20; 0x01; 0; 0; 0x10; 0; 0; 0]%Z)
      ++ ([65; 65; 65]%Z ++ replicate 17 0%Z ++ [0; 0; 0; 0; 8; 0; 0; 0]%Z).
Proof.
  intros h cg.
  refine (streamed_segment_layout h sample_totals 2 cg _ _).
  - repeat constructor; vm_compute; eauto.
  - vm_compute. lia.
Defined.

Lemma unknown_segments_layout_witness :
  let h := sample_header SanAndreas [] 0 0 in
  let cg := fresh_buffer options_none 16 in
  (exists cg',
     unknown_segment h 3 cg = Done 4%Z cg' /\
     emitted cg cg' = [2; 0; 1; 12; 0; 0; 0; 3; 0; 0; 0; 0]%Z) /\
  (exists cg',
     unknown_segment_2 h 3 cg = Done 4%Z cg' /\
     emitted cg cg' = [2; 0; 1; 16; 0; 0; 0; 3; 8; 0; 0; 0; 62; 2; 0; 0]%Z).
Proof.
  intros h cg.
  refine (unknown_segments_layout h 3 cg _).
  vm_compute. lia.
Defined.
